(** * compgraph: computational graphs over streams of rows

    A shallow embedding of [compgraph/operations.py] and
    [compgraph/graph.py], and the properties of the row merge, the
    joiners, the reducers, the [Split] mapper, the executor and the
    chaining methods that the specification states.  Further properties
    of the same code follow them: the mappers [Project], [Rename],
    [FilterPunctuation], [Division] and [Filter]; [Reduce] with [Count],
    [Sum] and [FirstReducer]; [Join] on empty inputs, without keys and on
    sorted inputs; the constructors of graphs and the run of a chained
    graph.

    Conventions of the embedding.
    - A Python exception is a value of [exn]; a computation that may raise
      has type [result A].
    - A row ([TRow = dict[str, Any]]) is a finite map from column names to
      values.  The values modelled are integers, floats (IEEE 754 binary64,
      through the executable specification [SpecFloat] of the Standard
      Library) and strings whose characters are code points below 256.
    - A generator is represented by the outcome of draining it, as
      [list(gen)] would: the rows it yields, or the exception that aborts
      it.  Rows yielded before an exception are not recorded.
    - A single-pass iterator (what [itertools.groupby] hands to a reducer
      or a joiner) is the list of the rows it has not produced yet; code
      that consumes it is written in state-passing style. *)

From Stdlib Require Import ZArith Ascii String List Permutation.
From Stdlib Require Import Floats.SpecFloat.
From stdpp Require Import base option list gmap strings pretty fin_maps fin_sets.

Local Open Scope string_scope.
Local Open Scope list_scope.
Local Open Scope stdpp_scope.
Local Open Scope Z_scope.

(** ** Exceptions and the error monad *)

Inductive exn : Set :=
  | KeyError
  | TypeError
  | ValueError
  | AssertionError
  | ZeroDivisionError
  | OverflowError
  | FileNotFoundError
  | RecursionError   (* the model ran out of fuel: unbounded recursion *)
  | BadReference.    (* the model followed a reference to no object   *)

Inductive result (A : Type) : Type :=
  | Ok (a : A)
  | Raise (e : exn).
Arguments Ok {A} a.
Arguments Raise {A} e.

#[global] Instance result_ret : MRet result := fun _ a => Ok a.
#[global] Instance result_bind : MBind result := fun _ _ f m =>
  match m with
  | Ok a => f a
  | Raise e => Raise e
  end.
#[global] Instance result_fmap : FMap result := fun _ _ f m =>
  match m with
  | Ok a => Ok (f a)
  | Raise e => Raise e
  end.

(** [d[k]] on a dictionary: [KeyError] when the key is absent. *)
Definition getitem {V : Type} (d : gmap string V) (k : string) : result V :=
  match d !! k with
  | Some v => Ok v
  | None => Raise KeyError
  end.

(** Monadic left fold and map, for loops whose body may raise. *)
Fixpoint foldM {A B : Type} (f : B -> A -> result B) (b : B) (l : list A)
  : result B :=
  match l with
  | [] => Ok b
  | a :: l' => b' ← f b a; foldM f b' l'
  end.

Fixpoint mapM {A B : Type} (f : A -> result B) (l : list A) : result (list B) :=
  match l with
  | [] => Ok []
  | a :: l' => b ← f a; bs ← mapM f l'; Ok (b :: bs)
  end.

(** [for a in l: yield from f(a)] *)
Fixpoint concatM {A B : Type} (f : A -> result (list B)) (l : list A)
  : result (list B) :=
  match l with
  | [] => Ok []
  | a :: l' => bs ← f a; rest ← concatM f l'; Ok (bs ++ rest)
  end.

(** ** Python values *)

Definition prec : Z := 53.
Definition emax : Z := 1024.

Inductive value : Type :=
  | VInt (n : Z)
  | VFloat (f : spec_float)
  | VStr (s : string).

(** [float(n)] for an integer: correctly rounded, [OverflowError] beyond
    the range of a double. *)
Definition float_of_int (n : Z) : result spec_float :=
  match binary_normalize prec emax n 0 false with
  | S754_infinity _ => Raise OverflowError
  | f => Ok f
  end.

(** [a / b] on integers: the correctly rounded quotient. *)
Definition int_truediv (a b : Z) : result spec_float :=
  if b =? 0 then Raise ZeroDivisionError
  else if a =? 0 then Ok (S754_zero (b <? 0))
  else
    let s := xorb (a <? 0) (b <? 0) in
    let '(mz, ez, lz) := SFdiv_core_binary prec emax (Z.abs a) 0 (Z.abs b) 0 in
    match binary_round_aux prec emax s mz ez lz with
    | S754_infinity _ => Raise OverflowError
    | f => Ok f
    end.

Definition float_add (x y : spec_float) : spec_float := SFadd prec emax x y.

(** [a + b] *)
Definition py_add (a b : value) : result value :=
  match a, b with
  | VInt x, VInt y => Ok (VInt (x + y))
  | VFloat x, VFloat y => Ok (VFloat (float_add x y))
  | VInt x, VFloat y => fx ← float_of_int x; Ok (VFloat (float_add fx y))
  | VFloat x, VInt y => fy ← float_of_int y; Ok (VFloat (float_add x fy))
  | VStr s, VStr t => Ok (VStr (s +:+ t))
  | _, _ => Raise TypeError
  end.

(** [a == b].  An integer and a float are compared by their exact values;
    two floats by IEEE equality (a NaN equals nothing, itself included:
    object identity is not modelled). *)
Definition int_float_eqb (n : Z) (f : spec_float) : bool :=
  match f with
  | S754_zero _ => n =? 0
  | S754_finite s m e =>
      let mz := if s then Z.neg m else Z.pos m in
      if 0 <=? e then n =? mz * 2 ^ e else n * 2 ^ (- e) =? mz
  | _ => false
  end.

Definition py_eqb (a b : value) : bool :=
  match a, b with
  | VInt x, VInt y => x =? y
  | VStr s, VStr t => String.eqb s t
  | VFloat x, VFloat y => SFeqb x y
  | VInt x, VFloat y => int_float_eqb x y
  | VFloat x, VInt y => int_float_eqb y x
  | _, _ => false
  end.

(** Equality of tuples: same length and equal component by component. *)
Fixpoint tuple_eqb (a b : list value) : bool :=
  match a, b with
  | [], [] => true
  | x :: a', y :: b' => py_eqb x y && tuple_eqb a' b'
  | _, _ => false
  end.

(** Values on which [==] is structural equality. *)
Definition exact (v : value) : Prop :=
  match v with
  | VFloat _ => False
  | _ => True
  end.

Abbreviation TRow := (gmap string value).
Abbreviation TRowsGenerator := (result (list TRow)).

(** [tuple(row[key] for key in keys)] *)
Definition key_of (keys : list string) (row : TRow) : result (list value) :=
  mapM (getitem row) keys.

(** ** [itertools.groupby]

    Consecutive rows are put in one group as long as the key of the group
    (the key of its first row) equals theirs.  A group is its key and the
    iterator over its rows. *)

Fixpoint groupby_go (keys : list string) (tgtkey : list value)
    (acc : list TRow) (rows : list TRow)
  : result (list (list value * list TRow)) :=
  match rows with
  | [] => Ok [(tgtkey, rev acc)]
  | row :: rows' =>
      currkey ← key_of keys row;
      if tuple_eqb tgtkey currkey
      then groupby_go keys tgtkey (row :: acc) rows'
      else gs ← groupby_go keys currkey [row] rows';
           Ok ((tgtkey, rev acc) :: gs)
  end.

Definition groupby (keys : list string) (rows : list TRow)
  : result (list (list value * list TRow)) :=
  match rows with
  | [] => Ok []
  | row :: rows' => currkey ← key_of keys row; groupby_go keys currkey [row] rows'
  end.

(** A non-empty run of rows that [groupby] keeps together: the first row
    has the key columns, and every other row has a key equal to its key. *)
Definition is_group (keys : list string) (rows : list TRow) : Prop :=
  match rows with
  | [] => False
  | row :: rest =>
      exists key, key_of keys row = Ok key /\
        Forall (fun r => exists k, key_of keys r = Ok k /\ tuple_eqb key k = true) rest
  end.

(** ** Loops over a single-pass iterator

    [for row in rows: body], where [rows] is an iterator that the body may
    advance as well: the body receives the current row and the rows left,
    and returns the rows it yields, the rows it leaves, and whether it
    ends in [break].  The fuel bounds the number of passes; every pass
    takes a row, so the number of rows plus one always suffices. *)

Inductive flow : Set := Continue | Break.

Fixpoint for_iter (fuel : nat)
    (body : TRow -> list TRow -> result (list TRow * list TRow * flow))
    (rows : list TRow) : TRowsGenerator :=
  match fuel with
  | O => Raise RecursionError
  | S fuel' =>
      match rows with
      | [] => Ok []
      | row :: rows1 =>
          '(out, rows2, fl) ← body row rows1;
          match fl with
          | Break => Ok out
          | Continue => rest ← for_iter fuel' body rows2; Ok (out ++ rest)
          end
      end
  end.

(** ** Mapper and [Map] *)

Definition Mapper : Type := TRow -> TRowsGenerator.

Definition Map_call (mapper : Mapper) (rows : TRowsGenerator) : TRowsGenerator :=
  rs ← rows; concatM mapper rs.

Definition DummyMapper : Mapper := fun row => Ok [row].

Definition Filter (condition : TRow -> bool) : Mapper :=
  fun row => if condition row then Ok [row] else Ok [].

Definition Project (columns : list string) : Mapper := fun row =>
  Ok [fold_left (fun mapped_row column =>
                   match row !! column with
                   | Some v => <[column := v]> mapped_row
                   | None => mapped_row
                   end) columns (∅ : TRow)].

Definition Rename (column new_column : string) : Mapper := fun row =>
  match row !! column with
  | Some v => Ok [<[new_column := v]> (delete column row)]
  | None => Ok [row]
  end.

(** *** [Split]

    A regular expression is represented by what [re.finditer] makes of it:
    the function from a subject string to the spans (start, end) of its
    successive matches.  The default pattern, one or more whitespace
    characters, is modelled exactly. *)

Definition pattern : Type := string -> list (nat * nat).

(** [\s] on the code points below 256. *)
Definition is_space (c : ascii) : bool :=
  let n := nat_of_ascii c in
  ((9 <=? n) && (n <=? 13) || (28 <=? n) && (n <=? 32)
   || (n =? 133) || (n =? 160))%nat.

(** The matches of [\s+] in the rest [s] of the subject, [i] being the
    position of its first character and [opened] the start of the run of
    whitespace in progress, if any. *)
Fixpoint ws_matches (i : nat) (opened : option nat) (s : string)
  : list (nat * nat) :=
  match s with
  | EmptyString =>
      match opened with
      | Some b => [(b, i)]
      | None => []
      end
  | String c s' =>
      if is_space c then ws_matches (S i) (Some (default i opened)) s'
      else match opened with
           | Some b => (b, i) :: ws_matches (S i) None s'
           | None => ws_matches (S i) None s'
           end
  end.

Definition finditer_ws : pattern := ws_matches 0 None.

(** [s[start:end]] for non-negative indices *)
Definition slice (s : string) (start end_ : nat) : string :=
  substring start (end_ - start) s.

(** The loop of [Split.__call__] and the test that follows it: the values
    of the split column in the rows yielded. *)
Fixpoint split_loop (s : string) (start : nat) (matches : list (nat * nat))
  : list string :=
  match matches with
  | (m_start, m_end) :: matches' =>
      slice s start m_start :: split_loop s m_end matches'
  | [] =>
      if (start <? String.length s)%nat
      then [slice s start (String.length s)]
      else []
  end.

Definition Split (column : string) (separator : option pattern) : Mapper :=
  fun row =>
    match row !! column with
    | None => Ok []
    | Some (VStr s) =>
        let separator_pattern := default finditer_ws separator in
        Ok (map (fun token => <[column := VStr token]> row)
                (split_loop s 0 (separator_pattern s)))
    | Some _ => Raise TypeError
    end.




(** ** Reducers and [Reduce] *)

Definition Reducer : Type := list string -> list TRow -> TRowsGenerator.

Definition Reduce_call (reducer : Reducer) (keys : list string)
    (rows : TRowsGenerator) : TRowsGenerator :=
  rs ← rows;
  groups ← groupby keys rs;
  concatM (fun g : list value * list TRow => reducer keys g.2) groups.

(** [{key: row[key] for key in group_key}] *)
Definition key_dict (group_key : list string) (row : TRow) : result TRow :=
  foldM (fun d key => v ← getitem row key; Ok (<[key := v]> d)) ∅ group_key.

Definition FirstReducer : Reducer := fun group_key rows =>
  for_iter (S (length rows)) (fun row rows1 => Ok ([row], rows1, Break)) rows.

(** [sum(1 for _ in rows)] *)
Definition count_rows (rows : list TRow) : Z :=
  fold_left (fun acc _ => acc + 1) rows 0.

Definition Count (column : string) : Reducer := fun group_key rows =>
  for_iter (S (length rows))
    (fun row rows1 =>
       reduced_row ← key_dict group_key row;
       (* the generator expression drains the iterator *)
       let n := 1 + count_rows rows1 in
       Ok ([<[column := VInt n]> reduced_row], [], Continue))
    rows.

(** [sum(row[column] for row in rows)] *)
Definition sum_column (column : string) (rows : list TRow) : result value :=
  foldM (fun acc row => v ← getitem row column; py_add acc v) (VInt 0) rows.

Definition Sum (column : string) : Reducer := fun group_key rows =>
  for_iter (S (length rows))
    (fun row rows1 =>
       reduced_row ← key_dict group_key row;
       first ← getitem row column;
       others ← sum_column column rows1;
       total ← py_add first others;
       Ok ([<[column := total]> reduced_row], [], Break))
    rows.






(** ** Instances for the examples

    The examples make no string of a float and run no sort, so that any
    function serves for the first and the third of the parameters below;
    for the order of iteration over a set they take that of [elements]. *)

Definition no_float_repr : spec_float -> string := fun _ => "nan".
Definition elements_order : gset string -> list string := elements.
Definition no_sort : list string -> TRowsGenerator -> TRowsGenerator :=
  fun _ rows => rows.

Section Engine.

#[local] Set Default Proof Using "Type".

(** ** What the embedding takes as given

    - [float_repr]: Python's [repr] of a float (the shortest string that
      reads back as the same float);
    - [set_iter]: the order in which a Python set of strings is iterated;
      it depends on the hashes of the strings and is left open, subject
      only to [iterates_members] where a result needs it;
    - [ExternalSort_call]: the operation [external_sort.ExternalSort(keys)],
      a module this development does not cover. *)

Variable float_repr : spec_float -> string.
Variable set_iter : gset string -> list string.
Variable ExternalSort_call : list string -> TRowsGenerator -> TRowsGenerator.

(** [str(v)] *)
Definition py_str (v : value) : string :=
  match v with
  | VInt n => pretty n
  | VFloat f => float_repr f
  | VStr s => s
  end.

(** ** Joiners *)

Inductive Joiner : Type :=
  | InnerJoiner (suffix_a suffix_b : string)
  | OuterJoiner (suffix_a suffix_b : string)
  | LeftJoiner (suffix_a suffix_b : string)
  | RightJoiner (suffix_a suffix_b : string)
  | SomeJoiner      (* any other subclass of [Joiner], with its own call *)
      (call : list string -> list TRow -> list TRow -> TRowsGenerator).

Definition default_suffix_a : string := "_1".
Definition default_suffix_b : string := "_2".

Definition merge_rows (suffix_a suffix_b : string) (keys : list string)
    (row_a row_b : TRow) : result TRow :=
  let cols_a := dom row_a in
  let cols_b := dom row_b in
  let common_cols := (cols_a ∩ cols_b) ∖ list_to_set keys in
  merged_row ← foldM (fun (m : TRow) col =>
                        v ← getitem row_a col; Ok (<[col := v]> m))
                     ∅ keys;
  merged_row ← foldM (fun (m : TRow) col =>
                        va ← getitem row_a col;
                        vb ← getitem row_b col;
                        Ok (<[col +:+ suffix_b := vb]>
                              (<[col +:+ suffix_a := va]> m)))
                     merged_row (set_iter common_cols);
  merged_row ← foldM (fun (m : TRow) col =>
                        v ← getitem row_a col; Ok (<[col := v]> m))
                     merged_row (set_iter (cols_a ∖ common_cols));
  foldM (fun (m : TRow) col => v ← getitem row_b col; Ok (<[col := v]> m))
        merged_row (set_iter (cols_b ∖ common_cols)).

Definition Joiner_suffixes (joiner : Joiner) : string * string :=
  match joiner with
  | InnerJoiner sa sb | OuterJoiner sa sb | LeftJoiner sa sb
  | RightJoiner sa sb => (sa, sb)
  | SomeJoiner _ => (default_suffix_a, default_suffix_b)
  end.

(** [joiner._merge_rows(keys, row_a, row_b)] *)
Definition Joiner_merge_rows (joiner : Joiner) (keys : list string)
    (row_a row_b : TRow) : result TRow :=
  merge_rows (Joiner_suffixes joiner).1 (Joiner_suffixes joiner).2 keys
             row_a row_b.

(** [for row_a in rows_a: for row_b in rows_b_list: yield merge] *)
Definition product_a_major (sa sb : string) (keys : list string)
    (rows_a rows_b_list : list TRow) : TRowsGenerator :=
  concatM (fun row_a => mapM (fun row_b => merge_rows sa sb keys row_a row_b)
                             rows_b_list)
          rows_a.

(** [for row_b in rows_b: for row_a in row_a_list: yield merge] *)
Definition product_b_major (sa sb : string) (keys : list string)
    (row_a_list rows_b : list TRow) : TRowsGenerator :=
  concatM (fun row_b => mapM (fun row_a => merge_rows sa sb keys row_a row_b)
                             row_a_list)
          rows_b.

Definition InnerJoiner_call (sa sb : string) (keys : list string)
    (rows_a rows_b : list TRow) : TRowsGenerator :=
  let rows_b_list := rows_b in
  product_a_major sa sb keys rows_a rows_b_list.

Definition OuterJoiner_call (sa sb : string) (keys : list string)
    (rows_a rows_b : list TRow) : TRowsGenerator :=
  let row_b_list := rows_b in
  if (length row_b_list =? 0)%nat then Ok rows_a
  else
    '(out, is_null) ←
      foldM (fun (st : list TRow * bool) row_a =>
               merged ← mapM (fun row_b => merge_rows sa sb keys row_a row_b)
                             row_b_list;
               Ok (st.1 ++ merged, false))
            ([], true) rows_a;
    if (is_null : bool) then Ok (out ++ row_b_list) else Ok out.

Definition LeftJoiner_call (sa sb : string) (keys : list string)
    (rows_a rows_b : list TRow) : TRowsGenerator :=
  let row_b_list := rows_b in
  if (length row_b_list =? 0)%nat then Ok rows_a
  else product_a_major sa sb keys rows_a row_b_list.

Definition RightJoiner_call (sa sb : string) (keys : list string)
    (rows_a rows_b : list TRow) : TRowsGenerator :=
  let row_a_list := rows_a in
  if (length row_a_list =? 0)%nat then Ok rows_b
  else product_b_major sa sb keys row_a_list rows_b.

(** [joiner(keys, rows_a, rows_b)]; whatever the strategy, the call leaves
    nothing in the iterator [rows_b]. *)
Definition Joiner_call (joiner : Joiner) (keys : list string)
    (rows_a rows_b : list TRow) : TRowsGenerator :=
  match joiner with
  | InnerJoiner sa sb => InnerJoiner_call sa sb keys rows_a rows_b
  | OuterJoiner sa sb => OuterJoiner_call sa sb keys rows_a rows_b
  | LeftJoiner sa sb => LeftJoiner_call sa sb keys rows_a rows_b
  | RightJoiner sa sb => RightJoiner_call sa sb keys rows_a rows_b
  | SomeJoiner call => call keys rows_a rows_b
  end.

(** The four strategies of the library. *)
Definition known_joiner (joiner : Joiner) : Prop :=
  match joiner with
  | SomeJoiner _ => False
  | _ => True
  end.

(** ** [Join] *)

Fixpoint is_less_zip (a b : list value) : bool :=
  match a, b with
  | a_val :: a', b_val :: b' =>
      if String.ltb (py_str a_val) (py_str b_val) then true
      else if String.ltb (py_str b_val) (py_str a_val) then false
      else is_less_zip a' b'
  | _, _ => false
  end.

Definition Join_is_less (a b : list value) : result bool :=
  if (length a =? length b)%nat then Ok (is_less_zip a b)
  else Raise AssertionError.

(** The state of the right input during the walk: the groups from the
    current one on.  The head is [(group_key_b, group_b)], its rows being
    those the iterator [group_b] still holds; the empty list stands for
    [(None, None)]. *)

(** [while ... and self._is_less(group_key_b, group_key_a):
       yield from emit(group_b); advance] *)
Fixpoint while_less (emit : list TRow -> TRowsGenerator)
    (group_key_a : list value) (groups_b : list (list value * list TRow))
  : result (list TRow * list (list value * list TRow)) :=
  match groups_b with
  | [] => Ok ([], [])
  | (group_key_b, group_b) :: groups_b' =>
      lt ← Join_is_less group_key_b group_key_a;
      if (lt : bool)
      then out ← emit group_b;
           '(rest, gs) ← while_less emit group_key_a groups_b';
           Ok (out ++ rest, gs)
      else Ok ([], groups_b)
  end.

(** [while group_key_b is not None: yield from joiner(keys, [], group_b)] *)
Definition drain_right (joiner : Joiner) (keys : list string)
    (groups_b : list (list value * list TRow)) : TRowsGenerator :=
  concatM (fun g : list value * list TRow => Joiner_call joiner keys [] g.2)
          groups_b.

Fixpoint join_inner (joiner : Joiner) (keys : list string)
    (groups_a groups_b : list (list value * list TRow)) : TRowsGenerator :=
  match groups_a with
  | [] => Ok []
  | (group_key_a, group_a) :: groups_a' =>
      '(_, groups_b) ← while_less (fun _ => Ok []) group_key_a groups_b;
      match groups_b with
      | (group_key_b, group_b) :: groups_b' =>
          if tuple_eqb group_key_a group_key_b
          then out ← Joiner_call joiner keys group_a group_b;
               rest ← join_inner joiner keys groups_a' groups_b';
               Ok (out ++ rest)
          else join_inner joiner keys groups_a' groups_b
      | [] => join_inner joiner keys groups_a' []
      end
  end.

Fixpoint join_outer (joiner : Joiner) (keys : list string)
    (groups_a groups_b : list (list value * list TRow)) : TRowsGenerator :=
  match groups_a with
  | [] => drain_right joiner keys groups_b
  | (group_key_a, group_a) :: groups_a' =>
      '(skipped, groups_b) ←
        while_less (Joiner_call joiner keys []) group_key_a groups_b;
      match groups_b with
      | (group_key_b, group_b) :: groups_b' =>
          if tuple_eqb group_key_a group_key_b
          then out ← Joiner_call joiner keys group_a group_b;
               rest ← join_outer joiner keys groups_a' groups_b';
               Ok (skipped ++ out ++ rest)
          else out ← Joiner_call joiner keys group_a [];
               rest ← join_outer joiner keys groups_a' groups_b;
               Ok (skipped ++ out ++ rest)
      | [] =>
          out ← Joiner_call joiner keys group_a [];
          rest ← join_outer joiner keys groups_a' [];
          Ok (skipped ++ out ++ rest)
      end
  end.

(** In the left and right branches a matched right group is not advanced
    past: it stays current, its iterator exhausted by the joiner. *)
Fixpoint join_left (joiner : Joiner) (keys : list string)
    (groups_a groups_b : list (list value * list TRow)) : TRowsGenerator :=
  match groups_a with
  | [] => Ok []
  | (group_key_a, group_a) :: groups_a' =>
      '(_, groups_b) ← while_less (fun _ => Ok []) group_key_a groups_b;
      match groups_b with
      | (group_key_b, group_b) :: groups_b' =>
          if tuple_eqb group_key_a group_key_b
          then out ← Joiner_call joiner keys group_a group_b;
               rest ← join_left joiner keys groups_a'
                        ((group_key_b, []) :: groups_b');
               Ok (out ++ rest)
          else out ← Joiner_call joiner keys group_a [];
               rest ← join_left joiner keys groups_a' groups_b;
               Ok (out ++ rest)
      | [] =>
          out ← Joiner_call joiner keys group_a [];
          rest ← join_left joiner keys groups_a' [];
          Ok (out ++ rest)
      end
  end.

Fixpoint join_right (joiner : Joiner) (keys : list string)
    (groups_a groups_b : list (list value * list TRow)) : TRowsGenerator :=
  match groups_a with
  | [] => drain_right joiner keys groups_b
  | (group_key_a, group_a) :: groups_a' =>
      '(skipped, groups_b) ←
        while_less (Joiner_call joiner keys []) group_key_a groups_b;
      match groups_b with
      | (group_key_b, group_b) :: groups_b' =>
          if tuple_eqb group_key_a group_key_b
          then out ← Joiner_call joiner keys group_a group_b;
               rest ← join_right joiner keys groups_a'
                        ((group_key_b, []) :: groups_b');
               Ok (skipped ++ out ++ rest)
          else rest ← join_right joiner keys groups_a' groups_b;
               Ok (skipped ++ rest)
      | [] =>
          rest ← join_right joiner keys groups_a' [];
          Ok (skipped ++ rest)
      end
  end.

(** [Join(joiner, keys)(rows, rows_b)].  The right input is asked for its
    first group before the strategy is looked at, the left input after.
    An input that fails is taken to fail as a whole. *)
Definition Join_call (joiner : Joiner) (keys : list string)
    (rows rows_b : TRowsGenerator) : TRowsGenerator :=
  rs_b ← rows_b;
  groups_b ← groupby keys rs_b;
  match joiner with
  | SomeJoiner _ => Raise ValueError
  | _ =>
      rs_a ← rows;
      groups_a ← groupby keys rs_a;
      match joiner with
      | InnerJoiner _ _ => join_inner joiner keys groups_a groups_b
      | OuterJoiner _ _ => join_outer joiner keys groups_a groups_b
      | LeftJoiner _ _ => join_left joiner keys groups_a groups_b
      | RightJoiner _ _ => join_right joiner keys groups_a groups_b
      | SomeJoiner _ => Raise ValueError
      end
  end.

(** ** Operations

    [Graph.run] tells three kinds of operation apart: the sources ([Read],
    [ReadIterFactory]), [Join], and everything else, which it calls on the
    current stream.  [Map], [Reduce] and the external sort are of the
    third kind. *)

Inductive Operation : Type :=
  | Read (filename : string) (parser : string -> result TRow)
  | ReadIterFactory (name : string)
  | Join (joiner : Joiner) (keys : list string)
  | Unary (call : TRowsGenerator -> TRowsGenerator).

Definition Map (mapper : Mapper) : Operation := Unary (Map_call mapper).
Definition Reduce (reducer : Reducer) (keys : list string) : Operation :=
  Unary (Reduce_call reducer keys).
Definition ExternalSort (keys : list string) : Operation :=
  Unary (ExternalSort_call keys).

Definition is_source (operation : Operation) : bool :=
  match operation with
  | Read _ _ | ReadIterFactory _ => true
  | _ => false
  end.

(** What a run reads from outside the graph: the files, as their lines,
    and the keyword arguments of [run], each a restartable factory, which
    is the stream it produces at every call. *)
Record inputs : Type := {
  files : gmap string (list string);
  kwargs : gmap string TRowsGenerator
}.

Definition Read_call (filename : string) (parser : string -> result TRow)
    (inp : inputs) : TRowsGenerator :=
  match files inp !! filename with
  | Some lines => mapM parser lines
  | None => Raise FileNotFoundError
  end.

Definition ReadIterFactory_call (name : string) (inp : inputs)
  : TRowsGenerator :=
  factory ← getitem (kwargs inp) name; factory.

(** ** Graphs, as objects

    A [Graph] object holds references to two list objects.  The heap maps
    a reference to the object it denotes, so that whether two graphs share
    a list, and whether a call changes a list that another graph holds,
    can be told. *)

Definition loc : Type := nat.

Inductive object : Type :=
  | OpList (items : list Operation)
  | GraphList (items : list loc)
  | GraphObj (_operations _join_graphs : loc).

Abbreviation heap := (gmap loc object).

Definition alloc (h : heap) (o : object) : heap * loc :=
  let l := fresh (dom h) in (<[l := o]> h, l).

Definition get_operations (h : heap) (l : loc) : result (list Operation) :=
  match h !! l with
  | Some (OpList items) => Ok items
  | _ => Raise BadReference
  end.

Definition get_graphs (h : heap) (l : loc) : result (list loc) :=
  match h !! l with
  | Some (GraphList items) => Ok items
  | _ => Raise BadReference
  end.

Definition get_graph (h : heap) (self : loc) : result (loc * loc) :=
  match h !! self with
  | Some (GraphObj ops jgs) => Ok (ops, jgs)
  | _ => Raise BadReference
  end.

(** [operations or []]: the list given unless it is absent or empty, in
    which case a new empty list. *)
Definition operations_or_new (h : heap) (operations : option loc)
  : result (heap * loc) :=
  match operations with
  | None => Ok (alloc h (OpList []))
  | Some l =>
      items ← get_operations h l;
      match items with
      | [] => Ok (alloc h (OpList []))
      | _ :: _ => Ok (h, l)
      end
  end.

Definition join_graphs_or_new (h : heap) (join_graphs : option loc)
  : result (heap * loc) :=
  match join_graphs with
  | None => Ok (alloc h (GraphList []))
  | Some l =>
      items ← get_graphs h l;
      match items with
      | [] => Ok (alloc h (GraphList []))
      | _ :: _ => Ok (h, l)
      end
  end.

(** [Graph(operations, join_graphs)] *)
Definition Graph_init (h : heap) (operations join_graphs : option loc)
  : result (heap * loc) :=
  '(h, ops) ← operations_or_new h operations;
  '(h, jgs) ← join_graphs_or_new h join_graphs;
  Ok (alloc h (GraphObj ops jgs)).

Definition graph_from_iter (h : heap) (name : string) : result (heap * loc) :=
  let '(h, ops) := alloc h (OpList [ReadIterFactory name]) in
  Graph_init h (Some ops) None.

Definition graph_from_file (h : heap) (filename : string)
    (parser : string -> result TRow) : result (heap * loc) :=
  let '(h, ops) := alloc h (OpList [Read filename parser]) in
  Graph_init h (Some ops) None.

(** [Graph(operations=[*self._operations, operation],
           join_graphs=[*self._join_graphs, *more])] *)
Definition Graph_extend (h : heap) (self : loc) (operation : Operation)
    (more : list loc) : result (heap * loc) :=
  '(ops_l, jgs_l) ← get_graph h self;
  ops ← get_operations h ops_l;
  let '(h1, new_ops) := alloc h (OpList (ops ++ [operation])) in
  jgs ← get_graphs h1 jgs_l;
  let '(h2, new_jgs) := alloc h1 (GraphList (jgs ++ more)) in
  Graph_init h2 (Some new_ops) (Some new_jgs).

Definition Graph_map (h : heap) (self : loc) (mapper : Mapper)
  : result (heap * loc) :=
  Graph_extend h self (Map mapper) [].

Definition Graph_reduce (h : heap) (self : loc) (reducer : Reducer)
    (keys : list string) : result (heap * loc) :=
  Graph_extend h self (Reduce reducer keys) [].

Definition Graph_sort (h : heap) (self : loc) (keys : list string)
  : result (heap * loc) :=
  Graph_extend h self (ExternalSort keys) [].

Definition Graph_join (h : heap) (self : loc) (joiner : Joiner)
    (join_graph : loc) (keys : list string) : result (heap * loc) :=
  Graph_extend h self (Join joiner keys) [join_graph].

(** The loop of [Graph.run] over [self._operations]; [run_graph] is the
    method [run] of the graphs in [join_graphs].  The outer [result] is
    what the call of [run] itself does (the assertions are checked while
    the pipeline is put together, before any row is asked for); the
    stream inside is what the pipeline does when it is drained. *)
Fixpoint run_operations (run_graph : loc -> result TRowsGenerator)
    (inp : inputs) (join_graphs : list loc) (operations : list Operation)
    (join_graphs_cnt : nat) (data : option TRowsGenerator)
  : result TRowsGenerator :=
  match operations with
  | [] =>
      match data with
      | Some d => Ok d
      | None => Raise AssertionError
      end
  | operation :: operations' =>
      match operation with
      | Read filename parser =>
          run_operations run_graph inp join_graphs operations' join_graphs_cnt
            (Some (Read_call filename parser inp))
      | ReadIterFactory name =>
          run_operations run_graph inp join_graphs operations' join_graphs_cnt
            (Some (ReadIterFactory_call name inp))
      | Join joiner keys =>
          match join_graphs !! join_graphs_cnt, data with
          | Some join_graph, Some d =>
              right ← run_graph join_graph;
              run_operations run_graph inp join_graphs operations'
                (S join_graphs_cnt) (Some (Join_call joiner keys d right))
          | _, _ => Raise AssertionError
          end
      | Unary call =>
          match data with
          | Some d =>
              run_operations run_graph inp join_graphs operations'
                join_graphs_cnt (Some (call d))
          | None => Raise AssertionError
          end
      end
  end.

(** The method [run] of the graph [self].  The fuel bounds the nesting of the runs of
    sub-graphs. *)
Fixpoint Graph_run (fuel : nat) (h : heap) (inp : inputs) (self : loc)
  : result TRowsGenerator :=
  match fuel with
  | O => Raise RecursionError
  | S fuel' =>
      '(ops_l, jgs_l) ← get_graph h self;
      operations ← get_operations h ops_l;
      join_graphs ← get_graphs h jgs_l;
      run_operations (Graph_run fuel' h inp) inp join_graphs operations 0 None
  end.

(** Heaps in which every reference leads to an object of the right kind. *)
Definition closed (h : heap) : Prop :=
  forall l o, h !! l = Some o ->
    match o with
    | OpList _ => True
    | GraphList items =>
        forall g, g ∈ items -> exists ops jgs, h !! g = Some (GraphObj ops jgs)
    | GraphObj ops jgs =>
        (exists items, h !! ops = Some (OpList items)) /\
        (exists items, h !! jgs = Some (GraphList items))
    end.

Definition is_graph (h : heap) (g : loc) : Prop :=
  exists ops jgs, h !! g = Some (GraphObj ops jgs).

(** The lists of a graph, read through its two references. *)
Definition graph_lists (h : heap) (g : loc)
  : result (list Operation * list loc) :=
  '(ops_l, jgs_l) ← get_graph h g;
  operations ← get_operations h ops_l;
  join_graphs ← get_graphs h jgs_l;
  Ok (operations, join_graphs).

(** *** What [TermFrequency] is to compute

    [ratio a b] is the float [a / b]; [occurrences w ws] counts the
    elements of [ws] equal to [w]; [tf_value ws w] is the frequency that
    the reducer gives to the word [w] in a group whose rows hold the words
    [ws]. *)




(** *** What [Split] yields, read off the subject

    [tokens_in in_space w s]: the tokens that the loop of [Split] yields
    from the point where [w] is the piece read since the last match and
    [s] is the rest of the subject; [in_space] tells that a run of
    whitespace has begun after [w]. *)




(** *** The row merge, as the specification words it

    [common_columns] is the set C of the specification;
    [merge_as_specified] says of a merged row what the specification
    promises for all rows that have the key columns. *)

Definition common_columns (keys : list string) (row_a row_b : TRow)
  : gset string :=
  (dom row_a ∩ dom row_b) ∖ list_to_set keys.




(** The iteration over a set goes through its members, each once. *)
Definition iterates_members : Prop :=
  forall X : gset string, set_iter X ≡ₚ elements X.

(** *** The lexicographic order on tuples of strings

    [a < b] on strings is [String.ltb a b]: the order of the code points.
    [lex_lt] is the order of Python on tuples of strings. *)

Inductive lex_lt : list string -> list string -> Prop :=
  | lex_lt_nil (y : string) (ys : list string) : lex_lt [] (y :: ys)
  | lex_lt_head (x y : string) (xs ys : list string) :
      String.ltb x y = true -> lex_lt (x :: xs) (y :: ys)
  | lex_lt_tail (x : string) (xs ys : list string) :
      lex_lt xs ys -> lex_lt (x :: xs) (x :: ys).

(** Two inputs sorted by the integer in ["id"]. *)
Definition rows_2_10 : list TRow :=
  [ {[ "id" := VInt 2 ]}; {[ "id" := VInt 10 ]} ].
Definition rows_10 : list TRow := [ {[ "id" := VInt 10 ]} ].

(** *** What a chaining call is to do

    [extends_graph h self operation more r]: the call that returned [r]
    in the heap [h] made a new graph object with new lists, holding the
    operations of [self] followed by [operation] and its join graphs
    followed by [more]; it changed no object of [h], so that [self] has
    the lists it had and runs as it did. *)

Definition extends_graph (h : heap) (self : loc) (operation : Operation)
    (more : list loc) (r : result (heap * loc)) : Prop :=
  exists (h' : heap) (g' : loc) (ops : list Operation) (jgs : list loc)
         (ops_l' jgs_l' : loc),
    r = Ok (h', g') /\
    graph_lists h self = Ok (ops, jgs) /\
    (g' ∉ dom h) /\
    h ⊆ h' /\
    h' !! g' = Some (GraphObj ops_l' jgs_l') /\
    (ops_l' ∉ dom h) /\ (jgs_l' ∉ dom h) /\
    graph_lists h' g' = Ok (ops ++ [operation], jgs ++ more) /\
    graph_lists h' self = Ok (ops, jgs) /\
    closed h' /\
    forall fuel inp, Graph_run fuel h' inp self = Graph_run fuel h inp self.

(** A heap with one graph, at 2, that reads the input ["docs"]. *)
Definition heap_docs : heap :=
  <[2%nat := GraphObj 0%nat 1%nat]>
    (<[1%nat := GraphList []]>
       (<[0%nat := OpList [ReadIterFactory "docs"]]> ∅)).

(** A heap with one graph, at 2, whose second operation is a source. *)
Definition heap_two_sources : heap :=
  <[2%nat := GraphObj 0%nat 1%nat]>
    (<[1%nat := GraphList []]>
       (<[0%nat := OpList [ReadIterFactory "a"; ReadIterFactory "b"]]> ∅)).

Definition inputs_a_b : inputs :=
  {| files := ∅;
     kwargs := {[ "a" := Ok [ ({[ "x" := VInt 1 ]} : TRow) ];
                  "b" := Ok [ ({[ "y" := VInt 2 ]} : TRow) ] ]} |}.

(** *** Rows and groups for the examples *)


Definition person : TRow :=
  {[ "id" := VInt 1; "age" := VInt 25; "note" := VStr "right" ]}.


Definition row_x : TRow := {[ "x" := VInt 3 ]}.

Definition left_group : list TRow :=
  [ {[ "k" := VInt 1; "x" := VInt 1 ]}; {[ "k" := VInt 1; "x" := VInt 2 ]} ].
Definition right_group : list TRow :=
  [ {[ "k" := VInt 1; "y" := VInt 1 ]}; {[ "k" := VInt 1; "y" := VInt 2 ]};
    {[ "k" := VInt 1; "y" := VInt 3 ]} ].

(** A group of five rows of the document 1: the word of the first row
    occurs three times. *)
Definition word_row (w : string) (n : Z) : TRow :=
  {[ "doc" := VInt 1; "word" := VStr w; "n" := VInt n ]}.
Definition doc_group : list TRow :=
  [ word_row "a" 1; word_row "a" 2; word_row "a" 3; word_row "b" 4;
    word_row "c" 5 ].

Definition row_leading_space : TRow := {[ "text" := VStr " a" ]}.



Definition cell_of (i : nat) (x : string) (r : TRowsGenerator) : option value :=
  match r with
  | Ok rows => rows !! i ≫= fun row : TRow => row !! x
  | Raise _ => None
  end.

(** ** The mappers [FilterPunctuation] and [Division] *)




Definition is_zero (f : spec_float) : bool :=
  match f with
  | S754_zero _ => true
  | _ => false
  end.

(** [x / y] on floats: [ZeroDivisionError] for a zero divisor, the IEEE
    quotient otherwise (an overflow gives an infinity). *)
Definition float_truediv (x y : spec_float) : result spec_float :=
  if is_zero y then Raise ZeroDivisionError
  else Ok (SFdiv prec emax x y).

(** [a / b]: two integers give the correctly rounded quotient; with a
    float on either side the integer is converted first. *)
Definition py_truediv (a b : value) : result value :=
  match a, b with
  | VInt x, VInt y => q ← int_truediv x y; Ok (VFloat q)
  | VFloat x, VFloat y => q ← float_truediv x y; Ok (VFloat q)
  | VInt x, VFloat y =>
      fx ← float_of_int x; q ← float_truediv fx y; Ok (VFloat q)
  | VFloat x, VInt y =>
      fy ← float_of_int y; q ← float_truediv x fy; Ok (VFloat q)
  | _, _ => Raise TypeError
  end.

Definition Division (column_num column_den result_column : string) : Mapper :=
  fun row =>
    match row !! column_num, row !! column_den with
    | Some num, Some den =>
        quotient ← py_truediv num den;
        Ok [<[result_column := quotient]> row]
    | _, _ => Ok [row]
    end.

(** A number: a value that [/] accepts. *)
Definition is_number (v : value) : Prop :=
  match v with
  | VStr _ => False
  | _ => True
  end.

(** The values that are zero: the integer 0 and the floats 0.0 and -0.0. *)
Definition is_zero_value (v : value) : Prop :=
  match v with
  | VInt n => n = 0
  | VFloat f => is_zero f = true
  | VStr _ => False
  end.

(** *** What [groupby] returns

    [keyed_group keys g]: the group [g] is not empty, its key is the key
    of its first row, and the key of every other row equals it;
    [keys_change gs]: the key of a group is not equal to the key of the
    group that follows it. *)

Definition keyed_group (keys : list string) (g : list value * list TRow)
  : Prop :=
  exists first others,
    g.2 = first :: others /\ key_of keys first = Ok g.1 /\
    Forall (fun r => exists k, key_of keys r = Ok k /\ tuple_eqb g.1 k = true)
           others.

Fixpoint keys_change (gs : list (list value * list TRow)) : Prop :=
  match gs with
  | g :: gs' =>
      match gs' with
      | g' :: _ => tuple_eqb g.1 g'.1 = false
      | [] => True
      end /\ keys_change gs'
  | [] => True
  end.

(** Every row has every key column. *)
Definition has_keys (keys : list string) (rows : list TRow) : Prop :=
  forall row k, row ∈ rows -> k ∈ keys -> is_Some (row !! k).

(** *** Putting a split string back together

    [spans_ok start matches len]: the matches lie one after the other
    between [start] and [len], as [re.finditer] returns them;
    [weave s tokens matches]: the tokens in order, each followed by the
    piece of [s] that the match after it covers. *)

Fixpoint spans_ok (start : nat) (matches : list (nat * nat)) (len : nat)
  : Prop :=
  match matches with
  | [] => (start <= len)%nat
  | (m_start, m_end) :: matches' =>
      (start <= m_start)%nat /\ (m_start <= m_end)%nat /\
      spans_ok m_end matches' len
  end.

Fixpoint weave (s : string) (tokens : list string) (matches : list (nat * nat))
  : string :=
  match tokens with
  | [] => ""
  | token :: tokens' =>
      match matches with
      | [] => token
      | (m_start, m_end) :: matches' =>
          token +:+ slice s m_start m_end +:+ weave s tokens' matches'
      end
  end.

(** *** Inputs in the order that [Join] walks them

    [key_sorted groups]: the keys of the groups go up strictly in the
    order of [Join._is_less]; [exact_keys groups]: the keys hold integers
    and strings only.  [matching_group group_key_a groups_b] is the first
    group of the right input whose key equals [group_key_a];
    [inner_join_of] and [left_join_of] call the joiner group by group of
    the left input, on the matching group of the right input or, for the
    left join, on no rows when there is none. *)

Fixpoint key_sorted (groups : list (list value * list TRow)) : Prop :=
  match groups with
  | [] => True
  | g :: groups' =>
      Forall (fun g' : list value * list TRow => is_less_zip g.1 g'.1 = true)
             groups' /\
      key_sorted groups'
  end.

Definition exact_keys (groups : list (list value * list TRow)) : Prop :=
  Forall (fun g : list value * list TRow => Forall exact g.1) groups.

Definition matching_group (group_key_a : list value)
    (groups_b : list (list value * list TRow))
  : option (list value * list TRow) :=
  List.find (fun g : list value * list TRow => tuple_eqb group_key_a g.1)
            groups_b.

Definition inner_join_of (joiner : Joiner) (keys : list string)
    (groups_a groups_b : list (list value * list TRow)) : TRowsGenerator :=
  concatM (fun ga : list value * list TRow =>
             match matching_group ga.1 groups_b with
             | Some gb => Joiner_call joiner keys ga.2 gb.2
             | None => Ok []
             end)
          groups_a.

Definition left_join_of (joiner : Joiner) (keys : list string)
    (groups_a groups_b : list (list value * list TRow)) : TRowsGenerator :=
  concatM (fun ga : list value * list TRow =>
             match matching_group ga.1 groups_b with
             | Some gb => Joiner_call joiner keys ga.2 gb.2
             | None => Joiner_call joiner keys ga.2 []
             end)
          groups_a.

(** The facts about the two inputs on which the walk relies: keys of
    [n] components, exact, going up strictly. *)
Definition walk_inputs (n : nat)
    (groups_a groups_b : list (list value * list TRow)) : Prop :=
  (Forall (fun g : list value * list TRow => length g.1 = n) groups_a /\
   exact_keys groups_a /\ key_sorted groups_a) /\
  (Forall (fun g : list value * list TRow => length g.1 = n) groups_b /\
   exact_keys groups_b /\ key_sorted groups_b).

(** The right join goes by the groups of the right input: each is joined
    with the group of the left input that has an equal key, or with no
    rows. *)
Definition right_join_of (joiner : Joiner) (keys : list string)
    (groups_a groups_b : list (list value * list TRow)) : TRowsGenerator :=
  concatM (fun gb : list value * list TRow =>
             match List.find (fun ga : list value * list TRow =>
                                tuple_eqb ga.1 gb.1) groups_a with
             | Some ga => Joiner_call joiner keys ga.2 gb.2
             | None => Joiner_call joiner keys [] gb.2
             end)
          groups_b.

(** The outer join goes by the keys of both inputs.  [rows_of key groups]
    is the rows of the group with the key [key], none when there is no
    such group; [above key0 key]: the key [key] is neither below [key0]
    nor equal to it; [keys_ordered ks]: every key of the list is above the
    keys before it, so that the list goes up and repeats no key. *)
Definition rows_of (key : list value)
    (groups : list (list value * list TRow)) : list TRow :=
  match matching_group key groups with
  | Some g => g.2
  | None => []
  end.

Definition above (key0 key : list value) : Prop :=
  is_less_zip key key0 = false /\ tuple_eqb key key0 = false.

Fixpoint keys_ordered (ks : list (list value)) : Prop :=
  match ks with
  | [] => True
  | k :: ks' => Forall (above k) ks' /\ keys_ordered ks'
  end.

Definition outer_join_of (joiner : Joiner) (keys : list string)
    (groups_a groups_b : list (list value * list TRow))
    (ks : list (list value)) : TRowsGenerator :=
  concatM (fun k => Joiner_call joiner keys (rows_of k groups_a)
                                (rows_of k groups_b))
          ks.

(** *** Graphs as the constructors and the chaining methods make them

    [count_joins operations] is the number of [Join] operations in a list.
    [well_formed depth h g]: the first operation of the graph [g] is a
    source, it has as many join graphs as [Join] operations, and its join
    graphs are well formed in their turn, with less than [depth] graphs
    nested. *)

Fixpoint count_joins (operations : list Operation) : nat :=
  match operations with
  | [] => 0
  | Join _ _ :: operations' => S (count_joins operations')
  | _ :: operations' => count_joins operations'
  end.

Fixpoint well_formed (depth : nat) (h : heap) (g : loc) : Prop :=
  match depth with
  | O => False
  | S depth' =>
      exists source operations join_graphs,
        graph_lists h g = Ok (source :: operations, join_graphs) /\
        is_source source = true /\
        length join_graphs = count_joins operations /\
        Forall (well_formed depth' h) join_graphs
  end.

(** *** Rows, groups and a condition for the examples of the mappers and
    of the joins on sorted inputs *)

Definition row_a_b : TRow := {[ "a" := VInt 1; "b" := VInt 2 ]}.

Definition row_one_over_zero : TRow := {[ "num" := VInt 1; "den" := VInt 0 ]}.

Definition left_a : TRow := {[ "id" := VStr "a"; "x" := VInt 1 ]}.
Definition left_b : TRow := {[ "id" := VStr "b"; "x" := VInt 2 ]}.
Definition right_b : TRow := {[ "id" := VStr "b"; "y" := VInt 3 ]}.
Definition right_c : TRow := {[ "id" := VStr "c"; "y" := VInt 4 ]}.

Definition sorted_left : list TRow := [left_a; left_b].
Definition sorted_right : list TRow := [right_b; right_c].

Definition sorted_left_groups : list (list value * list TRow) :=
  [ ([VStr "a"], [left_a]); ([VStr "b"], [left_b]) ].
Definition sorted_right_groups : list (list value * list TRow) :=
  [ ([VStr "b"], [right_b]); ([VStr "c"], [right_c]) ].

(** * Properties *)

(** ** The error monad *)

Lemma bind_Ok {A B : Type} (m : result A) (f : A -> result B) (b : B) :
  m ≫= f = Ok b <-> exists a, m = Ok a /\ f a = Ok b.
Proof.
  destruct m as [a|e]; simpl; split.
  - eauto.
  - intros (a' & [= ->] & H). exact H.
  - discriminate.
  - intros (a' & [=] & _).
Qed.

Lemma getitem_Ok {V : Type} (d : gmap string V) (k : string) (v : V) :
  getitem d k = Ok v <-> d !! k = Some v.
Proof.
  unfold getitem. destruct (d !! k); split; intros H; congruence.
Qed.

Lemma getitem_Some {V : Type} (d : gmap string V) (k : string) (v : V) :
  d !! k = Some v -> getitem d k = Ok v.
Proof. apply getitem_Ok. Qed.

Lemma mapM_Ok {A B : Type} (f : A -> result B) (l : list A) (bs : list B) :
  mapM f l = Ok bs <-> Forall2 (fun a b => f a = Ok b) l bs.
Proof.
  revert bs. induction l as [|a l IH]; intros bs; simpl.
  - split.
    + intros [= <-]. constructor.
    + intros H. inversion H. reflexivity.
  - rewrite bind_Ok. split.
    + intros (b & Hb & H). apply bind_Ok in H as (bs' & Hbs & [= <-]).
      constructor; [exact Hb | apply IH, Hbs].
    + intros H. inversion H as [|? b ? bs' Hb Hbs]; subst.
      exists b. split; [exact Hb|]. apply IH in Hbs. rewrite Hbs. reflexivity.
Qed.

Lemma mapM_total {A B : Type} (f : A -> result B) (g : A -> B) (l : list A) :
  (forall a, a ∈ l -> f a = Ok (g a)) -> mapM f l = Ok (map g l).
Proof.
  induction l as [|a l IH]; intros H; simpl; [reflexivity|].
  rewrite H by left. simpl. rewrite IH; [reflexivity|].
  intros a' Ha'. apply H. right. exact Ha'.
Qed.

Lemma concatM_total {A B : Type} (f : A -> result (list B)) (g : A -> list B)
    (l : list A) :
  (forall a, a ∈ l -> f a = Ok (g a)) -> concatM f l = Ok (concat (map g l)).
Proof.
  induction l as [|a l IH]; intros H; simpl; [reflexivity|].
  rewrite H by left. simpl. rewrite IH; [reflexivity|].
  intros a' Ha'. apply H. right. exact Ha'.
Qed.

(** ** Keys of rows and groups *)

Lemma key_of_Ok (keys : list string) (row : TRow) (key : list value) :
  key_of keys row = Ok key <-> Forall2 (fun k v => row !! k = Some v) keys key.
Proof.
  unfold key_of. rewrite mapM_Ok. split; intros H.
  - eapply Forall2_impl; [exact H|]. intros k v. apply getitem_Ok.
  - eapply Forall2_impl; [exact H|]. intros k v. apply getitem_Ok.
Qed.

Lemma key_of_is_Some (keys : list string) (row : TRow) (key : list value) :
  key_of keys row = Ok key -> forall k, k ∈ keys -> is_Some (row !! k).
Proof.
  rewrite key_of_Ok. induction 1 as [|k v ks vs Hk _ IH]; intros c Hc.
  - inversion Hc.
  - apply list_elem_of_In in Hc. destruct Hc as [<-|Hc]; [eauto|].
    apply IH, list_elem_of_In, Hc.
Qed.

(** Rows whose keys are equal as tuples agree, up to [==], on every key
    column. *)
Lemma tuple_eqb_columns (keys : list string) (row row' : TRow)
    (key key' : list value) :
  key_of keys row = Ok key -> key_of keys row' = Ok key' ->
  tuple_eqb key key' = true ->
  forall k, k ∈ keys ->
    exists v w, row !! k = Some v /\ row' !! k = Some w /\ py_eqb v w = true.
Proof.
  rewrite !key_of_Ok. intros H. revert key'.
  induction H as [|k v ks vs Hk _ IH]; intros key' H' Heq c Hc.
  - inversion Hc.
  - inversion H' as [|? w ? ws Hk' Hks']; subst. simpl in Heq.
    apply andb_true_iff in Heq as [Hvw Heq].
    apply list_elem_of_In in Hc. destruct Hc as [<-|Hc].
    + exists v, w. auto.
    + apply (IH ws Hks' Heq). apply list_elem_of_In, Hc.
Qed.

(** [groupby] cuts the rows into groups: every group it makes is a group in
    the sense of [is_group], and the groups, put end to end, are the rows. *)
Lemma groupby_go_groups (keys : list string) (rows : list TRow) :
  forall (tgtkey : list value) (acc : list TRow)
         (gs : list (list value * list TRow)),
    (exists first others,
       rev acc = first :: others /\ key_of keys first = Ok tgtkey /\
       Forall (fun r => exists k, key_of keys r = Ok k /\
                                  tuple_eqb tgtkey k = true) others) ->
    groupby_go keys tgtkey acc rows = Ok gs ->
    Forall (fun g : list value * list TRow => is_group keys g.2) gs /\
    concat (map snd gs) = rev acc ++ rows.
Proof.
  induction rows as [|row rows IH]; intros tgtkey acc gs Hacc Hgo;
    cbn [groupby_go] in Hgo.
  - injection Hgo as <-. destruct Hacc as (first & others & E & Hk & Hall).
    split.
    + constructor; [|constructor]. cbn [snd]. rewrite E.
      exists tgtkey. split; assumption.
    + cbn. rewrite !app_nil_r. reflexivity.
  - apply bind_Ok in Hgo as (currkey & Hcur & Hgo).
    destruct (tuple_eqb tgtkey currkey) eqn:Eq.
    + destruct (IH tgtkey (row :: acc) gs) as [H1 H2]; [|exact Hgo|].
      * destruct Hacc as (first & others & E & Hk & Hall).
        exists first, (others ++ [row]). cbn [rev]. rewrite E.
        split; [reflexivity|]. split; [exact Hk|].
        apply Forall_app. split; [exact Hall|].
        constructor; [|constructor]. exists currkey. split; assumption.
      * split; [exact H1|]. rewrite H2. cbn [rev].
        rewrite <- app_assoc. reflexivity.
    + apply bind_Ok in Hgo as (gs' & Hgo & [= <-]).
      destruct (IH currkey [row] gs') as [H1 H2]; [|exact Hgo|].
      * exists row, []. split; [reflexivity|]. split; [exact Hcur|constructor].
      * destruct Hacc as (first & others & E & Hk & Hall). split.
        -- constructor; [|exact H1]. cbn [snd]. rewrite E.
           exists tgtkey. split; assumption.
        -- cbn [map snd concat]. rewrite H2. reflexivity.
Qed.

Lemma groupby_groups (keys : list string) (rows : list TRow)
    (gs : list (list value * list TRow)) :
  groupby keys rows = Ok gs ->
  Forall (fun g : list value * list TRow => is_group keys g.2) gs /\
  concat (map snd gs) = rows.
Proof.
  destruct rows as [|row rows]; cbn [groupby].
  - intros [= <-]. split; [constructor | reflexivity].
  - intros H. apply bind_Ok in H as (currkey & Hcur & Hgo).
    apply (groupby_go_groups keys rows currkey [row] gs); [|exact Hgo].
    exists row, []. split; [reflexivity|]. split; [exact Hcur|constructor].
Qed.

(** The loop that copies columns of [row] into a dictionary. *)
Lemma copy_columns (row : TRow) (cols : list string) (d0 : TRow) :
  (forall c, c ∈ cols -> is_Some (row !! c)) ->
  exists d,
    foldM (fun (d : TRow) c => v ← getitem row c; Ok (<[c := v]> d)) d0 cols
      = Ok d /\
    forall c, d !! c = if decide (c ∈ cols) then row !! c else d0 !! c.
Proof.
  revert d0. induction cols as [|c cols IH]; intros d0 H; simpl.
  - exists d0. split; [reflexivity|]. intros c.
    destruct (decide (c ∈ [])) as [Hc|]; [inversion Hc | reflexivity].
  - destruct (H c) as [v Hv]; [left|].
    rewrite (getitem_Some _ _ _ Hv). simpl.
    destruct (IH (<[c := v]> d0)) as (d & Hd & Hl).
    { intros c' Hc'. apply H. right. exact Hc'. }
    exists d. split; [exact Hd|]. intros c'. rewrite Hl.
    destruct (decide (c' ∈ cols)) as [Hin|Hnin].
    + rewrite decide_True by (right; exact Hin). reflexivity.
    + destruct (decide (c' = c)) as [->|Hne].
      * rewrite decide_True by left. rewrite lookup_insert_eq. congruence.
      * rewrite lookup_insert_ne by congruence.
        rewrite decide_False; [reflexivity|].
        intros Hc'. apply list_elem_of_In in Hc'. destruct Hc' as [?|Hc'].
        -- congruence.
        -- apply Hnin, list_elem_of_In, Hc'.
Qed.

Lemma key_dict_spec (group_key : list string) (row : TRow) :
  (forall k, k ∈ group_key -> is_Some (row !! k)) ->
  exists d, key_dict group_key row = Ok d /\
    dom d = list_to_set group_key /\
    forall k, k ∈ group_key -> d !! k = row !! k.
Proof.
  intros H. destruct (copy_columns row group_key ∅ H) as (d & Hd & Hl).
  exists d. split; [exact Hd|]. split.
  - apply set_eq. intros c. rewrite elem_of_dom, elem_of_list_to_set, Hl.
    destruct (decide (c ∈ group_key)) as [Hc|Hc].
    + split; [intros _; exact Hc | intros _; apply H, Hc].
    + rewrite lookup_empty. split; [intros [? [=]] | intros ?; contradiction].
  - intros k Hk. rewrite Hl. rewrite decide_True by exact Hk. reflexivity.
Qed.

(** ** [Count] *)

Lemma count_rows_length (rows : list TRow) :
  count_rows rows = Z.of_nat (length rows).
Proof.
  unfold count_rows.
  cut (forall acc, fold_left (fun a (_ : TRow) => a + 1) rows acc
                   = acc + Z.of_nat (length rows)).
  { intros H. rewrite H. lia. }
  induction rows as [|r rows IH]; intros acc; simpl length; simpl fold_left.
  - lia.
  - rewrite IH. lia.
Qed.

(** C4. For a non-empty group, [Count(column)] yields one row: the group-key
    columns and [column]; [column] holds the number of rows of the group,
    and every other key column holds the key value of the group, that of
    its first row, which every row of the group equals. *)
Theorem Count_yields_group_size (column : string) (group_key : list string)
    (row : TRow) (rest : list TRow) :
  is_group group_key (row :: rest) ->
  exists reduced_row,
    Count column group_key (row :: rest) = Ok [reduced_row] /\
    dom reduced_row = list_to_set group_key ∪ {[column]} /\
    reduced_row !! column = Some (VInt (Z.of_nat (length (row :: rest)))) /\
    forall k, k ∈ group_key -> k <> column ->
      reduced_row !! k = row !! k /\
      forall row', row' ∈ rest ->
        exists v w, reduced_row !! k = Some v /\ row' !! k = Some w /\
                    py_eqb v w = true.
Proof.
  intros (key & Hkey & Hrest).
  destruct (key_dict_spec group_key row (key_of_is_Some _ _ _ Hkey))
    as (d & Hd & Hdom & Hl).
  exists (<[column := VInt (Z.of_nat (length (row :: rest)))]> d).
  split; [|split; [|split]].
  - unfold Count. cbn [length for_iter]. rewrite Hd. cbn [mbind result_bind].
    rewrite count_rows_length, app_nil_r, Nat2Z.inj_succ.
    replace (1 + Z.of_nat (length rest)) with (Z.succ (Z.of_nat (length rest)))
      by lia.
    reflexivity.
  - rewrite dom_insert_L, Hdom. apply (comm_L _).
  - apply lookup_insert_eq.
  - intros k Hk Hne. rewrite lookup_insert_ne by congruence. rewrite Hl by exact Hk.
    split; [reflexivity|]. intros row' Hrow'.
    rewrite Forall_forall in Hrest.
    destruct (Hrest row' Hrow') as (k' & Hk' & Heq).
    exact (tuple_eqb_columns _ _ _ _ _ Hkey Hk' Heq k Hk).
Qed.

(** ** [Sum] *)

Lemma sum_column_ints (column : string) (rows : list TRow) (zs : list Z) :
  Forall2 (fun r n => r !! column = Some (VInt n)) rows zs ->
  forall acc,
    foldM (fun acc row => v ← getitem row column; py_add acc v) (VInt acc) rows
    = Ok (VInt (acc + foldr Z.add 0 zs)).
Proof.
  induction 1 as [|r n rows zs Hr _ IH]; intros acc; simpl.
  - rewrite Z.add_0_r. reflexivity.
  - rewrite (getitem_Some _ _ _ Hr). simpl. rewrite IH.
    rewrite Z.add_assoc. reflexivity.
Qed.


(** ** Integer division into floats never overflows below one *)


Lemma Zdigits2_nonneg (m : Z) : 0 <= Zdigits2 m.
Proof. destruct m; simpl; lia. Qed.














(** ** [TermFrequency] *)


Lemma py_eqb_exact (a b : value) :
  exact a -> exact b -> py_eqb a b = true <-> a = b.
Proof.
  destruct a as [x| |s], b as [y| |t]; simpl; try contradiction; intros _ _.
  - rewrite Z.eqb_eq. split; congruence.
  - split; [discriminate | congruence].
  - split; [discriminate | congruence].
  - rewrite String.eqb_eq. split; congruence.
Qed.

Lemma py_eqb_exact_refl (a : value) : exact a -> py_eqb a a = true.
Proof. intros H. apply py_eqb_exact; auto. Qed.


















(** ** [Split] *)



Lemma append_nil_r (a : string) : a +:+ "" = a.
Proof.
  induction a as [|x a IH]; [reflexivity|].
  change (String x (a +:+ "") = String x a). rewrite IH. reflexivity.
Qed.

Lemma substring_prefix (w x : string) :
  substring 0 (String.length w) (w +:+ x) = w.
Proof.
  induction w as [|c w IH].
  - destruct x; reflexivity.
  - change (String c (substring 0 (String.length w) (w +:+ x)) = String c w).
    rewrite IH. reflexivity.
Qed.









(** ** The row merge *)


Lemma set_iter_elem (Hiter : iterates_members) (X : gset string) (x : string) :
  x ∈ set_iter X <-> x ∈ X.
Proof. rewrite (Hiter X). apply elem_of_elements. Qed.

(** The loop that writes the two suffixed columns of every common column. *)
Lemma suffix_loop (sa sb : string) (row_a row_b : TRow) (cols : list string) :
  (forall c, c ∈ cols -> is_Some (row_a !! c) /\ is_Some (row_b !! c)) ->
  forall m0 : TRow,
  exists m : TRow,
    foldM (fun (m : TRow) col =>
             va ← getitem row_a col;
             vb ← getitem row_b col;
             Ok (<[col +:+ sb := vb]> (<[col +:+ sa := va]> m)))
          m0 cols = Ok m /\
    (forall x, x ∈ dom m <->
       x ∈ dom m0 \/ exists c, c ∈ cols /\ (x = c +:+ sa \/ x = c +:+ sb)) /\
    (forall x, (forall c, c ∈ cols -> x <> c +:+ sa /\ x <> c +:+ sb) ->
       m !! x = m0 !! x) /\
    (forall x v,
       (forall c, c ∈ cols -> c +:+ sb = x -> row_b !! c = Some v) ->
       (forall c, c ∈ cols -> c +:+ sa = x -> c +:+ sb <> x ->
          row_a !! c = Some v) ->
       (m0 !! x = Some v \/ exists c, c ∈ cols /\ (c +:+ sa = x \/ c +:+ sb = x)) ->
       m !! x = Some v).
Proof.
  induction cols as [|c cols IH]; intros Hcols m0.
  - exists m0. split; [reflexivity|]. split; [|split].
    + intros x. split; [auto|]. intros [H|(c & Hc & _)]; [exact H|inversion Hc].
    + reflexivity.
    + intros x v _ _ [H|(c & Hc & _)]; [exact H|inversion Hc].
  - destruct (Hcols c) as [[va Hva] [vb Hvb]]; [left|].
    destruct (IH (fun c' Hc' => Hcols c' (list_elem_of_further _ _ _ Hc'))
                 (<[c +:+ sb := vb]> (<[c +:+ sa := va]> m0)))
      as (m & Hm & Hdom & Hkeep & Hval).
    exists m. split; [|split; [|split]].
    + cbn [foldM]. rewrite (getitem_Some _ _ _ Hva). cbn [mbind result_bind].
      rewrite (getitem_Some _ _ _ Hvb). exact Hm.
    + intros x. rewrite Hdom, !dom_insert, !elem_of_union, !elem_of_singleton.
      split.
      * intros [[->|[->|H]]|(c' & Hc' & H)].
        -- right. exists c. split; [left|auto].
        -- right. exists c. split; [left|auto].
        -- left. exact H.
        -- right. exists c'. split; [right; exact Hc'|exact H].
      * intros [H|(c' & Hc' & H)]; [auto|].
        apply elem_of_cons in Hc' as [->|Hc'].
        -- left. destruct H as [->| ->]; auto.
        -- right. exists c'. auto.
    + intros x Hx. rewrite Hkeep.
      * destruct (Hx c) as [H1 H2]; [left|].
        rewrite !lookup_insert_ne by congruence. reflexivity.
      * intros c' Hc'. apply Hx. right. exact Hc'.
    + intros x v Hb Ha Hex. apply Hval.
      * intros c' Hc'. apply Hb. right. exact Hc'.
      * intros c' Hc'. apply Ha. right. exact Hc'.
      * destruct (decide (c +:+ sb = x)) as [E|E].
        { left. rewrite E, lookup_insert_eq. f_equal.
          specialize (Hb c ltac:(left) E). congruence. }
        rewrite lookup_insert_ne by exact E.
        destruct (decide (c +:+ sa = x)) as [E'|E'].
        { left. rewrite E', lookup_insert_eq. f_equal.
          specialize (Ha c ltac:(left) E' E). congruence. }
        rewrite lookup_insert_ne by exact E'.
        destruct Hex as [H|(c' & Hc' & H)]; [left; exact H|].
        apply elem_of_cons in Hc' as [->|Hc'].
        -- destruct H; contradiction.
        -- right. exists c'. auto.
Qed.

(** The merged row, column by column: the last loop that writes a name
    decides its value. *)
Lemma merge_rows_lookup (Hiter : iterates_members) (sa sb : string)
    (keys : list string) (row_a row_b : TRow) :
  (forall k, k ∈ keys -> is_Some (row_a !! k)) ->
  exists merged m2 : TRow,
    merge_rows sa sb keys row_a row_b = Ok merged /\
    (forall x, merged !! x =
       if decide (x ∈ dom row_b ∖ common_columns keys row_a row_b)
       then row_b !! x
       else if decide (x ∈ dom row_a ∖ common_columns keys row_a row_b)
            then row_a !! x
            else m2 !! x) /\
    (forall x, x ∈ dom m2 <->
       x ∈ keys \/
       exists c, c ∈ common_columns keys row_a row_b /\
                 (x = c +:+ sa \/ x = c +:+ sb)) /\
    (forall x v,
       (forall c, c ∈ common_columns keys row_a row_b -> c +:+ sb = x ->
          row_b !! c = Some v) ->
       (forall c, c ∈ common_columns keys row_a row_b -> c +:+ sa = x ->
          c +:+ sb <> x -> row_a !! c = Some v) ->
       (exists c, c ∈ common_columns keys row_a row_b /\
                  (c +:+ sa = x \/ c +:+ sb = x)) ->
       m2 !! x = Some v).
Proof.
  intros Hkeys. unfold merge_rows.
  fold (common_columns keys row_a row_b).
  set (C := common_columns keys row_a row_b).
  assert (HC : forall c, c ∈ C -> is_Some (row_a !! c) /\ is_Some (row_b !! c)).
  { intros c Hc. unfold C, common_columns in Hc.
    apply elem_of_difference in Hc as [Hc _].
    apply elem_of_intersection in Hc as [Ha Hb].
    split; apply elem_of_dom; assumption. }
  destruct (copy_columns row_a keys ∅ Hkeys) as (m1 & Hm1 & Hl1).
  destruct (suffix_loop sa sb row_a row_b (set_iter C)
              (fun c Hc => HC c (proj1 (set_iter_elem Hiter C c) Hc)) m1)
    as (m2 & Hm2 & Hdom2 & _ & Hval2).
  destruct (copy_columns row_a (set_iter (dom row_a ∖ C)) m2) as (m3 & Hm3 & Hl3).
  { intros c Hc. apply (set_iter_elem Hiter) in Hc.
    apply elem_of_difference in Hc as [Hc _]. apply elem_of_dom, Hc. }
  destruct (copy_columns row_b (set_iter (dom row_b ∖ C)) m3) as (m4 & Hm4 & Hl4).
  { intros c Hc. apply (set_iter_elem Hiter) in Hc.
    apply elem_of_difference in Hc as [Hc _]. apply elem_of_dom, Hc. }
  exists m4, m2. split; [|split; [|split]].
  - rewrite Hm1. cbn [mbind result_bind]. rewrite Hm2. cbn [mbind result_bind].
    rewrite Hm3. cbn [mbind result_bind]. exact Hm4.
  - intros x. rewrite Hl4, Hl3.
    destruct (decide (x ∈ set_iter (dom row_b ∖ C))) as [H|H];
      rewrite (set_iter_elem Hiter) in H.
    + rewrite decide_True by exact H. reflexivity.
    + rewrite (decide_False (P := x ∈ dom row_b ∖ C)) by exact H.
      destruct (decide (x ∈ set_iter (dom row_a ∖ C))) as [H'|H'];
        rewrite (set_iter_elem Hiter) in H'.
      * rewrite decide_True by exact H'. reflexivity.
      * rewrite (decide_False (P := x ∈ dom row_a ∖ C)) by exact H'. reflexivity.
  - intros x. rewrite Hdom2. rewrite elem_of_dom, Hl1.
    destruct (decide (x ∈ keys)) as [Hk|Hk].
    + split; intros _; left; [exact Hk | apply Hkeys, Hk].
    + rewrite lookup_empty. split.
      * intros [[? [=]]|(c & Hc & H)]. right. exists c.
        split; [apply (set_iter_elem Hiter), Hc | exact H].
      * intros [?|(c & Hc & H)]; [contradiction|]. right. exists c.
        split; [apply (set_iter_elem Hiter), Hc | exact H].
  - intros x v Hb Ha (c & Hc & H). apply Hval2.
    + intros c' Hc'. apply Hb, (set_iter_elem Hiter), Hc'.
    + intros c' Hc'. apply Ha, (set_iter_elem Hiter), Hc'.
    + right. exists c. split; [apply (set_iter_elem Hiter), Hc | exact H].
Qed.


(** ** The joiners *)

Lemma mapM_app {A B : Type} (f : A -> result B) (l1 l2 : list A) :
  mapM f (l1 ++ l2) = bs1 ← mapM f l1; bs2 ← mapM f l2; Ok (bs1 ++ bs2).
Proof.
  induction l1 as [|a l1 IH]; cbn [mapM app].
  - cbn [mbind result_bind]. destruct (mapM f l2); reflexivity.
  - destruct (f a) as [b|e]; cbn [mbind result_bind]; [|reflexivity].
    rewrite IH. destruct (mapM f l1) as [bs1|e]; cbn [mbind result_bind];
      [|reflexivity].
    destruct (mapM f l2); reflexivity.
Qed.

Lemma mapM_map {A B C : Type} (f : B -> result C) (g : A -> B) (l : list A) :
  mapM f (map g l) = mapM (fun a => f (g a)) l.
Proof.
  induction l as [|a l IH]; cbn [mapM map]; [reflexivity|].
  rewrite IH. reflexivity.
Qed.

(** The two nested loops go through the pairs of the product, the rows of
    the outer loop varying slowest. *)
Lemma nested_loops {A B C : Type} (f : A -> B -> result C) (la : list A)
    (lb : list B) :
  concatM (fun a => mapM (f a) lb) la
  = mapM (fun p : A * B => f p.1 p.2) (list_prod la lb).
Proof.
  induction la as [|a la IH]; cbn [concatM list_prod]; [reflexivity|].
  rewrite mapM_app, mapM_map, IH. reflexivity.
Qed.

Lemma outer_loop (sa sb : string) (keys : list string)
    (rows_a row_b_list : list TRow) :
  forall out is_null,
    foldM (fun (st : list TRow * bool) row_a =>
             merged ← mapM (fun row_b => merge_rows sa sb keys row_a row_b)
                           row_b_list;
             Ok (st.1 ++ merged, false))
          (out, is_null) rows_a
    = rest ← product_a_major sa sb keys rows_a row_b_list;
      Ok (out ++ rest, match rows_a with [] => is_null | _ => false end).
Proof.
  unfold product_a_major.
  induction rows_a as [|row_a rows_a IH]; intros out is_null;
    cbn [foldM concatM mbind result_bind].
  - rewrite app_nil_r. reflexivity.
  - destruct (mapM _ row_b_list) as [merged|e]; cbn [mbind result_bind fst];
      [|reflexivity].
    rewrite IH.
    destruct (concatM _ rows_a) as [rest|e]; cbn [mbind result_bind];
      [|reflexivity].
    rewrite app_assoc. destruct rows_a; reflexivity.
Qed.

Lemma length_nonzero {A : Type} (l : list A) :
  l <> [] -> (length l =? 0)%nat = false.
Proof. destruct l; [contradiction | reflexivity]. Qed.

(** What each joiner does with two groups: the nested loops of each are
    one pass over the product. *)
Lemma InnerJoiner_call_product (sa sb : string) (keys : list string)
    (rows_a rows_b : list TRow) :
  InnerJoiner_call sa sb keys rows_a rows_b
  = mapM (fun p : TRow * TRow => merge_rows sa sb keys p.1 p.2)
         (list_prod rows_a rows_b).
Proof. unfold InnerJoiner_call, product_a_major. apply nested_loops. Qed.

Lemma OuterJoiner_call_product (sa sb : string) (keys : list string)
    (rows_a rows_b : list TRow) :
  rows_a <> [] -> rows_b <> [] ->
  OuterJoiner_call sa sb keys rows_a rows_b
  = mapM (fun p : TRow * TRow => merge_rows sa sb keys p.1 p.2)
         (list_prod rows_a rows_b).
Proof.
  intros Ha Hb. unfold OuterJoiner_call.
  rewrite (length_nonzero _ Hb), outer_loop.
  unfold product_a_major. rewrite nested_loops.
  destruct (mapM _ (list_prod rows_a rows_b)) as [out|e];
    cbn [mbind result_bind]; [|reflexivity].
  destruct rows_a; [contradiction | reflexivity].
Qed.

Lemma LeftJoiner_call_product (sa sb : string) (keys : list string)
    (rows_a rows_b : list TRow) :
  rows_b <> [] ->
  LeftJoiner_call sa sb keys rows_a rows_b
  = mapM (fun p : TRow * TRow => merge_rows sa sb keys p.1 p.2)
         (list_prod rows_a rows_b).
Proof.
  intros Hb. unfold LeftJoiner_call. rewrite (length_nonzero _ Hb).
  unfold product_a_major. apply nested_loops.
Qed.

Lemma RightJoiner_call_product (sa sb : string) (keys : list string)
    (rows_a rows_b : list TRow) :
  rows_a <> [] ->
  RightJoiner_call sa sb keys rows_a rows_b
  = mapM (fun p : TRow * TRow => merge_rows sa sb keys p.2 p.1)
         (list_prod rows_b rows_a).
Proof.
  intros Ha. unfold RightJoiner_call. rewrite (length_nonzero _ Ha).
  unfold product_b_major.
  exact (nested_loops (fun row_b row_a => merge_rows sa sb keys row_a row_b)
                      rows_b rows_a).
Qed.

(** C3, as the code has it. For two non-empty groups, the inner, outer and
    left joiners yield the merges with the left rows as the outer loop and
    the right rows as the inner loop; the right joiner yields them with the
    right rows as the outer loop and the left rows as the inner loop. *)
Theorem joiners_loop_order (joiner : Joiner) (keys : list string)
    (rows_a rows_b : list TRow) :
  known_joiner joiner -> rows_a <> [] -> rows_b <> [] ->
  Joiner_call joiner keys rows_a rows_b
  = match joiner with
    | RightJoiner _ _ =>
        mapM (fun p : TRow * TRow => Joiner_merge_rows joiner keys p.2 p.1)
             (list_prod rows_b rows_a)
    | _ =>
        mapM (fun p : TRow * TRow => Joiner_merge_rows joiner keys p.1 p.2)
             (list_prod rows_a rows_b)
    end.
Proof.
  intros Hknown Ha Hb. unfold Joiner_merge_rows.
  destruct joiner as [sa sb|sa sb|sa sb|sa sb|call];
    cbn [Joiner_call Joiner_suffixes fst snd].
  - apply InnerJoiner_call_product.
  - apply OuterJoiner_call_product; assumption.
  - apply LeftJoiner_call_product; assumption.
  - apply RightJoiner_call_product; assumption.
  - destruct Hknown.
Qed.

Lemma list_prod_nil_r {A B : Type} (la : list A) :
  list_prod la (@nil B) = [].
Proof. induction la as [|a la IH]; cbn; [reflexivity | exact IH]. Qed.

Lemma list_prod_cons_r {A B : Type} (la : list A) (b : B) (lb : list B) :
  list_prod la (b :: lb) ≡ₚ map (fun a => (a, b)) la ++ list_prod la lb.
Proof.
  induction la as [|a la IH]; cbn [list_prod map app]; [reflexivity|].
  constructor. rewrite IH.
  rewrite !app_assoc. apply Permutation_app_tail, Permutation_app_comm.
Qed.

Lemma list_prod_swap {A B : Type} (la : list A) (lb : list B) :
  list_prod lb la ≡ₚ map (fun p : A * B => (p.2, p.1)) (list_prod la lb).
Proof.
  induction la as [|a la IH].
  - rewrite list_prod_nil_r. reflexivity.
  - rewrite list_prod_cons_r, IH. cbn [list_prod].
    rewrite map_app, map_map. reflexivity.
Qed.

Lemma length_list_prod {A B : Type} (la : list A) (lb : list B) :
  length (list_prod la lb) = (length la * length lb)%nat.
Proof.
  induction la as [|a la IH]; cbn [list_prod length]; [reflexivity|].
  rewrite length_app, length_map, IH. reflexivity.
Qed.

(** C2. For two key-matched groups, of m and n rows, every one of the four
    joiners yields m * n rows: the merges of the pairs of a left row and a
    right row, the left row as A and the right row as B. *)
Theorem joiners_cartesian (joiner : Joiner) (keys : list string)
    (rows_a rows_b : list TRow) :
  iterates_members -> known_joiner joiner ->
  rows_a <> [] -> rows_b <> [] ->
  (forall row_a k, row_a ∈ rows_a -> k ∈ keys -> is_Some (row_a !! k)) ->
  exists out pairs,
    Joiner_call joiner keys rows_a rows_b = Ok out /\
    mapM (fun p : TRow * TRow => Joiner_merge_rows joiner keys p.1 p.2)
         (list_prod rows_a rows_b) = Ok pairs /\
    out ≡ₚ pairs /\
    length out = (length rows_a * length rows_b)%nat.
Proof.
  intros Hiter Hknown Ha Hb Hkeys.
  set (f := fun p : TRow * TRow => Joiner_merge_rows joiner keys p.1 p.2).
  set (g := fun p : TRow * TRow =>
              match f p with Ok r => r | Raise _ => ∅ end).
  assert (Hf : forall p, p ∈ list_prod rows_a rows_b -> f p = Ok (g p)).
  { intros [a b] Hp. apply list_elem_of_In, in_prod_iff in Hp as [Hin _].
    apply list_elem_of_In in Hin. unfold g, f, Joiner_merge_rows. cbn [fst snd].
    destruct (merge_rows_lookup Hiter (Joiner_suffixes joiner).1
                (Joiner_suffixes joiner).2 keys a b
                (fun k Hk => Hkeys a k Hin Hk)) as (merged & _ & -> & _).
    reflexivity. }
  pose proof (mapM_total f g _ Hf) as Hpairs.
  exists (match joiner with
          | RightJoiner _ _ =>
              map (fun p : TRow * TRow => g (p.2, p.1)) (list_prod rows_b rows_a)
          | _ => map g (list_prod rows_a rows_b)
          end), (map g (list_prod rows_a rows_b)).
  assert (Hcall : Joiner_call joiner keys rows_a rows_b
                  = match joiner with
                    | RightJoiner _ _ =>
                        mapM (fun p : TRow * TRow => f (p.2, p.1))
                             (list_prod rows_b rows_a)
                    | _ => mapM f (list_prod rows_a rows_b)
                    end).
  { unfold f, Joiner_merge_rows.
    destruct joiner as [sa sb|sa sb|sa sb|sa sb|call];
      cbn [Joiner_call Joiner_suffixes fst snd].
    - apply InnerJoiner_call_product.
    - apply OuterJoiner_call_product; assumption.
    - apply LeftJoiner_call_product; assumption.
    - apply RightJoiner_call_product; assumption.
    - destruct Hknown. }
  rewrite Hcall.
  split; [|split; [exact Hpairs|]].
  - destruct joiner; try exact Hpairs.
    apply mapM_total. intros [b a] Hp. apply (Hf (a, b)).
    apply list_elem_of_In, in_prod_iff.
    apply list_elem_of_In, in_prod_iff in Hp. destruct Hp. split; assumption.
  - assert (Hperm : map (fun p : TRow * TRow => g (p.2, p.1))
                        (list_prod rows_b rows_a)
                    ≡ₚ map g (list_prod rows_a rows_b)).
    { rewrite (list_prod_swap rows_a rows_b), map_map. cbn [fst snd].
      apply Permutation_map_same_l || reflexivity. }
    destruct joiner; cbn; rewrite ?Hperm, ?length_map, ?length_list_prod;
      split; reflexivity || lia.
Qed.

(** ** The order that [Join] walks by *)

Lemma ltb_irrefl (x : string) : String.ltb x x = false.
Proof.
  unfold String.ltb. pose proof (String.compare_antisym x x) as H.
  destruct (String.compare x x); cbn in H; try discriminate; reflexivity.
Qed.

Lemma ltb_trichotomy (x y : string) :
  String.ltb x y = false -> String.ltb y x = false -> x = y.
Proof.
  unfold String.ltb. rewrite (String.compare_antisym x y).
  destruct (String.compare y x) eqn:E; cbn; try discriminate.
  intros _ _. symmetry. apply String.compare_eq_iff, E.
Qed.

Lemma lex_lt_cons (x y : string) (xs ys : list string) :
  lex_lt (x :: xs) (y :: ys) <->
  String.ltb x y = true \/ (x = y /\ lex_lt xs ys).
Proof.
  split.
  - intros H. inversion H; subst; auto.
  - intros [H|[-> H]]; [apply lex_lt_head, H | apply lex_lt_tail, H].
Qed.

Lemma is_less_zip_lex (a b : list value) :
  length a = length b ->
  is_less_zip a b = true <-> lex_lt (map py_str a) (map py_str b).
Proof.
  revert b. induction a as [|x a IH]; intros [|y b] Hlen; try discriminate.
  - cbn. split; [discriminate | intros H; inversion H].
  - injection Hlen as Hlen. specialize (IH b Hlen).
    cbn [is_less_zip map]. rewrite lex_lt_cons.
    destruct (String.ltb (py_str x) (py_str y)) eqn:Exy.
    + split; [intros _; left; reflexivity | reflexivity].
    + destruct (String.ltb (py_str y) (py_str x)) eqn:Eyx.
      * split; [discriminate|]. intros [H|[H _]]; [discriminate|].
        rewrite H, ltb_irrefl in Eyx. discriminate.
      * rewrite IH. split.
        -- intros H. right. split; [apply ltb_trichotomy; assumption | exact H].
        -- intros [H|[_ H]]; [discriminate | exact H].
Qed.

(** C10. On key tuples of the same length, the order predicate of [Join]
    is the lexicographic order of the tuples of the strings [str] makes
    of the components.  It is not the order of the integers: the key 10 is
    less than the key 2, and the inner join of two inputs sorted by their
    integer key, both holding the key 10, loses that key. *)
Theorem Join_is_less_string_order (a b : list value) :
  length a = length b ->
  (exists lt, Join_is_less a b = Ok lt /\
     (lt = true <-> lex_lt (map py_str a) (map py_str b))) /\
  Join_is_less [VInt 10] [VInt 2] = Ok true /\
  Join_is_less [VInt 2] [VInt 10] = Ok false /\
  Join_call (InnerJoiner default_suffix_a default_suffix_b) ["id"]
            (Ok rows_2_10) (Ok rows_10) = Ok [].
Proof.
  intros Hlen. split; [|split; [|split]].
  - exists (is_less_zip a b). unfold Join_is_less.
    rewrite Hlen, Nat.eqb_refl. split; [reflexivity|].
    apply is_less_zip_lex, Hlen.
  - vm_compute. reflexivity.
  - vm_compute. reflexivity.
  - vm_compute. reflexivity.
Qed.

(** ** The executor *)

(** C8, as the code has it. A graph whose first operation is not a source
    does not run: [run] fails an assertion before it returns a stream.  A
    source further down the list is no error: it drops the stream built
    so far and the run goes on from the rows of that source. *)
Theorem run_needs_source_first (fuel : nat) (h : heap) (inp : inputs)
    (self : loc) (operation : Operation) (operations : list Operation)
    (join_graphs : list loc) :
  graph_lists h self = Ok (operation :: operations, join_graphs) ->
  is_source operation = false ->
  Graph_run (S fuel) h inp self = Raise AssertionError /\
  forall source rest run_graph cnt data,
    is_source source = true ->
    run_operations run_graph inp join_graphs (source :: rest) cnt data
    = run_operations run_graph inp join_graphs (source :: rest) cnt None.
Proof.
  intros Hlists Hsrc. split.
  - unfold graph_lists in Hlists. cbn [Graph_run].
    destruct (get_graph h self) as [[ops_l jgs_l]|e]; [|discriminate].
    cbn [mbind result_bind] in *.
    destruct (get_operations h ops_l) as [ops|e]; [|discriminate].
    cbn [mbind result_bind] in *.
    destruct (get_graphs h jgs_l) as [jgs|e]; [|discriminate].
    cbn [mbind result_bind] in *. injection Hlists as -> ->.
    destruct operation; try discriminate; cbn [run_operations].
    + destruct (join_graphs !! 0%nat); reflexivity.
    + reflexivity.
  - intros source rest run_graph cnt data Hs.
    destruct source; try discriminate; reflexivity.
Qed.

(** ** Chaining *)

Lemma alloc_spec (h : heap) (o : object) :
((alloc h o).2 ∉ dom h) /\
  (alloc h o).1 = <[(alloc h o).2 := o]> h /\
  h ⊆ (alloc h o).1.
Proof.
  unfold alloc. cbn [fst snd].
  assert (Hf : fresh (dom h) ∉ dom h) by apply is_fresh.
  split; [exact Hf|]. split; [reflexivity|].
  apply insert_subseteq, not_elem_of_dom, Hf.
Qed.

Lemma is_graph_weaken (h h' : heap) (g : loc) :
  h ⊆ h' -> is_graph h g -> is_graph h' g.
Proof.
  intros Hsub (ops & jgs & Hg). exists ops, jgs.
  exact (lookup_weaken _ _ _ _ Hg Hsub).
Qed.

(** A new object whose references lead where they should keeps the heap
    closed. *)
Lemma closed_insert (h : heap) (l : loc) (o : object) :
  closed h -> h !! l = None ->
  match o with
  | OpList _ => True
  | GraphList items => forall g, g ∈ items -> is_graph h g
  | GraphObj ops jgs =>
      (exists items, h !! ops = Some (OpList items)) /\
      (exists items, h !! jgs = Some (GraphList items))
  end ->
  closed (<[l := o]> h).
Proof.
  intros Hc Hl Ho l' o' Hl'.
  assert (Hsub : h ⊆ <[l := o]> h) by (apply insert_subseteq, Hl).
  assert (Hobj : match o' with
                 | OpList _ => True
                 | GraphList items => forall g, g ∈ items -> is_graph h g
                 | GraphObj ops jgs =>
                     (exists items, h !! ops = Some (OpList items)) /\
                     (exists items, h !! jgs = Some (GraphList items))
                 end).
  { apply lookup_insert_Some in Hl' as [[_ <-]|[_ Hl']]; [exact Ho|].
    specialize (Hc l' o' Hl'). destruct o'; exact Hc. }
  destruct o' as [items|items|ops jgs].
  - exact I.
  - intros g Hg. exact (is_graph_weaken _ _ _ Hsub (Hobj g Hg)).
  - destruct Hobj as [[i1 H1] [i2 H2]]. split.
    + exists i1. exact (lookup_weaken _ _ _ _ H1 Hsub).
    + exists i2. exact (lookup_weaken _ _ _ _ H2 Hsub).
Qed.

Lemma run_operations_ext (run1 run2 : loc -> result TRowsGenerator)
    (inp : inputs) (join_graphs : list loc) (operations : list Operation) :
  (forall g, g ∈ join_graphs -> run1 g = run2 g) ->
  forall cnt data,
    run_operations run1 inp join_graphs operations cnt data
    = run_operations run2 inp join_graphs operations cnt data.
Proof.
  intros Hrun. induction operations as [|op ops IH]; intros cnt data;
    cbn [run_operations]; [reflexivity|].
  destruct op as [f p|n|j keys|call].
  - apply IH.
  - apply IH.
  - destruct (join_graphs !! cnt) as [jg|] eqn:E; [|reflexivity].
    destruct data as [d|]; [|reflexivity].
    rewrite (Hrun jg) by (eapply list_elem_of_lookup_2; exact E).
    destruct (run2 jg); cbn [mbind result_bind]; [apply IH | reflexivity].
  - destruct data; [apply IH | reflexivity].
Qed.

(** A graph of a closed heap runs the same in every heap that has the
    objects of that heap. *)
Lemma Graph_run_weaken (h h' : heap) :
  closed h -> h ⊆ h' ->
  forall fuel inp g, is_graph h g ->
    Graph_run fuel h' inp g = Graph_run fuel h inp g.
Proof.
  intros Hc Hsub fuel inp. induction fuel as [|fuel IH]; intros g Hg;
    [reflexivity|].
  destruct Hg as (ops_l & jgs_l & Hg).
  destruct (Hc g _ Hg) as [[ops Hops] [jgs Hjgs]].
  pose proof (Hc jgs_l _ Hjgs) as Hjg. cbn in Hjg.
  cbn [Graph_run]. unfold get_graph, get_operations, get_graphs.
  rewrite (lookup_weaken _ _ _ _ Hg Hsub), Hg. cbn [mbind result_bind].
  rewrite (lookup_weaken _ _ _ _ Hops Hsub), Hops. cbn [mbind result_bind].
  rewrite (lookup_weaken _ _ _ _ Hjgs Hsub), Hjgs. cbn [mbind result_bind].
  apply run_operations_ext. intros jg Hin. apply IH, Hjg, Hin.
Qed.

Lemma graph_lists_weaken (h h' : heap) (g : loc) (ops : list Operation)
    (jgs : list loc) :
  h ⊆ h' -> graph_lists h g = Ok (ops, jgs) -> graph_lists h' g = Ok (ops, jgs).
Proof.
  intros Hsub. unfold graph_lists, get_graph, get_operations, get_graphs.
  destruct (h !! g) as [[| |ops_l jgs_l]|] eqn:Eg; try discriminate.
  rewrite (lookup_weaken _ _ _ _ Eg Hsub). cbn [mbind result_bind].
  destruct (h !! ops_l) as [[o1| |]|] eqn:Eo; try discriminate.
  rewrite (lookup_weaken _ _ _ _ Eo Hsub). cbn [mbind result_bind].
  destruct (h !! jgs_l) as [[|j1|]|] eqn:Ej; try discriminate.
  rewrite (lookup_weaken _ _ _ _ Ej Hsub). cbn [mbind result_bind].
  intros H. exact H.
Qed.

(** The constructor, given two lists just made. *)
Lemma Graph_init_new (h : heap) (ops_l jgs_l : loc) (ops : list Operation)
    (jgs : list loc) :
  closed h ->
  h !! ops_l = Some (OpList ops) -> ops <> [] ->
  h !! jgs_l = Some (GraphList jgs) ->
  exists h' g' jgs_l',
    Graph_init h (Some ops_l) (Some jgs_l) = Ok (h', g') /\
    (g' ∉ dom h) /\ h ⊆ h' /\ closed h' /\
    h' !! g' = Some (GraphObj ops_l jgs_l') /\
    h' !! jgs_l' = Some (GraphList jgs) /\
    (jgs_l' = jgs_l \/ jgs_l' ∉ dom h).
Proof.
  intros Hc Hops Hne Hjgs. unfold Graph_init, operations_or_new,
    join_graphs_or_new, get_operations, get_graphs.
  rewrite Hops. cbn [mbind result_bind].
  destruct ops as [|op ops]; [contradiction|]. cbn [mbind result_bind].
  rewrite Hjgs. cbn [mbind result_bind].
  destruct jgs as [|jg jgs]; cbn [mbind result_bind].
  - destruct (alloc_spec h (GraphList [])) as (Hf1 & E1 & Hsub1).
    set (h1 := (alloc h (GraphList [])).1) in *.
    set (l1 := (alloc h (GraphList [])).2) in *.
    assert (Hc1 : closed h1).
    { rewrite E1. apply closed_insert; [exact Hc | apply not_elem_of_dom, Hf1|].
      intros g Hg. inversion Hg. }
    destruct (alloc_spec h1 (GraphObj ops_l l1)) as (Hf2 & E2 & Hsub2).
    exists (alloc h1 (GraphObj ops_l l1)).1, (alloc h1 (GraphObj ops_l l1)).2, l1.
    assert (Hl1 : h1 !! l1 = Some (GraphList [])).
    { rewrite E1. apply lookup_insert_eq. }
    split; [|split; [|split; [|split; [|split; [|split]]]]].
    + reflexivity.
    + intros Hin. apply Hf2. apply elem_of_dom. apply elem_of_dom in Hin as [o Ho].
      exists o. exact (lookup_weaken _ _ _ _ Ho Hsub1).
    + etrans; eassumption.
    + rewrite E2. apply closed_insert; [exact Hc1 | apply not_elem_of_dom, Hf2|].
      split; [exists (op :: ops); exact (lookup_weaken _ _ _ _ Hops Hsub1)|].
      exists []. exact Hl1.
    + rewrite E2. apply lookup_insert_eq.
    + exact (lookup_weaken _ _ _ _ Hl1 Hsub2).
    + right. exact Hf1.
  - destruct (alloc_spec h (GraphObj ops_l jgs_l)) as (Hf2 & E2 & Hsub2).
    exists (alloc h (GraphObj ops_l jgs_l)).1, (alloc h (GraphObj ops_l jgs_l)).2,
           jgs_l.
    split; [|split; [|split; [|split; [|split; [|split]]]]].
    + reflexivity.
    + exact Hf2.
    + exact Hsub2.
    + rewrite E2. apply closed_insert; [exact Hc | apply not_elem_of_dom, Hf2|].
      split; [exists (op :: ops); exact Hops | exists (jg :: jgs); exact Hjgs].
    + rewrite E2. apply lookup_insert_eq.
    + exact (lookup_weaken _ _ _ _ Hjgs Hsub2).
    + left. reflexivity.
Qed.

Lemma dom_weaken (h h' : heap) (l : loc) : h ⊆ h' -> l ∉ dom h' -> l ∉ dom h.
Proof.
  intros Hsub Hl Hin. apply Hl. apply elem_of_dom in Hin as [o Ho].
  apply elem_of_dom. exists o. exact (lookup_weaken _ _ _ _ Ho Hsub).
Qed.

Lemma graph_lists_Ok (h : heap) (g ops_l jgs_l : loc) (ops : list Operation)
    (jgs : list loc) :
  h !! g = Some (GraphObj ops_l jgs_l) ->
  h !! ops_l = Some (OpList ops) ->
  h !! jgs_l = Some (GraphList jgs) ->
  graph_lists h g = Ok (ops, jgs).
Proof.
  intros Hg Ho Hj. unfold graph_lists, get_graph, get_operations, get_graphs.
  rewrite Hg. cbn [mbind result_bind]. rewrite Ho. cbn [mbind result_bind].
  rewrite Hj. reflexivity.
Qed.

(** Every chaining method is [Graph_extend]; this is what it does. *)
Lemma Graph_extend_frame (h : heap) (self : loc) (operation : Operation)
    (more : list loc) :
  closed h -> is_graph h self ->
  (forall g, g ∈ more -> is_graph h g) ->
  extends_graph h self operation more (Graph_extend h self operation more).
Proof.
  intros Hc Hself Hmore.
  pose proof Hself as (ops_l & jgs_l & Hg).
  destruct (Hc self _ Hg) as [[ops Hops] [jgs Hjgs]].
  pose proof (Hc jgs_l _ Hjgs) as Hjg. cbn in Hjg.
  destruct (alloc_spec h (OpList (ops ++ [operation]))) as (Hf1 & E1 & Hsub1).
  set (h1 := (alloc h (OpList (ops ++ [operation]))).1) in *.
  set (l1 := (alloc h (OpList (ops ++ [operation]))).2) in *.
  assert (Hc1 : closed h1).
  { rewrite E1. apply closed_insert;
      [exact Hc | apply not_elem_of_dom, Hf1 | exact I]. }
  destruct (alloc_spec h1 (GraphList (jgs ++ more))) as (Hf2 & E2 & Hsub2).
  set (h2 := (alloc h1 (GraphList (jgs ++ more))).1) in *.
  set (l2 := (alloc h1 (GraphList (jgs ++ more))).2) in *.
  assert (Hc2 : closed h2).
  { rewrite E2. apply closed_insert;
      [exact Hc1 | apply not_elem_of_dom, Hf2 |].
    intros g Hin. apply (is_graph_weaken h h1 g Hsub1).
    apply elem_of_app in Hin as [Hin|Hin].
    - destruct (Hjg g Hin) as (o & j & H). exists o, j. exact H.
    - apply Hmore, Hin. }
  assert (Hl1 : h2 !! l1 = Some (OpList (ops ++ [operation]))).
  { apply (lookup_weaken h1); [|exact Hsub2]. rewrite E1. apply lookup_insert_eq. }
  assert (Hl2 : h2 !! l2 = Some (GraphList (jgs ++ more))).
  { rewrite E2. apply lookup_insert_eq. }
  destruct (Graph_init_new h2 l1 l2 _ _ Hc2 Hl1 ltac:(destruct ops; discriminate) Hl2)
    as (h' & g' & jgs_l' & Hinit & Hfg & Hsub3 & Hc' & Hg' & Hjl' & Hfresh).
  assert (Hsub12 : h ⊆ h2) by (transitivity h1; assumption).
  assert (Hsub : h ⊆ h') by (transitivity h2; assumption).
  assert (Hlists : graph_lists h self = Ok (ops, jgs))
    by (apply (graph_lists_Ok h self ops_l jgs_l); assumption).
  exists h', g', ops, jgs, l1, jgs_l'.
  split; [|split; [exact Hlists|split; [|split; [exact Hsub|split; [exact Hg'|]]]]].
  - unfold Graph_extend, get_graph, get_operations, get_graphs.
    rewrite Hg. cbn [mbind result_bind]. rewrite Hops. cbn [mbind result_bind].
    change (alloc h (OpList (ops ++ [operation]))) with (h1, l1).
    cbv iota beta.
    rewrite (lookup_weaken _ _ _ _ Hjgs Hsub1). cbn [mbind result_bind].
    change (alloc h1 (GraphList (jgs ++ more))) with (h2, l2).
    cbv iota beta. exact Hinit.
  - apply (dom_weaken h h2); [exact Hsub12 | exact Hfg].
  - split; [exact Hf1|]. split.
    { destruct Hfresh as [->|Hfresh].
      - apply (dom_weaken h h1); assumption.
      - apply (dom_weaken h h2); [exact Hsub12 | exact Hfresh]. }
    split.
    { apply (graph_lists_Ok h' g' l1 jgs_l'); [exact Hg'| |exact Hjl'].
      exact (lookup_weaken _ _ _ _ Hl1 Hsub3). }
    split; [exact (graph_lists_weaken _ _ _ _ _ Hsub Hlists)|].
    split; [exact Hc'|].
    intros fuel inp. apply (Graph_run_weaken h h' Hc Hsub). exact Hself.
Qed.

(** C9. In a closed heap, each of the chaining methods [map], [reduce],
    [sort] and [join] of a graph G returns a new graph object with lists of
    its own, which hold the operations of G followed by the new operation
    and the join graphs of G (followed by the graph joined); no object of
    the heap is changed, so G has the lists it had, and running G gives
    what it gave before the call. *)
Theorem chaining_leaves_graph_unchanged (h : heap) (self : loc) :
  closed h -> is_graph h self ->
  (forall mapper,
     extends_graph h self (Map mapper) [] (Graph_map h self mapper)) /\
  (forall reducer keys,
     extends_graph h self (Reduce reducer keys) []
       (Graph_reduce h self reducer keys)) /\
  (forall keys,
     extends_graph h self (ExternalSort keys) [] (Graph_sort h self keys)) /\
  (forall joiner join_graph keys,
     is_graph h join_graph ->
     extends_graph h self (Join joiner keys) [join_graph]
       (Graph_join h self joiner join_graph keys)).
Proof.
  intros Hc Hself. split; [|split; [|split]].
  - intros mapper. apply Graph_extend_frame; [assumption..|].
    intros g Hg. inversion Hg.
  - intros reducer keys. apply Graph_extend_frame; [assumption..|].
    intros g Hg. inversion Hg.
  - intros keys. apply Graph_extend_frame; [assumption..|].
    intros g Hg. inversion Hg.
  - intros joiner join_graph keys Hjg. apply Graph_extend_frame; [assumption..|].
    intros g Hg. apply list_elem_of_singleton in Hg. subst. exact Hjg.
Qed.

(** ** The mappers [Project], [Rename], [FilterPunctuation], [Division] *)

Lemma Project_loop (row : TRow) (columns : list string) :
  forall (m0 : TRow) (c : string),
    fold_left (fun (mapped_row : TRow) column =>
                 match row !! column with
                 | Some v => <[column := v]> mapped_row
                 | None => mapped_row
                 end) columns m0 !! c
    = if decide (c ∈ columns)
      then match row !! c with Some v => Some v | None => m0 !! c end
      else m0 !! c.
Proof.
  induction columns as [|x columns IH]; intros m0 c; simpl.
  - destruct (decide (c ∈ [])) as [H|_]; [inversion H|reflexivity].
  - rewrite IH. destruct (decide (c ∈ columns)) as [Hin|Hnin].
    + rewrite decide_True by (right; exact Hin).
      destruct (row !! c) as [v|] eqn:Hc; [reflexivity|].
      destruct (row !! x) as [w|] eqn:Hx; [|reflexivity].
      apply lookup_insert_ne. intros ->. congruence.
    + destruct (decide (c = x)) as [->|Hne].
      * rewrite decide_True by left.
        destruct (row !! x) as [w|] eqn:Hx; [|reflexivity].
        apply lookup_insert_eq.
      * rewrite decide_False.
        2:{ intros H. apply elem_of_cons in H. destruct H; contradiction. }
        destruct (row !! x) as [w|] eqn:Hx; [|reflexivity].
        apply lookup_insert_ne. congruence.
Qed.

Lemma Project_lookup (columns : list string) (row : TRow) :
  exists mapped_row : TRow,
    Project columns row = Ok [mapped_row] /\
    forall c, mapped_row !! c = if decide (c ∈ columns) then row !! c else None.
Proof.
  eexists. split; [reflexivity|]. intros c. rewrite Project_loop.
  rewrite lookup_empty. destruct (decide (c ∈ columns)); [|reflexivity].
  destruct (row !! c); reflexivity.
Qed.

(** X1.  [Project(columns)] yields one row: the columns of the row that
    are listed, with the values they have in the row, and no other column;
    a listed column that the row lacks is passed over.  Projecting the
    result again changes nothing. *)
Theorem Project_columns (columns : list string) (row : TRow) :
  exists mapped_row : TRow,
    Project columns row = Ok [mapped_row] /\
    (forall c, mapped_row !! c
               = if decide (c ∈ columns) then row !! c else None) /\
    dom mapped_row = dom row ∩ list_to_set columns /\
    Project columns mapped_row = Ok [mapped_row].
Proof.
  destruct (Project_lookup columns row) as (m & Hm & Hlook).
  exists m. split; [exact Hm|]. split; [exact Hlook|]. split.
  - apply set_eq. intros c. rewrite elem_of_dom, elem_of_intersection,
      elem_of_dom, elem_of_list_to_set, Hlook.
    destruct (decide (c ∈ columns)) as [Hin|Hnin].
    + split; [intros H; split; assumption|intros [H _]; exact H].
    + split; [intros [v Hv]; discriminate|intros [_ H]; contradiction].
  - destruct (Project_lookup columns m) as (m' & Hm' & Hlook').
    rewrite Hm'. f_equal. f_equal. apply map_eq. intros c.
    rewrite Hlook', Hlook. destruct (decide (c ∈ columns)); reflexivity.
Qed.

(** X2.  [Rename(column, new_column)] on a row that has [column] and no
    column named [new_column] moves the value under the new name and
    leaves the other columns alone; renaming back gives the row again. *)
Theorem Rename_round_trip (column new_column : string) (row : TRow) :
  is_Some (row !! column) -> row !! new_column = None ->
  exists renamed : TRow,
    Rename column new_column row = Ok [renamed] /\
    renamed !! column = None /\
    renamed !! new_column = row !! column /\
    (forall c, c <> column -> c <> new_column -> renamed !! c = row !! c) /\
    Rename new_column column renamed = Ok [row].
Proof.
  intros [v Hv] Hnew.
  assert (Hne : column <> new_column) by (intros ->; congruence).
  exists (<[new_column := v]> (delete column row)).
  unfold Rename. rewrite Hv. split; [reflexivity|].
  split; [rewrite lookup_insert_ne by congruence; apply lookup_delete_eq|].
  split; [apply lookup_insert_eq|].
  split.
  - intros c Hc Hc'. rewrite lookup_insert_ne by congruence.
    apply lookup_delete_ne. congruence.
  - rewrite lookup_insert_eq. f_equal. f_equal.
    apply map_eq. intros c.
    destruct (decide (c = column)) as [->|Hc].
    + rewrite lookup_insert_eq. symmetry. exact Hv.
    + rewrite lookup_insert_ne by congruence.
      destruct (decide (c = new_column)) as [->|Hc'].
      * rewrite lookup_delete_eq. symmetry. exact Hnew.
      * rewrite lookup_delete_ne by congruence.
        rewrite lookup_insert_ne by congruence.
        apply lookup_delete_ne. congruence.
Qed.





Lemma float_of_int_zero : float_of_int 0 = Ok (S754_zero false).
Proof. reflexivity. Qed.

Lemma py_truediv_Ok (a b q : value) :
  py_truediv a b = Ok q ->
  is_number a /\ is_number b /\ ~ is_zero_value b /\ exists f, q = VFloat f.
Proof.
  destruct a as [x|x|s], b as [y|y|t]; simpl; try discriminate.
  - unfold int_truediv. destruct (y =? 0) eqn:Hy; [discriminate|].
    intros H. apply bind_Ok in H. destruct H as (f & _ & [= <-]).
    apply Z.eqb_neq in Hy.
    split; [exact I|]. split; [exact I|]. split; [exact Hy|]. eauto.
  - intros H. apply bind_Ok in H. destruct H as (fx & _ & H).
    apply bind_Ok in H. destruct H as (f & Hf & [= <-]).
    unfold float_truediv in Hf. destruct (is_zero y) eqn:Hy; [discriminate|].
    split; [exact I|]. split; [exact I|]. split; [congruence|]. eauto.
  - intros H. apply bind_Ok in H. destruct H as (fy & Hfy & H).
    apply bind_Ok in H. destruct H as (f & Hf & [= <-]).
    unfold float_truediv in Hf. destruct (is_zero fy) eqn:Hz; [discriminate|].
    split; [exact I|]. split; [exact I|]. split; [|eauto].
    intros ->. rewrite float_of_int_zero in Hfy.
    injection Hfy as <-. discriminate.
  - intros H. apply bind_Ok in H. destruct H as (f & Hf & [= <-]).
    unfold float_truediv in Hf. destruct (is_zero y) eqn:Hy; [discriminate|].
    split; [exact I|]. split; [exact I|]. split; [congruence|]. eauto.
Qed.

(** X4.  [Division(column_num, column_den, result_column)]: a row that
    lacks one of the two columns is yielded as it is.  Otherwise a string
    in either column raises [TypeError]; a zero under a float, or under
    any integer, raises [ZeroDivisionError]; and when a row is yielded it
    is the only one, it holds a float in [result_column], equals the row
    in every other column, and the divisor was a number other than
    zero. *)
Theorem Division_outcomes (column_num column_den result_column : string)
    (row : TRow) :
  (row !! column_num = None \/ row !! column_den = None ->
   Division column_num column_den result_column row = Ok [row]) /\
  (forall num den,
     row !! column_num = Some num -> row !! column_den = Some den ->
     (~ is_number num \/ ~ is_number den ->
      Division column_num column_den result_column row = Raise TypeError) /\
     (is_zero_value den -> (exists f, num = VFloat f) \/ den = VInt 0 ->
      is_number num ->
      Division column_num column_den result_column row
      = Raise ZeroDivisionError) /\
     (forall out,
        Division column_num column_den result_column row = Ok out ->
        exists f,
          out = [<[result_column := VFloat f]> row] /\
          py_truediv num den = Ok (VFloat f) /\
          is_number num /\ is_number den /\ ~ is_zero_value den)).
Proof.
  split.
  - unfold Division. intros [-> | H]; [reflexivity|].
    rewrite H. destruct (row !! column_num); reflexivity.
  - intros num den Hn Hd. unfold Division. rewrite Hn, Hd.
    split; [|split].
    + intros [H|H].
      * destruct num; simpl in H; try (exfalso; apply H; exact I).
        destruct den; reflexivity.
      * destruct den; simpl in H; try (exfalso; apply H; exact I).
        destruct num; reflexivity.
    + intros Hz Hcase Hnum.
      destruct den as [y|y|t]; simpl in Hz; [subst y| |contradiction].
      * destruct num as [x|x|s]; [reflexivity|reflexivity|contradiction].
      * destruct Hcase as [[f ->]|[=]]. simpl. unfold float_truediv.
        rewrite Hz. reflexivity.
    + intros out H. apply bind_Ok in H. destruct H as (q & Hq & [= <-]).
      destruct (py_truediv_Ok _ _ _ Hq) as (H1 & H2 & H3 & f & ->).
      exists f. repeat split; assumption.
Qed.

(** ** [Reduce]: what [groupby] makes of a stream, and the reducers on it *)

Lemma key_of_total (keys : list string) (row : TRow) :
  (forall k, k ∈ keys -> is_Some (row !! k)) ->
  exists key, key_of keys row = Ok key.
Proof.
  induction keys as [|k keys IH]; intros H.
  - exists []. reflexivity.
  - destruct (H k) as [v Hv]; [left|].
    destruct IH as [key Hkey]; [intros k' Hk'; apply H; right; exact Hk'|].
    exists (v :: key). unfold key_of in *. cbn [mapM].
    rewrite (getitem_Some _ _ _ Hv). cbn [mbind result_bind].
    rewrite Hkey. reflexivity.
Qed.

Lemma key_of_length (keys : list string) (row : TRow) (key : list value) :
  key_of keys row = Ok key -> length key = length keys.
Proof.
  rewrite key_of_Ok. intros H. symmetry. exact (Forall2_length _ _ _ H).
Qed.

Lemma groupby_go_total (keys : list string) (rows : list TRow) :
  has_keys keys rows ->
  forall tgtkey acc, exists gs, groupby_go keys tgtkey acc rows = Ok gs.
Proof.
  induction rows as [|row rows IH]; intros H tgtkey acc; cbn [groupby_go].
  - eauto.
  - destruct (key_of_total keys row) as [key Hkey].
    { intros k Hk. apply (H row k); [left|exact Hk]. }
    rewrite Hkey. cbn [mbind result_bind].
    assert (H' : has_keys keys rows).
    { intros r k Hr Hk. apply (H r k); [right; exact Hr|exact Hk]. }
    destruct (tuple_eqb tgtkey key).
    + apply IH, H'.
    + destruct (IH H' key [row]) as [gs ->]. eauto.
Qed.

Lemma groupby_total (keys : list string) (rows : list TRow) :
  has_keys keys rows -> exists gs, groupby keys rows = Ok gs.
Proof.
  destruct rows as [|row rows]; intros H; cbn [groupby]; [eauto|].
  destruct (key_of_total keys row) as [key Hkey].
  { intros k Hk. apply (H row k); [left|exact Hk]. }
  rewrite Hkey. cbn [mbind result_bind].
  apply groupby_go_total. intros r k Hr Hk. apply (H r k); [right; exact Hr|exact Hk].
Qed.

Lemma groupby_go_head (keys : list string) (rows : list TRow) :
  forall tgtkey acc gs,
    groupby_go keys tgtkey acc rows = Ok gs ->
    exists g gs', gs = (tgtkey, g) :: gs'.
Proof.
  induction rows as [|row rows IH]; intros tgtkey acc gs Hgo;
    cbn [groupby_go] in Hgo.
  - injection Hgo as <-. eauto.
  - apply bind_Ok in Hgo as (currkey & _ & Hgo).
    destruct (tuple_eqb tgtkey currkey).
    + exact (IH _ _ _ Hgo).
    + apply bind_Ok in Hgo as (gs' & _ & [= <-]). eauto.
Qed.

Lemma groupby_go_keyed (keys : list string) (rows : list TRow) :
  forall (tgtkey : list value) (acc : list TRow)
         (gs : list (list value * list TRow)),
    keyed_group keys (tgtkey, rev acc) ->
    groupby_go keys tgtkey acc rows = Ok gs ->
    Forall (keyed_group keys) gs /\ keys_change gs.
Proof.
  induction rows as [|row rows IH]; intros tgtkey acc gs Hacc Hgo;
    cbn [groupby_go] in Hgo.
  - injection Hgo as <-. split; [constructor; [exact Hacc|constructor]|].
    simpl. split; exact I.
  - apply bind_Ok in Hgo as (currkey & Hcur & Hgo).
    destruct (tuple_eqb tgtkey currkey) eqn:Eq.
    + apply (IH tgtkey (row :: acc) gs); [|exact Hgo].
      destruct Hacc as (first & others & E & Hk & Hall). cbn [fst snd] in *.
      exists first, (others ++ [row]). cbn [fst snd rev]. rewrite E.
      split; [reflexivity|]. split; [exact Hk|].
      apply Forall_app. split; [exact Hall|].
      constructor; [|constructor]. exists currkey. split; assumption.
    + apply bind_Ok in Hgo as (gs' & Hgo & [= <-]).
      destruct (IH currkey [row] gs') as [H1 H2]; [|exact Hgo|].
      * exists row, []. split; [reflexivity|]. split; [exact Hcur|constructor].
      * split; [constructor; assumption|].
        destruct (groupby_go_head _ _ _ _ _ Hgo) as (g & gs'' & ->).
        cbn [keys_change] in *. split; [exact Eq|exact H2].
Qed.

Lemma groupby_keyed (keys : list string) (rows : list TRow)
    (gs : list (list value * list TRow)) :
  groupby keys rows = Ok gs ->
  Forall (keyed_group keys) gs /\ keys_change gs.
Proof.
  destruct rows as [|row rows]; cbn [groupby].
  - intros [= <-]. split; [constructor | exact I].
  - intros H. apply bind_Ok in H as (currkey & Hcur & Hgo).
    apply (groupby_go_keyed keys rows currkey [row] gs); [|exact Hgo].
    exists row, []. split; [reflexivity|]. split; [exact Hcur|constructor].
Qed.

Lemma keyed_group_is_group (keys : list string) (g : list value * list TRow) :
  keyed_group keys g -> is_group keys g.2.
Proof.
  intros (first & others & E & Hk & Hall). rewrite E. exists g.1.
  split; assumption.
Qed.

Lemma bind_ret_app_nil {A : Type} (m : result (list A)) :
  (rest ← m; Ok ([] ++ rest)) = m.
Proof. destruct m; reflexivity. Qed.

Lemma bind_ret_nil_app {A : Type} (m : result (list A)) :
  (out ← m; rest ← Ok []; Ok (out ++ rest)) = m.
Proof. destruct m; simpl; [rewrite app_nil_r|]; reflexivity. Qed.

Lemma Count_group (column : string) (keys : list string) (rows : list TRow) :
  is_group keys rows ->
  exists reduced_row : TRow,
    Count column keys rows = Ok [reduced_row] /\
    reduced_row !! column = Some (VInt (Z.of_nat (length rows))) /\
    forall k, k ∈ keys -> k <> column ->
      reduced_row !! k = head rows ≫= fun row : TRow => row !! k.
Proof.
  destruct rows as [|row rest]; [intros []|].
  intros (key & Hkey & Hrest).
  destruct (key_dict_spec keys row (key_of_is_Some _ _ _ Hkey))
    as (d & Hd & Hdom & Hl).
  exists (<[column := VInt (Z.of_nat (length (row :: rest)))]> d).
  split; [|split].
  - unfold Count. cbn [length for_iter]. rewrite Hd. cbn [mbind result_bind].
    rewrite count_rows_length, app_nil_r, Nat2Z.inj_succ.
    replace (1 + Z.of_nat (length rest)) with (Z.succ (Z.of_nat (length rest)))
      by lia.
    reflexivity.
  - apply lookup_insert_eq.
  - intros k Hk Hne. rewrite lookup_insert_ne by congruence.
    rewrite Hl by exact Hk. reflexivity.
Qed.

Lemma length_concat_groups (gs : list (list value * list TRow)) :
  Z.of_nat (length (concat (map snd gs)))
  = foldr Z.add 0 (map (fun g : list value * list TRow =>
                          Z.of_nat (length g.2)) gs).
Proof.
  induction gs as [|g gs IH]; [reflexivity|].
  cbn [map concat foldr]. rewrite length_app, Nat2Z.inj_add, IH. reflexivity.
Qed.

(** X5.  [Reduce(Count(column), keys)] on a stream whose rows all have
    the key columns yields one row for every group of consecutive rows
    with equal keys: it holds the number of rows of the group in [column]
    and, in every other key column, the value of the first row of the
    group.  The counts add up to the number of rows of the stream; in
    particular an empty stream yields no row, also when [keys] is
    empty. *)
Theorem Reduce_Count_adds_up (column : string) (keys : list string)
    (rows : list TRow) :
  has_keys keys rows ->
  exists (groups : list (list value * list TRow)) (out : list TRow),
    groupby keys rows = Ok groups /\
    Reduce_call (Count column) keys (Ok rows) = Ok out /\
    Forall2 (fun (g : list value * list TRow) (r : TRow) =>
               r !! column = Some (VInt (Z.of_nat (length g.2))) /\
               g.2 <> [] /\
               forall k, k ∈ keys -> k <> column ->
                 r !! k = head g.2 ≫= fun row : TRow => row !! k)
            groups out /\
    foldr Z.add 0 (map (fun g : list value * list TRow =>
                          Z.of_nat (length g.2)) groups)
    = Z.of_nat (length rows).
Proof.
  intros Hkeys. destruct (groupby_total keys rows Hkeys) as [gs Hgs].
  destruct (groupby_groups keys rows gs Hgs) as [Hall Hcat].
  assert (Hout : exists out,
            concatM (fun g : list value * list TRow => Count column keys g.2) gs
            = Ok out /\
            Forall2 (fun (g : list value * list TRow) (r : TRow) =>
               r !! column = Some (VInt (Z.of_nat (length g.2))) /\
               g.2 <> [] /\
               forall k, k ∈ keys -> k <> column ->
                 r !! k = head g.2 ≫= fun row : TRow => row !! k) gs out).
  { clear Hgs Hcat. induction Hall as [|g gs Hg _ IH].
    - exists []. split; [reflexivity|constructor].
    - destruct IH as (out & Hout & Hrel).
      destruct (Count_group column keys g.2 Hg) as (r & Hr & Hc & Hk).
      exists (r :: out). cbn [concatM]. rewrite Hr, Hout. split; [reflexivity|].
      constructor; [|exact Hrel]. split; [exact Hc|]. split; [|exact Hk].
      intros E. rewrite E in Hg. exact Hg. }
  destruct Hout as (out & Hout & Hrel).
  exists gs, out. split; [exact Hgs|]. split.
  - unfold Reduce_call. cbn [mbind result_bind]. rewrite Hgs. exact Hout.
  - split; [exact Hrel|]. rewrite <- length_concat_groups, Hcat. reflexivity.
Qed.

Lemma FirstReducer_head (keys : list string) (row : TRow) (rest : list TRow) :
  FirstReducer keys (row :: rest) = Ok [row].
Proof. reflexivity. Qed.

Lemma firsts_of_groups (keys : list string)
    (gs : list (list value * list TRow)) :
  Forall (keyed_group keys) gs ->
  exists out,
    concatM (fun g : list value * list TRow => FirstReducer keys g.2) gs = Ok out /\
    Forall2 (fun (g : list value * list TRow) (r : TRow) =>
               head g.2 = Some r /\ key_of keys r = Ok g.1) gs out /\
    sublist out (concat (map snd gs)).
Proof.
  induction 1 as [|g gs Hg _ IH].
  - exists []. split; [reflexivity|]. split; constructor.
  - destruct IH as (out & Hout & Hrel & Hsub).
    destruct Hg as (first & others & E & Hk & _).
    exists (first :: out). cbn [concatM]. rewrite E, FirstReducer_head, Hout.
    split; [reflexivity|]. split.
    + constructor; [|exact Hrel]. rewrite E. split; [reflexivity|exact Hk].
    + cbn [map concat]. rewrite E. cbn [app]. apply sublist_skip.
      apply sublist_inserts_l. exact Hsub.
Qed.

Lemma keys_change_lookup (gs : list (list value * list TRow)) (i : nat)
    (g g' : list value * list TRow) :
  keys_change gs -> gs !! i = Some g -> gs !! S i = Some g' ->
  tuple_eqb g.1 g'.1 = false.
Proof.
  revert i. induction gs as [|g0 gs IH]; intros i H Hi Hi'; [discriminate|].
  destruct H as [H0 H]. destruct i as [|i].
  - injection Hi as ->. destruct gs as [|g1 gs]; [discriminate|].
    injection Hi' as ->. exact H0.
  - exact (IH i H Hi Hi').
Qed.

(** X6.  [Reduce(FirstReducer(), keys)] on a stream whose rows all have
    the key columns yields the first row of every group of consecutive
    rows with equal keys, unchanged: the rows yielded are rows of the
    stream, in the order of the stream; the first of them is the first
    row of the stream; and two rows yielded one after the other never
    have equal keys. *)
Theorem Reduce_FirstReducer_firsts (keys : list string) (rows : list TRow) :
  has_keys keys rows ->
  exists (groups : list (list value * list TRow)) (out : list TRow),
    groupby keys rows = Ok groups /\
    Reduce_call FirstReducer keys (Ok rows) = Ok out /\
    Forall2 (fun (g : list value * list TRow) (r : TRow) => head g.2 = Some r)
            groups out /\
    sublist out rows /\
    head out = head rows /\
    forall i r r',
      out !! i = Some r -> out !! S i = Some r' ->
      exists k k', key_of keys r = Ok k /\ key_of keys r' = Ok k' /\
                   tuple_eqb k k' = false.
Proof.
  intros Hkeys. destruct (groupby_total keys rows Hkeys) as [gs Hgs].
  destruct (groupby_groups keys rows gs Hgs) as [_ Hcat].
  destruct (groupby_keyed keys rows gs Hgs) as [Hkeyed Hchange].
  destruct (firsts_of_groups keys gs Hkeyed) as (out & Hout & Hrel & Hsub).
  exists gs, out. split; [exact Hgs|]. split.
  { unfold Reduce_call. cbn [mbind result_bind]. rewrite Hgs. exact Hout. }
  split.
  { eapply Forall2_impl; [exact Hrel|]. intros g r [H _]. exact H. }
  split; [rewrite <- Hcat; exact Hsub|]. split.
  - rewrite <- Hcat. destruct Hrel as [|g r gs' out' [Hh _] _]; [reflexivity|].
    cbn [map concat head]. destruct g.2 as [|x xs]; [discriminate|].
    injection Hh as ->. reflexivity.
  - intros i r r' Hi Hi'.
    destruct (Forall2_lookup_r _ _ _ _ _ Hrel Hi) as (g & Hg & _ & Hk).
    destruct (Forall2_lookup_r _ _ _ _ _ Hrel Hi') as (g' & Hg' & _ & Hk').
    exists g.1, g'.1. split; [exact Hk|]. split; [exact Hk'|].
    exact (keys_change_lookup gs i g g' Hchange Hg Hg').
Qed.

(** X7.  [Sum(column)] cannot add up strings: on a non-empty group whose
    rows all hold a string in [column] it raises [TypeError] (the sum of
    the rows after the first starts from the integer 0). *)
Theorem Sum_of_strings_raises (column : string) (group_key : list string)
    (row : TRow) (rest : list TRow) :
  is_group group_key (row :: rest) ->
  Forall (fun r : TRow => exists s, r !! column = Some (VStr s)) (row :: rest) ->
  Sum column group_key (row :: rest) = Raise TypeError.
Proof.
  intros (key & Hkey & _) Hcol.
  inversion Hcol as [|? ? [s Hs] Hrest]; subst.
  destruct (key_dict_spec group_key row (key_of_is_Some _ _ _ Hkey))
    as (d & Hd & _).
  unfold Sum, sum_column. cbn [length for_iter]. rewrite Hd.
  cbn [mbind result_bind]. rewrite (getitem_Some _ _ _ Hs).
  cbn [mbind result_bind].
  destruct rest as [|r2 rest]; [reflexivity|].
  inversion Hrest as [|? ? [s2 Hs2] _]; subst.
  cbn [foldM]. rewrite (getitem_Some _ _ _ Hs2). reflexivity.
Qed.

(** X8.  [Reduce(reducer, keys)] on a stream whose rows all have the key
    columns calls the reducer once for every group, in order, and yields
    what the calls yield, one after the other.  The groups, put end to
    end, are the stream; no group is empty; the key of a group is the key
    of its first row and equals the key of each of its rows; and the keys
    of two groups that follow each other are not equal: a group is a
    longest run of rows with equal keys. *)
Theorem Reduce_groups (reducer : Reducer) (keys : list string)
    (rows : list TRow) :
  has_keys keys rows ->
  exists groups : list (list value * list TRow),
    groupby keys rows = Ok groups /\
    Reduce_call reducer keys (Ok rows)
    = concatM (fun g : list value * list TRow => reducer keys g.2) groups /\
    concat (map snd groups) = rows /\
    Forall (keyed_group keys) groups /\
    keys_change groups.
Proof.
  intros Hkeys. destruct (groupby_total keys rows Hkeys) as [gs Hgs].
  destruct (groupby_groups keys rows gs Hgs) as [_ Hcat].
  destruct (groupby_keyed keys rows gs Hgs) as [Hkeyed Hchange].
  exists gs. split; [exact Hgs|]. split.
  - unfold Reduce_call. cbn [mbind result_bind]. rewrite Hgs. reflexivity.
  - split; [exact Hcat|]. split; [exact Hkeyed|exact Hchange].
Qed.

(** ** [Join] on an empty input, and without keys *)

Lemma join_inner_nil_r (joiner : Joiner) (keys : list string)
    (groups_a : list (list value * list TRow)) :
  join_inner joiner keys groups_a [] = Ok [].
Proof.
  induction groups_a as [|[ka ga] gs IH]; [reflexivity|].
  cbn [join_inner while_less mbind result_bind]. exact IH.
Qed.

Lemma join_right_nil_r (joiner : Joiner) (keys : list string)
    (groups_a : list (list value * list TRow)) :
  join_right joiner keys groups_a [] = Ok [].
Proof.
  induction groups_a as [|[ka ga] gs IH]; [reflexivity|].
  cbn [join_right while_less mbind result_bind]. rewrite IH. reflexivity.
Qed.

Lemma join_left_nil_r (sa sb : string) (keys : list string)
    (groups_a : list (list value * list TRow)) :
  join_left (LeftJoiner sa sb) keys groups_a [] = Ok (concat (map snd groups_a)).
Proof.
  induction groups_a as [|[ka ga] gs IH]; [reflexivity|].
  cbn [join_left while_less mbind result_bind]. rewrite IH. reflexivity.
Qed.

Lemma join_outer_nil_r (sa sb : string) (keys : list string)
    (groups_a : list (list value * list TRow)) :
  join_outer (OuterJoiner sa sb) keys groups_a [] = Ok (concat (map snd groups_a)).
Proof.
  induction groups_a as [|[ka ga] gs IH]; [reflexivity|].
  cbn [join_outer while_less mbind result_bind]. rewrite IH. reflexivity.
Qed.

Lemma drain_right_groups (joiner : Joiner) (keys : list string)
    (groups_b : list (list value * list TRow)) :
  match joiner with OuterJoiner _ _ | RightJoiner _ _ => True | _ => False end ->
  Forall (fun g : list value * list TRow => g.2 <> []) groups_b ->
  drain_right joiner keys groups_b = Ok (concat (map snd groups_b)).
Proof.
  intros Hj. unfold drain_right. induction 1 as [|[kb gb] gs Hg _ IH].
  - reflexivity.
  - cbn [concatM map concat snd]. rewrite IH. cbn [snd] in Hg.
    destruct joiner as [| sa sb | | sa sb |]; try contradiction;
      cbn [Joiner_call]; unfold OuterJoiner_call, RightJoiner_call.
    + rewrite (length_nonzero gb Hg). reflexivity.
    + reflexivity.
Qed.

Lemma groups_nonempty (keys : list string)
    (gs : list (list value * list TRow)) :
  Forall (fun g : list value * list TRow => is_group keys g.2) gs ->
  Forall (fun g : list value * list TRow => g.2 <> []) gs.
Proof.
  intros H. eapply Forall_impl; [exact H|].
  intros g Hg E. cbn beta in Hg. rewrite E in Hg. exact Hg.
Qed.

(** X9.  [Join] with an empty input, the other one having the key columns
    in every row.  When the right input is empty, the left and the outer
    join yield the rows of the left input, unchanged and in their order,
    and the inner and the right join yield nothing.  When the left input
    is empty, the right and the outer join yield the rows of the right
    input and the inner and the left join yield nothing. *)
Theorem Join_with_an_empty_input (joiner : Joiner) (keys : list string)
    (rows : list TRow) :
  known_joiner joiner -> has_keys keys rows ->
  Join_call joiner keys (Ok rows) (Ok [])
  = Ok (match joiner with
        | OuterJoiner _ _ | LeftJoiner _ _ => rows
        | _ => []
        end) /\
  Join_call joiner keys (Ok []) (Ok rows)
  = Ok (match joiner with
        | OuterJoiner _ _ | RightJoiner _ _ => rows
        | _ => []
        end).
Proof.
  intros Hj Hkeys. destruct (groupby_total keys rows Hkeys) as [gs Hgs].
  destruct (groupby_groups keys rows gs Hgs) as [Hall Hcat].
  unfold Join_call. cbn [mbind result_bind groupby]. rewrite Hgs.
  cbn [mbind result_bind]. split.
  - destruct joiner as [sa sb|sa sb|sa sb|sa sb|call]; [| | | |contradiction].
    + apply join_inner_nil_r.
    + rewrite join_outer_nil_r, Hcat. reflexivity.
    + rewrite join_left_nil_r, Hcat. reflexivity.
    + apply join_right_nil_r.
  - destruct joiner as [sa sb|sa sb|sa sb|sa sb|call]; [| | | |contradiction];
      cbn [join_inner join_outer join_left join_right]; try reflexivity.
    + rewrite drain_right_groups, Hcat;
        [reflexivity|exact I|exact (groups_nonempty keys gs Hall)].
    + rewrite drain_right_groups, Hcat;
        [reflexivity|exact I|exact (groups_nonempty keys gs Hall)].
Qed.

Lemma groupby_go_no_keys (rows : list TRow) :
  forall acc, groupby_go [] [] acc rows = Ok [([], rev acc ++ rows)].
Proof.
  induction rows as [|row rows IH]; intros acc; cbn [groupby_go].
  - rewrite app_nil_r. reflexivity.
  - cbn [key_of mapM mbind result_bind tuple_eqb]. rewrite IH. cbn [rev].
    rewrite <- app_assoc. reflexivity.
Qed.

Lemma groupby_no_keys (row : TRow) (rows : list TRow) :
  groupby [] (row :: rows) = Ok [([], row :: rows)].
Proof.
  cbn [groupby key_of mapM mbind result_bind]. apply groupby_go_no_keys.
Qed.

(** X10.  [Join] with no key column is a cross join: when neither input is
    empty, all rows of the left input and all rows of the right input are
    handed to the joiner in one call, whatever the strategy. *)
Theorem Join_without_keys (joiner : Joiner) (rows_a rows_b : list TRow) :
  known_joiner joiner -> rows_a <> [] -> rows_b <> [] ->
  Join_call joiner [] (Ok rows_a) (Ok rows_b)
  = Joiner_call joiner [] rows_a rows_b.
Proof.
  intros Hj Ha Hb.
  destruct rows_a as [|ra rows_a]; [contradiction|].
  destruct rows_b as [|rb rows_b]; [contradiction|].
  unfold Join_call. cbn [mbind result_bind].
  rewrite !groupby_no_keys. cbn [mbind result_bind].
  destruct joiner as [sa sb|sa sb|sa sb|sa sb|call]; [| | | |contradiction];
    cbn [join_inner join_outer join_left join_right while_less Join_is_less
         length Nat.eqb is_less_zip mbind result_bind tuple_eqb].
  - apply bind_ret_nil_app.
  - destruct (Joiner_call _ _ _ _); [|reflexivity].
    cbn. rewrite app_nil_r. reflexivity.
  - destruct (Joiner_call _ _ _ _); [|reflexivity].
    cbn. rewrite app_nil_r. reflexivity.
  - destruct (Joiner_call _ _ _ _); [|reflexivity].
    cbn. rewrite app_nil_r. reflexivity.
Qed.

(** ** The order of [Join._is_less] *)

Lemma ltb_Lt (x y : string) : String.ltb x y = true <-> String.compare x y = Lt.
Proof.
  unfold String.ltb. destruct (String.compare x y); split; congruence.
Qed.

Lemma ltb_trans (x y z : string) :
  String.ltb x y = true -> String.ltb y z = true -> String.ltb x z = true.
Proof.
  rewrite !ltb_Lt. intros Hxy Hyz.
  assert (Hle : String.le x z).
  { transitivity y; unfold String.le, String.leb; [rewrite Hxy|rewrite Hyz];
      exact I. }
  unfold String.le, String.leb in Hle.
  destruct (String.compare x z) eqn:E; [|reflexivity|contradiction].
  apply String.compare_eq_iff in E. subst z.
  rewrite String.compare_antisym, Hxy in Hyz. discriminate.
Qed.

Lemma lex_lt_irrefl (xs : list string) : ~ lex_lt xs xs.
Proof.
  induction xs as [|x xs IH]; intros H.
  - inversion H.
  - apply lex_lt_cons in H. destruct H as [H|[_ H]]; [|exact (IH H)].
    rewrite ltb_irrefl in H. discriminate.
Qed.

Lemma lex_lt_trans (xs ys zs : list string) :
  lex_lt xs ys -> lex_lt ys zs -> lex_lt xs zs.
Proof.
  intros H. revert zs. induction H as [y ys|x y xs ys Hxy|x xs ys H IH];
    intros zs H'.
  - inversion H'; subst; constructor.
  - destruct zs as [|z zs]; [inversion H'|].
    apply lex_lt_cons in H'. destruct H' as [Hyz|[-> _]].
    + apply lex_lt_head. exact (ltb_trans _ _ _ Hxy Hyz).
    + apply lex_lt_head. exact Hxy.
  - destruct zs as [|z zs]; [inversion H'|].
    apply lex_lt_cons in H'. destruct H' as [Hxz|[-> H']].
    + apply lex_lt_head. exact Hxz.
    + apply lex_lt_tail. exact (IH _ H').
Qed.

Lemma lex_lt_total (xs ys : list string) :
  length xs = length ys -> lex_lt xs ys \/ xs = ys \/ lex_lt ys xs.
Proof.
  revert ys. induction xs as [|x xs IH]; intros [|y ys] Hlen;
    try discriminate.
  - right. left. reflexivity.
  - injection Hlen as Hlen.
    destruct (String.ltb x y) eqn:Hxy; [left; apply lex_lt_head; exact Hxy|].
    destruct (String.ltb y x) eqn:Hyx;
      [right; right; apply lex_lt_head; exact Hyx|].
    rewrite (ltb_trichotomy x y Hxy Hyx).
    destruct (IH ys Hlen) as [H|[->|H]].
    + left. apply lex_lt_tail. exact H.
    + right. left. reflexivity.
    + right. right. apply lex_lt_tail. exact H.
Qed.

Lemma is_less_zip_false (a b : list value) :
  length a = length b ->
  is_less_zip a b = false <->
  map py_str a = map py_str b \/ lex_lt (map py_str b) (map py_str a).
Proof.
  intros Hlen. split.
  - intros Hf.
    destruct (lex_lt_total (map py_str a) (map py_str b)) as [H|[H|H]].
    + rewrite !length_map. exact Hlen.
    + apply is_less_zip_lex in H; [congruence|exact Hlen].
    + left. exact H.
    + right. exact H.
  - intros H. destruct (is_less_zip a b) eqn:E; [|reflexivity].
    apply is_less_zip_lex in E; [|exact Hlen]. exfalso. destruct H as [H|H].
    + rewrite H in E. exact (lex_lt_irrefl _ E).
    + exact (lex_lt_irrefl _ (lex_lt_trans _ _ _ E H)).
Qed.

Lemma is_less_zip_trans (a b c : list value) :
  length a = length b -> length b = length c ->
  is_less_zip a b = true -> is_less_zip b c = true -> is_less_zip a c = true.
Proof.
  intros Hab Hbc H1 H2.
  apply is_less_zip_lex in H1; [|exact Hab].
  apply is_less_zip_lex in H2; [|exact Hbc].
  apply is_less_zip_lex; [congruence|]. exact (lex_lt_trans _ _ _ H1 H2).
Qed.

(** not above, then below: [a <= b < c] gives [a < c] *)
Lemma is_less_zip_le_lt (a b c : list value) :
  length a = length b -> length b = length c ->
  is_less_zip b a = false -> is_less_zip b c = true -> is_less_zip a c = true.
Proof.
  intros Hab Hbc H1 H2.
  apply is_less_zip_false in H1; [|congruence].
  apply is_less_zip_lex in H2; [|exact Hbc].
  apply is_less_zip_lex; [congruence|]. destruct H1 as [H1|H1].
  - rewrite <- H1. exact H2.
  - exact (lex_lt_trans _ _ _ H1 H2).
Qed.

(** X11.  [Join._is_less] is a strict order on the tuples of one length,
    total up to the strings of the components: no tuple is below itself;
    of two tuples at most one is below the other; below is transitive;
    and two tuples neither of which is below the other have the same
    strings, component by component.  On tuples of different lengths the
    assertion fails. *)
Theorem Join_is_less_strict_order (a b c : list value) :
  length a = length b -> length b = length c ->
  Join_is_less a a = Ok false /\
  (Join_is_less a b = Ok true -> Join_is_less b a = Ok false) /\
  (Join_is_less a b = Ok true -> Join_is_less b c = Ok true ->
   Join_is_less a c = Ok true) /\
  (Join_is_less a b = Ok false -> Join_is_less b a = Ok false ->
   map py_str a = map py_str b) /\
  (forall d, length d <> length a -> Join_is_less a d = Raise AssertionError).
Proof.
  intros Hab Hbc. unfold Join_is_less.
  rewrite <- !Hbc, <- !Hab, !Nat.eqb_refl.
  split; [|split; [|split; [|split]]].
  - f_equal. apply is_less_zip_false; [reflexivity|]. left. reflexivity.
  - intros [= H]. f_equal. apply is_less_zip_false; [congruence|].
    right. apply is_less_zip_lex in H; assumption.
  - intros [= H1] [= H2]. f_equal.
    exact (is_less_zip_trans a b c Hab Hbc H1 H2).
  - intros [= H1] [= H2].
    apply is_less_zip_false in H1; [|exact Hab].
    apply is_less_zip_false in H2; [|congruence].
    destruct H1 as [H1|H1]; [exact H1|]. destruct H2 as [H2|H2]; [congruence|].
    exfalso. exact (lex_lt_irrefl _ (lex_lt_trans _ _ _ H1 H2)).
  - intros d Hd. destruct (Nat.eqb_spec (length a) (length d)) as [E|_];
      [congruence|reflexivity].
Qed.

(** ** [Join] on inputs sorted as it expects *)

Lemma tuple_eqb_exact (a b : list value) :
  Forall exact a -> Forall exact b -> tuple_eqb a b = true -> a = b.
Proof.
  intros Ha. revert b. induction Ha as [|x a Hx _ IH]; intros b Hb H.
  - destruct b; [reflexivity|discriminate].
  - destruct b as [|y b]; [discriminate|]. inversion Hb as [|? ? Hy Hb']; subst.
    cbn [tuple_eqb] in H. apply andb_true_iff in H as [H1 H2].
    apply py_eqb_exact in H1; [|assumption..]. subst y.
    rewrite (IH b Hb' H2). reflexivity.
Qed.

Lemma less_not_equal (a b : list value) :
  length a = length b -> Forall exact a -> Forall exact b ->
  is_less_zip a b = true -> tuple_eqb a b = false /\ tuple_eqb b a = false.
Proof.
  intros Hlen Ha Hb Hlt.
  assert (Hne : a <> b).
  { intros ->. apply is_less_zip_lex in Hlt; [|reflexivity].
    exact (lex_lt_irrefl _ Hlt). }
  split.
  - destruct (tuple_eqb a b) eqn:E; [|reflexivity].
    exfalso. apply Hne. exact (tuple_eqb_exact a b Ha Hb E).
  - destruct (tuple_eqb b a) eqn:E; [|reflexivity].
    exfalso. apply Hne. symmetry. exact (tuple_eqb_exact b a Hb Ha E).
Qed.

Lemma find_skip {A : Type} (f : A -> bool) (l1 l2 : list A) :
  Forall (fun x => f x = false) l1 -> find f (l1 ++ l2) = find f l2.
Proof.
  induction 1 as [|x l1 Hx _ IH]; [reflexivity|].
  cbn [app find]. rewrite Hx. exact IH.
Qed.

Lemma find_none {A : Type} (f : A -> bool) (l : list A) :
  Forall (fun x => f x = false) l -> find f l = None.
Proof.
  intros H. rewrite <- (app_nil_r l). rewrite (find_skip f l [] H). reflexivity.
Qed.

Lemma concatM_ext {A B : Type} (f g : A -> result (list B)) (l : list A) :
  Forall (fun a => f a = g a) l -> concatM f l = concatM g l.
Proof.
  induction 1 as [|a l Ha _ IH]; [reflexivity|].
  cbn [concatM]. rewrite Ha, IH. reflexivity.
Qed.

(** The loop that passes over the groups of the right input below the
    key of the left group, when nothing is yielded for them. *)
Lemma while_less_skip (group_key_a : list value)
    (groups_b : list (list value * list TRow)) :
  Forall (fun g : list value * list TRow => length g.1 = length group_key_a)
         groups_b ->
  exists dropped kept,
    groups_b = dropped ++ kept /\
    Forall (fun g : list value * list TRow =>
              is_less_zip g.1 group_key_a = true) dropped /\
    match kept with
    | [] => True
    | g :: _ => is_less_zip g.1 group_key_a = false
    end /\
    while_less (fun _ => Ok []) group_key_a groups_b = Ok ([], kept).
Proof.
  induction 1 as [|[kb gb] gs Hlen _ IH].
  - exists [], []. repeat split; constructor.
  - cbn [fst] in Hlen. cbn [while_less]. unfold Join_is_less.
    rewrite Hlen, Nat.eqb_refl. cbn [mbind result_bind].
    destruct (is_less_zip kb group_key_a) eqn:Hlt.
    + destruct IH as (dropped & kept & -> & Hd & Hk & ->).
      exists ((kb, gb) :: dropped), kept.
      split; [reflexivity|]. split; [constructor; assumption|].
      split; [exact Hk|reflexivity].
    + exists [], ((kb, gb) :: gs).
      split; [reflexivity|]. split; [constructor|]. split; [exact Hlt|reflexivity].
Qed.

Lemma key_sorted_app_r (l1 l2 : list (list value * list TRow)) :
  key_sorted (l1 ++ l2) -> key_sorted l2.
Proof.
  induction l1 as [|g l1 IH]; [exact (fun H => H)|].
  intros [_ H]. exact (IH H).
Qed.

(** Groups of the right input below the key of a left group match
    neither that group nor a later one. *)
Lemma matching_group_skip (n : nat) (group_key_a : list value)
    (dropped kept : list (list value * list TRow)) (key : list value) :
  length group_key_a = n -> length key = n -> Forall exact key ->
  Forall (fun g : list value * list TRow => length g.1 = n) dropped ->
  exact_keys dropped ->
  Forall (fun g : list value * list TRow =>
            is_less_zip g.1 group_key_a = true) dropped ->
  key = group_key_a \/ is_less_zip group_key_a key = true ->
  matching_group key (dropped ++ kept) = matching_group key kept.
Proof.
  intros Hka Hkey Hex Hlen Hexd Hlt Hcase. unfold matching_group.
  apply find_skip. unfold exact_keys in Hexd.
  rewrite Forall_forall in Hlen, Hexd, Hlt. apply Forall_forall.
  intros g Hg.
  assert (Hgk : is_less_zip g.1 key = true).
  { destruct Hcase as [->|Hcase]; [exact (Hlt g Hg)|].
    apply (is_less_zip_trans g.1 group_key_a key);
      [rewrite (Hlen g Hg); congruence|congruence|exact (Hlt g Hg)|exact Hcase]. }
  apply (less_not_equal g.1 key);
    [rewrite (Hlen g Hg); congruence|exact (Hexd g Hg)|exact Hex|exact Hgk].
Qed.

Lemma join_inner_sorted (joiner : Joiner) (keys : list string) (n : nat)
    (groups_a : list (list value * list TRow)) :
  forall groups_b,
    walk_inputs n groups_a groups_b ->
    join_inner joiner keys groups_a groups_b
    = inner_join_of joiner keys groups_a groups_b.
Proof.
  induction groups_a as [|[ka ga] gsa IH]; intros gsb Hin; [reflexivity|].
  destruct Hin as [(Hla & Hea & Hsa) (Hlb & Heb & Hsb)].
  apply Forall_cons in Hla as [Hka Hla']. cbn [fst] in Hka.
  apply Forall_cons in Hea as [Hxa Hea']. cbn [fst] in Hxa.
  destruct Hsa as [Hlta Hsa]. cbn [fst] in Hlta.
  cbn [join_inner].
  destruct (while_less_skip ka gsb) as (dropped & kept & -> & Hd & Hk & ->).
  { eapply Forall_impl; [exact Hlb|]. intros g Hg. cbn beta in *. congruence. }
  cbn [mbind result_bind].
  apply Forall_app in Hlb as [Hlbd Hlbk]. apply Forall_app in Heb as [Hebd Hebk].
  apply key_sorted_app_r in Hsb.
  (* the groups passed over match no group from here on *)
  transitivity (inner_join_of joiner keys ((ka, ga) :: gsa) kept).
  2:{ unfold inner_join_of. symmetry. apply concatM_ext. constructor.
      - cbn [fst]. rewrite (matching_group_skip n ka dropped kept ka); auto.
      - rewrite Forall_forall in Hlta, Hla', Hea'. apply Forall_forall.
        intros g Hg.
        rewrite (matching_group_skip n ka dropped kept g.1); auto. }
  unfold inner_join_of at 1. cbn [concatM fst snd].
  fold (inner_join_of joiner keys gsa kept).
  destruct kept as [|[kb gb] kept'].
  - cbn [matching_group find]. cbn [mbind result_bind].
    rewrite bind_ret_app_nil. apply IH. repeat split; auto; constructor.
  - apply Forall_cons in Hlbk as [Hkb Hlbk']. cbn [fst] in Hkb.
    apply Forall_cons in Hebk as [Hxb Hebk']. cbn [fst] in Hxb.
    destruct Hsb as [Hltb Hsb]. cbn [fst] in Hltb, Hk.
    unfold matching_group at 1. cbn [find fst].
    destruct (tuple_eqb ka kb) eqn:Heq.
    + cbn [snd]. assert (ka = kb) as <- by exact (tuple_eqb_exact _ _ Hxa Hxb Heq).
      rewrite (IH kept') by (repeat split; auto).
      f_equal. unfold inner_join_of. 
      assert (Hext : concatM
                (fun g : list value * list TRow =>
                   match matching_group g.1 kept' with
                   | Some gb0 => Joiner_call joiner keys g.2 gb0.2
                   | None => Ok []
                   end) gsa
              = concatM
                (fun g : list value * list TRow =>
                   match matching_group g.1 ((ka, gb) :: kept') with
                   | Some gb0 => Joiner_call joiner keys g.2 gb0.2
                   | None => Ok []
                   end) gsa).
      { apply concatM_ext. rewrite Forall_forall in Hlta, Hla', Hea'.
        apply Forall_forall. intros g Hg.
        unfold matching_group at 2. cbn [find fst].
        destruct (less_not_equal ka g.1) as [_ ->]; auto.
        rewrite (Hla' g Hg). exact Hka. }
      rewrite Hext. reflexivity.
    + fold (matching_group ka kept').
      unfold matching_group. rewrite find_none.
      * cbn [mbind result_bind]. rewrite bind_ret_app_nil.
        apply IH. repeat split; auto; constructor; assumption.
      * rewrite Forall_forall in Hltb, Hlbk', Hebk'. apply Forall_forall.
        intros g Hg.
        apply (less_not_equal ka g.1);
          [rewrite (Hlbk' g Hg); exact Hka|exact Hxa|exact (Hebk' g Hg)|].
        apply (is_less_zip_le_lt ka kb g.1);
          [congruence|rewrite (Hlbk' g Hg); congruence|exact Hk|exact (Hltb g Hg)].
Qed.

Lemma join_left_sorted (joiner : Joiner) (keys : list string) (n : nat)
    (groups_a : list (list value * list TRow)) :
  forall groups_b,
    walk_inputs n groups_a groups_b ->
    join_left joiner keys groups_a groups_b
    = left_join_of joiner keys groups_a groups_b.
Proof.
  induction groups_a as [|[ka ga] gsa IH]; intros gsb Hin; [reflexivity|].
  destruct Hin as [(Hla & Hea & Hsa) (Hlb & Heb & Hsb)].
  apply Forall_cons in Hla as [Hka Hla']. cbn [fst] in Hka.
  apply Forall_cons in Hea as [Hxa Hea']. cbn [fst] in Hxa.
  destruct Hsa as [Hlta Hsa]. cbn [fst] in Hlta.
  cbn [join_left].
  destruct (while_less_skip ka gsb) as (dropped & kept & -> & Hd & Hk & ->).
  { eapply Forall_impl; [exact Hlb|]. intros g Hg. cbn beta in *. congruence. }
  cbn [mbind result_bind].
  apply Forall_app in Hlb as [Hlbd Hlbk]. apply Forall_app in Heb as [Hebd Hebk].
  apply key_sorted_app_r in Hsb.
  transitivity (left_join_of joiner keys ((ka, ga) :: gsa) kept).
  2:{ unfold left_join_of. symmetry. apply concatM_ext. constructor.
      - cbn [fst]. rewrite (matching_group_skip n ka dropped kept ka); auto.
      - rewrite Forall_forall in Hlta, Hla', Hea'. apply Forall_forall.
        intros g Hg.
        rewrite (matching_group_skip n ka dropped kept g.1); auto. }
  unfold left_join_of at 1. cbn [concatM fst snd].
  fold (left_join_of joiner keys gsa kept).
  destruct kept as [|[kb gb] kept'].
  - cbn [matching_group find]. rewrite (IH []); [reflexivity|].
    repeat split; auto; constructor.
  - apply Forall_cons in Hlbk as [Hkb Hlbk']. cbn [fst] in Hkb.
    apply Forall_cons in Hebk as [Hxb Hebk']. cbn [fst] in Hxb.
    destruct Hsb as [Hltb Hsb]. cbn [fst] in Hltb, Hk.
    unfold matching_group at 1. cbn [find fst].
    destruct (tuple_eqb ka kb) eqn:Heq.
    + cbn [snd]. assert (ka = kb) as <- by exact (tuple_eqb_exact _ _ Hxa Hxb Heq).
      rewrite (IH ((ka, []) :: kept'))
        by (repeat split; auto; constructor; assumption).
      f_equal. unfold left_join_of.
      assert (Hext : concatM
                (fun g : list value * list TRow =>
                   match matching_group g.1 ((ka, []) :: kept') with
                   | Some gb0 => Joiner_call joiner keys g.2 gb0.2
                   | None => Joiner_call joiner keys g.2 []
                   end) gsa
              = concatM
                (fun g : list value * list TRow =>
                   match matching_group g.1 ((ka, gb) :: kept') with
                   | Some gb0 => Joiner_call joiner keys g.2 gb0.2
                   | None => Joiner_call joiner keys g.2 []
                   end) gsa).
      { apply concatM_ext. rewrite Forall_forall in Hlta, Hla', Hea'.
        apply Forall_forall. intros g Hg.
        unfold matching_group. cbn [find fst].
        destruct (less_not_equal ka g.1) as [_ ->]; auto.
        rewrite (Hla' g Hg). exact Hka. }
      rewrite Hext. reflexivity.
    + fold (matching_group ka kept').
      unfold matching_group. rewrite find_none.
      * rewrite (IH ((kb, gb) :: kept')); [reflexivity|].
        repeat split; auto; constructor; assumption.
      * rewrite Forall_forall in Hltb, Hlbk', Hebk'. apply Forall_forall.
        intros g Hg.
        apply (less_not_equal ka g.1);
          [rewrite (Hlbk' g Hg); exact Hka|exact Hxa|exact (Hebk' g Hg)|].
        apply (is_less_zip_le_lt ka kb g.1);
          [congruence|rewrite (Hlbk' g Hg); congruence|exact Hk|exact (Hltb g Hg)].
Qed.

Lemma groupby_key_lengths (keys : list string) (rows : list TRow)
    (gs : list (list value * list TRow)) :
  groupby keys rows = Ok gs ->
  Forall (fun g : list value * list TRow => length g.1 = length keys) gs.
Proof.
  intros H. destruct (groupby_keyed keys rows gs H) as [Hk _].
  eapply Forall_impl; [exact Hk|].
  intros g (first & others & _ & Hkey & _). exact (key_of_length _ _ _ Hkey).
Qed.

(** X12.  The inner join on sorted inputs.  When the keys of the groups
    of both inputs hold integers and strings and go up strictly in the
    order of [Join._is_less], [Join(InnerJoiner(), keys)] calls the joiner
    once for every group of the left input that has a group of the right
    input with an equal key, on these two groups, in the order of the left
    input, and yields nothing else. *)
Theorem Join_inner_on_sorted_inputs (sa sb : string) (keys : list string)
    (rows_a rows_b : list TRow)
    (groups_a groups_b : list (list value * list TRow)) :
  groupby keys rows_a = Ok groups_a -> groupby keys rows_b = Ok groups_b ->
  exact_keys groups_a -> exact_keys groups_b ->
  key_sorted groups_a -> key_sorted groups_b ->
  Join_call (InnerJoiner sa sb) keys (Ok rows_a) (Ok rows_b)
  = inner_join_of (InnerJoiner sa sb) keys groups_a groups_b.
Proof.
  intros Ha Hb Hea Heb Hsa Hsb. unfold Join_call.
  cbn [mbind result_bind]. rewrite Hb. cbn [mbind result_bind]. rewrite Ha.
  cbn [mbind result_bind].
  apply (join_inner_sorted _ keys (length keys)).
  split; (split; [eapply groupby_key_lengths; eassumption|split; assumption]).
Qed.

(** X13.  The left join on sorted inputs.  Under the same conditions
    [Join(LeftJoiner(), keys)] calls the joiner once for every group of
    the left input, in order: on the group and the group of the right
    input with an equal key, or on the group and no rows when the right
    input has no such group. *)
Theorem Join_left_on_sorted_inputs (sa sb : string) (keys : list string)
    (rows_a rows_b : list TRow)
    (groups_a groups_b : list (list value * list TRow)) :
  groupby keys rows_a = Ok groups_a -> groupby keys rows_b = Ok groups_b ->
  exact_keys groups_a -> exact_keys groups_b ->
  key_sorted groups_a -> key_sorted groups_b ->
  Join_call (LeftJoiner sa sb) keys (Ok rows_a) (Ok rows_b)
  = left_join_of (LeftJoiner sa sb) keys groups_a groups_b.
Proof.
  intros Ha Hb Hea Heb Hsa Hsb. unfold Join_call.
  cbn [mbind result_bind]. rewrite Hb. cbn [mbind result_bind]. rewrite Ha.
  cbn [mbind result_bind].
  apply (join_left_sorted _ keys (length keys)).
  split; (split; [eapply groupby_key_lengths; eassumption|split; assumption]).
Qed.

Lemma concatM_app {A B : Type} (f : A -> result (list B)) (l1 l2 : list A) :
  concatM f (l1 ++ l2)
  = out1 ← concatM f l1; out2 ← concatM f l2; Ok (out1 ++ out2).
Proof.
  induction l1 as [|a l1 IH]; cbn [app concatM].
  - cbn [mbind result_bind]. symmetry. apply bind_ret_app_nil.
  - destruct (f a) as [bs|e]; [|reflexivity]. cbn [mbind result_bind].
    rewrite IH. destruct (concatM f l1) as [out1|e]; [|reflexivity].
    cbn [mbind result_bind].
    destruct (concatM f l2) as [out2|e]; [|reflexivity].
    cbn [mbind result_bind]. rewrite app_assoc. reflexivity.
Qed.

(** The loop that passes over the groups of the right input below the
    key of the left group, yielding something for each. *)
Lemma while_less_emit (emit : list TRow -> TRowsGenerator)
    (group_key_a : list value) (groups_b : list (list value * list TRow)) :
  Forall (fun g : list value * list TRow => length g.1 = length group_key_a)
         groups_b ->
  exists dropped kept,
    groups_b = dropped ++ kept /\
    Forall (fun g : list value * list TRow =>
              is_less_zip g.1 group_key_a = true) dropped /\
    match kept with
    | [] => True
    | g :: _ => is_less_zip g.1 group_key_a = false
    end /\
    while_less emit group_key_a groups_b
    = out ← concatM (fun g : list value * list TRow => emit g.2) dropped;
      Ok (out, kept).
Proof.
  induction 1 as [|[kb gb] gs Hlen _ IH].
  - exists [], []. repeat split; constructor.
  - cbn [fst] in Hlen. cbn [while_less]. unfold Join_is_less.
    rewrite Hlen, Nat.eqb_refl. cbn [mbind result_bind].
    destruct (is_less_zip kb group_key_a) eqn:Hlt.
    + destruct IH as (dropped & kept & -> & Hd & Hk & ->).
      exists ((kb, gb) :: dropped), kept.
      split; [reflexivity|]. split; [constructor; assumption|].
      split; [exact Hk|]. cbn [concatM snd].
      destruct (emit gb) as [out|e]; [|reflexivity]. cbn [mbind result_bind].
      destruct (concatM _ dropped) as [rest|e]; reflexivity.
    + exists [], ((kb, gb) :: gs).
      split; [reflexivity|]. split; [constructor|]. split; [exact Hlt|reflexivity].
Qed.

Lemma join_right_sorted (joiner : Joiner) (keys : list string) (n : nat)
    (groups_a : list (list value * list TRow)) :
  Joiner_call joiner keys [] [] = Ok [] ->
  forall groups_b,
    walk_inputs n groups_a groups_b ->
    join_right joiner keys groups_a groups_b
    = right_join_of joiner keys groups_a groups_b.
Proof.
  intros Hnil.
  induction groups_a as [|[ka ga] gsa IH]; intros gsb Hin; [reflexivity|].
  destruct Hin as [(Hla & Hea & Hsa) (Hlb & Heb & Hsb)].
  apply Forall_cons in Hla as [Hka Hla']. cbn [fst] in Hka.
  apply Forall_cons in Hea as [Hxa Hea']. cbn [fst] in Hxa.
  destruct Hsa as [Hlta Hsa]. cbn [fst] in Hlta.
  cbn [join_right].
  destruct (while_less_emit (Joiner_call joiner keys []) ka gsb)
    as (dropped & kept & -> & Hd & Hk & ->).
  { eapply Forall_impl; [exact Hlb|]. intros g Hg. cbn beta in *. congruence. }
  apply Forall_app in Hlb as [Hlbd Hlbk]. apply Forall_app in Heb as [Hebd Hebk].
  apply key_sorted_app_r in Hsb.
  unfold right_join_of. rewrite concatM_app.
  (* a group passed over has no group of the left input with its key *)
  assert (Hdrop : concatM
            (fun gb : list value * list TRow =>
               match find (fun ga0 : list value * list TRow =>
                             tuple_eqb ga0.1 gb.1) ((ka, ga) :: gsa) with
               | Some ga0 => Joiner_call joiner keys ga0.2 gb.2
               | None => Joiner_call joiner keys [] gb.2
               end) dropped
          = concatM (fun g : list value * list TRow =>
                       Joiner_call joiner keys [] g.2) dropped).
  { apply concatM_ext. unfold exact_keys in Hebd.
    rewrite Forall_forall in Hd, Hlbd, Hebd. apply Forall_forall. intros g Hg.
    rewrite find_none; [reflexivity|].
    constructor.
    - cbn [fst]. apply (less_not_equal g.1 ka); auto.
      rewrite (Hlbd g Hg). symmetry. exact Hka.
    - rewrite Forall_forall in Hlta, Hla', Hea'. apply Forall_forall.
      intros a Ha. apply (less_not_equal g.1 a.1); auto.
      + rewrite (Hlbd g Hg), (Hla' a Ha). reflexivity.
      + apply (is_less_zip_trans g.1 ka a.1); auto.
        * rewrite (Hlbd g Hg). symmetry. exact Hka.
        * rewrite (Hla' a Ha). exact Hka. }
  rewrite Hdrop. clear Hdrop.
  destruct (concatM _ dropped) as [skipped|e]; [|reflexivity].
  cbn [mbind result_bind].
  destruct kept as [|[kb gb] kept'].
  - rewrite join_right_nil_r. reflexivity.
  - apply Forall_cons in Hlbk as [Hkb Hlbk']. cbn [fst] in Hkb.
    apply Forall_cons in Hebk as [Hxb Hebk']. cbn [fst] in Hxb.
    destruct Hsb as [Hltb Hsb]. cbn [fst] in Hltb, Hk.
    (* the groups after the current one have no equal in the left group *)
    assert (Htail : concatM
              (fun gb0 : list value * list TRow =>
                 match find (fun ga0 : list value * list TRow =>
                               tuple_eqb ga0.1 gb0.1) ((ka, ga) :: gsa) with
                 | Some ga0 => Joiner_call joiner keys ga0.2 gb0.2
                 | None => Joiner_call joiner keys [] gb0.2
                 end) kept'
            = right_join_of joiner keys gsa kept').
    { apply concatM_ext. rewrite Forall_forall in Hltb, Hlbk', Hebk'.
      apply Forall_forall. intros g Hg. cbn [find fst].
      destruct (less_not_equal ka g.1) as [-> _]; auto.
      - rewrite (Hlbk' g Hg). exact Hka.
      - apply (is_less_zip_le_lt ka kb g.1); auto.
        + congruence.
        + rewrite (Hlbk' g Hg). exact Hkb. }
    cbn [concatM]. rewrite Htail. clear Htail. cbn [find fst snd].
    destruct (tuple_eqb ka kb) eqn:Heq.
    + assert (ka = kb) as <- by exact (tuple_eqb_exact _ _ Hxa Hxb Heq).
      rewrite (IH ((ka, []) :: kept'))
        by (repeat split; auto; constructor; assumption).
      unfold right_join_of at 1. cbn [concatM fst snd].
      rewrite find_none.
      2:{ rewrite Forall_forall in Hlta, Hla', Hea'. apply Forall_forall.
          intros a Ha. apply (less_not_equal ka a.1); auto.
          rewrite (Hla' a Ha). exact Hka. }
      rewrite Hnil. cbn [mbind result_bind]. rewrite bind_ret_app_nil.
      fold (right_join_of joiner keys gsa kept').
      destruct (Joiner_call joiner keys ga gb) as [out|e]; [|reflexivity].
      cbn [mbind result_bind].
      destruct (right_join_of joiner keys gsa kept') as [rest|e]; reflexivity.
    + rewrite (IH ((kb, gb) :: kept'))
        by (repeat split; auto; constructor; assumption).
      unfold right_join_of at 1. cbn [concatM fst snd].
      fold (right_join_of joiner keys gsa kept').
      destruct (match find _ gsa with Some _ => _ | None => _ end)
        as [out|e]; [|reflexivity].
      cbn [mbind result_bind].
      destruct (right_join_of joiner keys gsa kept') as [rest|e]; reflexivity.
Qed.

(** X14.  The right join on sorted inputs.  Under the same conditions
    [Join(RightJoiner(), keys)] goes by the groups of the right input, in
    order: the joiner is called on the group of the left input with an
    equal key, or on no rows, and the group; the groups of the left input
    without an equal on the right give nothing. *)
Theorem Join_right_on_sorted_inputs (sa sb : string) (keys : list string)
    (rows_a rows_b : list TRow)
    (groups_a groups_b : list (list value * list TRow)) :
  groupby keys rows_a = Ok groups_a -> groupby keys rows_b = Ok groups_b ->
  exact_keys groups_a -> exact_keys groups_b ->
  key_sorted groups_a -> key_sorted groups_b ->
  Join_call (RightJoiner sa sb) keys (Ok rows_a) (Ok rows_b)
  = right_join_of (RightJoiner sa sb) keys groups_a groups_b.
Proof.
  intros Ha Hb Hea Heb Hsa Hsb. unfold Join_call.
  cbn [mbind result_bind]. rewrite Hb. cbn [mbind result_bind]. rewrite Ha.
  cbn [mbind result_bind].
  apply (join_right_sorted _ keys (length keys)); [reflexivity|].
  split; (split; [eapply groupby_key_lengths; eassumption|split; assumption]).
Qed.

(** *** The outer join *)

Lemma is_less_zip_lt_le (a b c : list value) :
  length a = length b -> length b = length c ->
  is_less_zip a b = true -> is_less_zip c b = false -> is_less_zip a c = true.
Proof.
  intros Hab Hbc H1 H2.
  apply is_less_zip_lex in H1; [|exact Hab].
  apply is_less_zip_false in H2; [|congruence].
  apply is_less_zip_lex; [congruence|]. destruct H2 as [H2|H2].
  - rewrite H2. exact H1.
  - exact (lex_lt_trans _ _ _ H1 H2).
Qed.

Lemma tuple_eqb_exact_refl (a : list value) :
  Forall exact a -> tuple_eqb a a = true.
Proof.
  induction 1 as [|x a Hx _ IH]; [reflexivity|].
  cbn [tuple_eqb]. rewrite (py_eqb_exact_refl x Hx), IH. reflexivity.
Qed.

Lemma tuple_eqb_exact_sym (a b : list value) :
  Forall exact a -> Forall exact b -> tuple_eqb a b = tuple_eqb b a.
Proof.
  intros Ha Hb. destruct (tuple_eqb a b) eqn:E1, (tuple_eqb b a) eqn:E2;
    try reflexivity.
  - rewrite (tuple_eqb_exact a b Ha Hb E1) in E2.
    rewrite (tuple_eqb_exact_refl b Hb) in E2. discriminate.
  - rewrite (tuple_eqb_exact b a Hb Ha E2) in E1.
    rewrite (tuple_eqb_exact_refl a Ha) in E1. discriminate.
Qed.

(** Keys of [n] components that hold integers and strings. *)
Lemma below_above (n : nat) (a b : list value) :
  length a = n -> length b = n -> Forall exact a -> Forall exact b ->
  is_less_zip a b = true -> above a b.
Proof.
  intros Ha Hb Hxa Hxb Hlt. split.
  - apply is_less_zip_false; [congruence|]. right.
    apply is_less_zip_lex in Hlt; [exact Hlt|congruence].
  - apply (less_not_equal a b); [congruence|assumption..].
Qed.

Lemma below_below_above (n : nat) (a b c : list value) :
  length a = n -> length b = n -> length c = n ->
  Forall exact a -> Forall exact c ->
  is_less_zip a b = true -> is_less_zip c b = false -> above a c.
Proof.
  intros Ha Hb Hc Hxa Hxc H1 H2.
  apply (below_above n a c); try assumption.
  apply (is_less_zip_lt_le a b c); congruence.
Qed.

Lemma rows_of_skip (key : list value)
    (l1 l2 : list (list value * list TRow)) :
  Forall (fun g : list value * list TRow => tuple_eqb key g.1 = false) l1 ->
  rows_of key (l1 ++ l2) = rows_of key l2.
Proof.
  intros H. unfold rows_of, matching_group. rewrite (find_skip _ l1 l2 H).
  reflexivity.
Qed.

Lemma rows_of_none (key : list value) (l : list (list value * list TRow)) :
  Forall (fun g : list value * list TRow => tuple_eqb key g.1 = false) l ->
  rows_of key l = [].
Proof.
  intros H. unfold rows_of, matching_group. rewrite (find_none _ l H).
  reflexivity.
Qed.

Lemma rows_of_cons (key key' : list value) (g : list TRow)
    (l : list (list value * list TRow)) :
  rows_of key ((key', g) :: l)
  = if tuple_eqb key key' then g else rows_of key l.
Proof.
  unfold rows_of, matching_group. cbn [find fst].
  destruct (tuple_eqb key key'); reflexivity.
Qed.

Lemma concatM_map {A B C : Type} (f : B -> result (list C)) (g : A -> B)
    (l : list A) :
  concatM f (map g l) = concatM (fun a => f (g a)) l.
Proof.
  induction l as [|a l IH]; [reflexivity|].
  cbn [map concatM]. rewrite IH. reflexivity.
Qed.

Lemma keys_ordered_app (l1 l2 : list (list value)) :
  keys_ordered l1 -> keys_ordered l2 ->
  (forall x y, x ∈ l1 -> y ∈ l2 -> above x y) ->
  keys_ordered (l1 ++ l2).
Proof.
  induction l1 as [|x l1 IH]; intros H1 H2 H; [exact H2|].
  destruct H1 as [Hx H1]. cbn [app keys_ordered]. split.
  - apply Forall_app. split; [exact Hx|].
    apply Forall_forall. intros y Hy. apply H; [left|exact Hy].
  - apply IH; [exact H1|exact H2|].
    intros x' y Hx' Hy. apply H; [right; exact Hx'|exact Hy].
Qed.

(** The facts about one input, by membership. *)
Lemma sorted_groups_facts (n : nat) (gs : list (list value * list TRow)) :
  Forall (fun g : list value * list TRow => length g.1 = n) gs ->
  exact_keys gs -> key_sorted gs ->
  (forall g, g ∈ gs -> length g.1 = n /\ Forall exact g.1) /\
  keys_ordered (map fst gs) /\
  (forall g, g ∈ gs -> rows_of g.1 gs = g.2).
Proof.
  intros Hl Hx Hs. unfold exact_keys in Hx.
  assert (Hmem : forall g, g ∈ gs -> length g.1 = n /\ Forall exact g.1).
  { rewrite Forall_forall in Hl, Hx. intros g Hg. split; auto. }
  split; [exact Hmem|]. clear Hl Hx.
  induction gs as [|[k0 g0] gs IH]; [split; [exact I|intros g Hg; inversion Hg]|].
  destruct Hs as [Hlt Hs]. cbn [fst] in Hlt.
  destruct IH as [IH1 IH2]; [exact Hs|intros g Hg; apply Hmem; right; exact Hg|].
  destruct (Hmem (k0, g0)) as [Hk0 Hx0]; [left|]. cbn [fst] in Hk0, Hx0.
  assert (Habove : forall g, g ∈ gs -> above k0 g.1).
  { rewrite Forall_forall in Hlt. intros g Hg.
    destruct (Hmem g) as [Hg1 Hg2]; [right; exact Hg|].
    apply (below_above n); auto. }
  split.
  - cbn [map keys_ordered fst]. split; [|exact IH1].
    apply Forall_forall. intros k Hk.
    apply list_elem_of_fmap in Hk as (g & -> & Hg). apply Habove, Hg.
  - intros g Hg. apply elem_of_cons in Hg as [->|Hg].
    + cbn [fst snd]. rewrite rows_of_cons, (tuple_eqb_exact_refl k0 Hx0).
      reflexivity.
    + rewrite rows_of_cons. destruct (Habove g Hg) as [_ ->]. apply IH2, Hg.
Qed.

Lemma key_sorted_app_l (l1 l2 : list (list value * list TRow)) :
  key_sorted (l1 ++ l2) -> key_sorted l1.
Proof.
  induction l1 as [|g l1 IH]; [intros _; exact I|].
  intros [H1 H2]. apply Forall_app in H1 as [H1 _].
  split; [exact H1|exact (IH H2)].
Qed.

Lemma key_of_group (gs : list (list value * list TRow)) (k : list value) :
  k ∈ map fst gs <-> exists g, g ∈ gs /\ g.1 = k.
Proof.
  split.
  - intros H. apply list_elem_of_fmap in H as (g & -> & Hg). eauto.
  - intros (g & Hg & <-). apply list_elem_of_fmap. eauto.
Qed.

Lemma join_outer_sorted (joiner : Joiner) (keys : list string) (n : nat)
    (groups_a : list (list value * list TRow)) :
  forall groups_b,
    walk_inputs n groups_a groups_b ->
    exists ks,
      keys_ordered ks /\
      (forall k, k ∈ ks <-> k ∈ map fst groups_a \/ k ∈ map fst groups_b) /\
      join_outer joiner keys groups_a groups_b
      = outer_join_of joiner keys groups_a groups_b ks.
Proof.
  induction groups_a as [|[ka ga] gsa IH]; intros gsb Hin.
  - destruct Hin as [_ (Hlb & Heb & Hsb)].
    destruct (sorted_groups_facts n gsb Hlb Heb Hsb) as (Hmem & Hord & Hself).
    exists (map fst gsb). split; [exact Hord|]. split.
    + intros k. split; [intros H; right; exact H|].
      intros [H|H]; [inversion H|exact H].
    + cbn [join_outer]. unfold drain_right, outer_join_of. rewrite concatM_map.
      apply concatM_ext. apply Forall_forall. intros g Hg. cbn beta.
      rewrite (Hself g Hg). reflexivity.
  - pose proof Hin as [(Hla & Hea & Hsa) (Hlb & Heb & Hsb)].
    destruct (sorted_groups_facts n _ Hla Hea Hsa) as (HmemA & _ & _).
    destruct (sorted_groups_facts n _ Hlb Heb Hsb) as (HmemB & _ & HselfB).
    destruct (HmemA (ka, ga)) as [Hka Hxa]; [left|]. cbn [fst] in Hka, Hxa.
    destruct Hsa as [Hlta Hsa]. cbn [fst] in Hlta.
    rewrite Forall_forall in Hlta.
    apply Forall_cons in Hla as [_ Hla']. apply Forall_cons in Hea as [_ Hea'].
    assert (HmemA' : forall g, g ∈ gsa -> length g.1 = n /\ Forall exact g.1).
    { intros g Hg. apply HmemA. right. exact Hg. }
    cbn [join_outer].
    destruct (while_less_emit (Joiner_call joiner keys []) ka gsb)
      as (dropped & kept & -> & Hd & Hk & ->).
    { eapply Forall_impl; [exact Hlb|]. intros g Hg. cbn beta in *. congruence. }
    rewrite Forall_forall in Hd.
    apply Forall_app in Hlb as [Hlbd Hlbk].
    apply Forall_app in Heb as [Hebd Hebk].
    pose proof (key_sorted_app_r _ _ Hsb) as Hsk.
    pose proof (key_sorted_app_l _ _ Hsb) as Hsd.
    destruct (sorted_groups_facts n _ Hlbd Hebd Hsd) as (HmemD & HordD & _).
    destruct (sorted_groups_facts n _ Hlbk Hebk Hsk) as (HmemK & _ & _).
    set (S0 := concatM (fun g : list value * list TRow =>
                          Joiner_call joiner keys [] g.2) dropped).
    (* what is left to do once the groups to go on with are known *)
    assert (Hfinish : forall kept_rest x_rows,
      walk_inputs n gsa kept_rest ->
      (forall k, k ∈ map fst kept_rest -> k ∈ map fst kept /\ above ka k) ->
      (forall k, k ∈ map fst kept -> k = ka \/ k ∈ map fst kept_rest) ->
      (forall k, above ka k -> rows_of k kept = rows_of k kept_rest) ->
      rows_of ka kept = x_rows ->
      exists ks,
        keys_ordered ks /\
        (forall k, k ∈ ks <->
                   k ∈ map fst ((ka, ga) :: gsa) \/ k ∈ map fst (dropped ++ kept)) /\
        (skipped ← S0;
         out ← Joiner_call joiner keys ga x_rows;
         rest ← join_outer joiner keys gsa kept_rest;
         Ok (skipped ++ out ++ rest))
        = outer_join_of joiner keys ((ka, ga) :: gsa) (dropped ++ kept) ks).
    { intros kept_rest x_rows Hwalk HM1 HM2 Hrows Hx.
      destruct (IH kept_rest Hwalk) as (ks' & Hord' & Hmem' & Heq').
      (* the keys that follow are above the key of the left group *)
      assert (Hks' : forall k, k ∈ ks' ->
                length k = n /\ Forall exact k /\ above ka k).
      { intros k Hin'. apply Hmem' in Hin' as [Hin'|Hin'].
        - apply key_of_group in Hin' as (g & Hg & <-).
          destruct (HmemA' g Hg) as [H1 H2]. split; [exact H1|].
          split; [exact H2|]. apply (below_above n); auto.
        - destruct (HM1 k Hin') as [Hin'' Hab].
          apply key_of_group in Hin'' as (g & Hg & <-).
          destruct (HmemK g Hg) as [H1 H2]. auto. }
      assert (Hdk : forall e k, e ∈ dropped -> above ka k ->
                length k = n -> Forall exact k -> above e.1 k).
      { intros e k He [Hab _] Hlen Hex. destruct (HmemD e He) as [H1 H2].
        apply (below_below_above n e.1 ka k); auto. }
      exists (map fst dropped ++ ka :: ks'). split; [|split].
      - apply keys_ordered_app; [exact HordD| |].
        + cbn [keys_ordered]. split; [|exact Hord'].
          apply Forall_forall. intros k Hin'. apply Hks', Hin'.
        + intros x y Hx' Hy. apply key_of_group in Hx' as (e & He & <-).
          apply elem_of_cons in Hy as [->|Hy].
          * destruct (HmemD e He) as [H1 H2]. apply (below_above n); auto.
          * destruct (Hks' y Hy) as (H1 & H2 & H3). apply Hdk; auto.
      - intros k. rewrite !map_app. cbn [map fst].
        rewrite !elem_of_app, !elem_of_cons, Hmem'. split.
        + intros [H|[H|[H|H]]]; auto. right. right. apply HM1, H.
        + intros [[H|H]|[H|H]]; auto.
          destruct (HM2 k H) as [H'|H']; auto.
      - unfold outer_join_of. rewrite concatM_app, concatM_map.
        assert (E1 : concatM
                  (fun a : list value * list TRow =>
                     Joiner_call joiner keys (rows_of a.1 ((ka, ga) :: gsa))
                                 (rows_of a.1 (dropped ++ kept))) dropped
                = S0).
        { apply concatM_ext. apply Forall_forall. intros e He.
          destruct (HmemD e He) as [H1 H2].
          rewrite (HselfB e) by (apply elem_of_app; left; exact He).
          rewrite rows_of_none; [reflexivity|].
          constructor.
          - cbn [fst]. apply (less_not_equal e.1 ka); auto. congruence.
          - apply Forall_forall. intros a Ha. destruct (HmemA' a Ha) as [H3 H4].
            apply (less_not_equal e.1 a.1); auto; [congruence|].
            apply (is_less_zip_trans e.1 ka a.1); auto; congruence. }
        rewrite E1. clear E1. cbn [concatM].
        assert (E2 : rows_of ka ((ka, ga) :: gsa) = ga).
        { rewrite rows_of_cons, (tuple_eqb_exact_refl ka Hxa). reflexivity. }
        assert (E3 : rows_of ka (dropped ++ kept) = x_rows).
        { rewrite rows_of_skip; [exact Hx|].
          apply Forall_forall. intros e He. destruct (HmemD e He) as [H1 H2].
          apply (less_not_equal e.1 ka); auto. congruence. }
        rewrite E2, E3. clear E2 E3.
        assert (E4 : concatM
                  (fun k : list value =>
                     Joiner_call joiner keys (rows_of k ((ka, ga) :: gsa))
                                 (rows_of k (dropped ++ kept))) ks'
                = join_outer joiner keys gsa kept_rest).
        { rewrite Heq'. unfold outer_join_of. apply concatM_ext.
          apply Forall_forall. intros k Hin'.
          destruct (Hks' k Hin') as (H1 & H2 & Hab).
          rewrite rows_of_cons. rewrite (proj2 Hab).
          rewrite rows_of_skip.
          - rewrite (Hrows k Hab). reflexivity.
          - apply Forall_forall. intros e He.
            destruct (Hdk e k He Hab H1 H2) as [_ H5]. exact H5. }
        rewrite E4. clear E4.
        destruct S0 as [skipped|e]; [|reflexivity]. cbn [mbind result_bind].
        destruct (Joiner_call joiner keys ga x_rows) as [out|e]; [|reflexivity].
        cbn [mbind result_bind].
        destruct (join_outer joiner keys gsa kept_rest) as [rest|e]; reflexivity. }
    destruct kept as [|[kb gb] kept'].
    + destruct (Hfinish [] []) as (ks & H1 & H2 & H3).
      * split; [repeat split; assumption|repeat split; constructor].
      * intros k H. inversion H.
      * intros k H. inversion H.
      * reflexivity.
      * reflexivity.
      * exists ks. split; [exact H1|]. split; [exact H2|]. rewrite <- H3.
        destruct S0; reflexivity.
    + apply Forall_cons in Hlbk as [Hkb Hlbk']. cbn [fst] in Hkb.
      apply Forall_cons in Hebk as [Hxb Hebk']. cbn [fst] in Hxb.
      destruct Hsk as [Hltb Hsk']. cbn [fst] in Hltb, Hk.
      rewrite Forall_forall in Hltb.
      assert (HmemK' : forall g, g ∈ kept' -> length g.1 = n /\ Forall exact g.1).
      { intros g Hg. apply HmemK. right. exact Hg. }
      destruct (tuple_eqb ka kb) eqn:Heq.
      * assert (ka = kb) as <- by exact (tuple_eqb_exact _ _ Hxa Hxb Heq).
        destruct (Hfinish kept' gb) as (ks & H1 & H2 & H3).
        -- split; repeat split; assumption.
        -- intros k H. split; [right; exact H|].
           apply key_of_group in H as (g & Hg & <-).
           destruct (HmemK' g Hg) as [H1 H2]. apply (below_above n); auto.
        -- intros k H. apply elem_of_cons in H as [H|H]; auto.
        -- intros k [_ H]. rewrite rows_of_cons, H. reflexivity.
        -- rewrite rows_of_cons, Heq. reflexivity.
        -- exists ks. split; [exact H1|]. split; [exact H2|]. rewrite <- H3.
           destruct S0; cbn [mbind result_bind]; [|reflexivity].
           rewrite Heq. reflexivity.
      * destruct (Hfinish ((kb, gb) :: kept') []) as (ks & H1 & H2 & H3).
        -- split; [repeat split; assumption|].
           split; [constructor; assumption|].
           split; [constructor; assumption|].
           split; [apply Forall_forall; exact Hltb|exact Hsk'].
        -- intros k H. split; [exact H|].
           apply elem_of_cons in H as [->|H].
           ++ cbn [fst]. split; [exact Hk|].
              rewrite (tuple_eqb_exact_sym kb ka Hxb Hxa). exact Heq.
           ++ apply key_of_group in H as (g & Hg & <-).
              destruct (HmemK' g Hg) as [H1 H2]. apply (below_above n); auto.
              apply (is_less_zip_le_lt ka kb g.1); auto; congruence.
        -- intros k H. right. exact H.
        -- reflexivity.
        -- apply rows_of_none. constructor; [exact Heq|].
           apply Forall_forall. intros g Hg.
           destruct (HmemK' g Hg) as [H1 H2].
           apply (less_not_equal ka g.1); auto; [congruence|].
           apply (is_less_zip_le_lt ka kb g.1); auto; congruence.
        -- exists ks. split; [exact H1|]. split; [exact H2|]. rewrite <- H3.
           destruct S0; cbn [mbind result_bind]; [|reflexivity].
           rewrite Heq. reflexivity.
Qed.

(** X15.  The outer join on sorted inputs.  Under the same conditions
    [Join(OuterJoiner(), keys)] goes by the keys of both inputs, each
    once, in an order in which no key is below a key before it: for every
    key the joiner is called on the rows of the left group with that key
    and the rows of the right group with that key, none for an input that
    has no such group. *)
Theorem Join_outer_on_sorted_inputs (sa sb : string) (keys : list string)
    (rows_a rows_b : list TRow)
    (groups_a groups_b : list (list value * list TRow)) :
  groupby keys rows_a = Ok groups_a -> groupby keys rows_b = Ok groups_b ->
  exact_keys groups_a -> exact_keys groups_b ->
  key_sorted groups_a -> key_sorted groups_b ->
  exists ks,
    keys_ordered ks /\
    (forall k, k ∈ ks <-> k ∈ map fst groups_a \/ k ∈ map fst groups_b) /\
    Join_call (OuterJoiner sa sb) keys (Ok rows_a) (Ok rows_b)
    = outer_join_of (OuterJoiner sa sb) keys groups_a groups_b ks.
Proof.
  intros Ha Hb Hea Heb Hsa Hsb. unfold Join_call.
  cbn [mbind result_bind]. rewrite Hb. cbn [mbind result_bind]. rewrite Ha.
  cbn [mbind result_bind].
  apply (join_outer_sorted _ keys (length keys)).
  split; (split; [eapply groupby_key_lengths; eassumption|split; assumption]).
Qed.

(** ** [Map] with [Filter] and [DummyMapper]; [Reduce] with [Sum]; the
    merge of rows that lack a key *)

(** X16.  [Map(Filter(condition))] yields the rows of the stream that
    satisfy the condition, unchanged and in their order, and drops the
    others; [Map(DummyMapper())] yields the stream as it is, also when the
    stream fails; and [Map] goes through the stream row by row: on two
    streams put end to end it yields what it yields on each. *)
Theorem Map_of_Filter_and_DummyMapper (condition : TRow -> bool)
    (mapper : Mapper) (rows rows' : list TRow) (stream : TRowsGenerator) :
  Map_call (Filter condition) (Ok rows) = Ok (List.filter condition rows) /\
  Map_call DummyMapper stream = stream /\
  Map_call mapper (Ok (rows ++ rows'))
  = (out ← Map_call mapper (Ok rows);
     out' ← Map_call mapper (Ok rows'); Ok (out ++ out')).
Proof.
  unfold Map_call. split; [|split].
  - cbn [mbind result_bind]. induction rows as [|row rows IH]; [reflexivity|].
    cbn [concatM List.filter]. rewrite IH. unfold Filter.
    destruct (condition row); reflexivity.
  - destruct stream as [rs|e]; [|reflexivity]. cbn [mbind result_bind].
    induction rs as [|row rs IH]; [reflexivity|].
    cbn [concatM]. rewrite IH. reflexivity.
  - cbn [mbind result_bind]. apply concatM_app.
Qed.

Lemma foldr_add_app (zs1 zs2 : list Z) :
  foldr Z.add 0 (zs1 ++ zs2) = foldr Z.add 0 zs1 + foldr Z.add 0 zs2.
Proof.
  induction zs1 as [|z zs1 IH]; cbn [app foldr]; [reflexivity|].
  rewrite IH. apply Z.add_assoc.
Qed.

Lemma Sum_group (column : string) (keys : list string) (rows : list TRow)
    (zs : list Z) :
  is_group keys rows ->
  Forall2 (fun (r : TRow) n => r !! column = Some (VInt n)) rows zs ->
  exists reduced_row : TRow,
    Sum column keys rows = Ok [reduced_row] /\
    reduced_row !! column = Some (VInt (foldr Z.add 0 zs)).
Proof.
  destruct rows as [|row rest]; [intros []|].
  intros (key & Hkey & _) Hcol.
  inversion Hcol as [|? z ? zs' Hz Hzs]; subst.
  destruct (key_dict_spec keys row (key_of_is_Some _ _ _ Hkey))
    as (d & Hd & _).
  exists (<[column := VInt (foldr Z.add 0 (z :: zs'))]> d). split.
  - unfold Sum, sum_column. cbn [length for_iter]. rewrite Hd.
    cbn [mbind result_bind]. rewrite (getitem_Some _ _ _ Hz).
    cbn [mbind result_bind]. rewrite (sum_column_ints _ _ _ Hzs).
    reflexivity.
  - apply lookup_insert_eq.
Qed.

Lemma sums_of_groups (column : string) (keys : list string)
    (gs : list (list value * list TRow)) :
  Forall (fun g : list value * list TRow => is_group keys g.2) gs ->
  forall zs,
    Forall2 (fun (r : TRow) n => r !! column = Some (VInt n))
            (concat (map snd gs)) zs ->
    exists out totals,
      concatM (fun g : list value * list TRow => Sum column keys g.2) gs
      = Ok out /\
      length out = length gs /\
      Forall2 (fun (r : TRow) n => r !! column = Some (VInt n)) out totals /\
      foldr Z.add 0 totals = foldr Z.add 0 zs.
Proof.
  induction 1 as [|g gs Hg _ IH]; intros zs Hzs.
  - cbn in Hzs. inversion Hzs; subst. exists [], [].
    split; [reflexivity|]. split; [reflexivity|]. split; [constructor|reflexivity].
  - cbn [map concat] in Hzs.
    apply Forall2_app_inv_l in Hzs as (zs1 & zs2 & H1 & H2 & ->).
    destruct (IH zs2 H2) as (out & totals & Hout & Hlen & Hrel & Hsum).
    destruct (Sum_group column keys g.2 zs1 Hg H1) as (r & Hr & Hc).
    exists (r :: out), (foldr Z.add 0 zs1 :: totals).
    cbn [concatM]. rewrite Hr, Hout. split; [reflexivity|].
    split; [cbn [length]; rewrite Hlen; reflexivity|].
    split; [constructor; assumption|].
    cbn [foldr]. rewrite Hsum, foldr_add_app. reflexivity.
Qed.

(** X17.  [Reduce(Sum(column), keys)] on a stream whose rows all have the
    key columns and hold an integer in [column] yields one row for every
    group of consecutive rows with equal keys, with an integer in
    [column], and these integers add up to the sum of the column over the
    whole stream. *)
Theorem Reduce_Sum_keeps_the_total (column : string) (keys : list string)
    (rows : list TRow) (zs : list Z) :
  has_keys keys rows ->
  Forall2 (fun (r : TRow) n => r !! column = Some (VInt n)) rows zs ->
  exists (groups : list (list value * list TRow)) (out : list TRow)
         (totals : list Z),
    groupby keys rows = Ok groups /\
    Reduce_call (Sum column) keys (Ok rows) = Ok out /\
    length out = length groups /\
    Forall2 (fun (r : TRow) n => r !! column = Some (VInt n)) out totals /\
    foldr Z.add 0 totals = foldr Z.add 0 zs.
Proof.
  intros Hkeys Hzs. destruct (groupby_total keys rows Hkeys) as [gs Hgs].
  destruct (groupby_groups keys rows gs Hgs) as [Hall Hcat].
  rewrite <- Hcat in Hzs.
  destruct (sums_of_groups column keys gs Hall zs Hzs)
    as (out & totals & Hout & Hlen & Hrel & Hsum).
  exists gs, out, totals. split; [exact Hgs|]. split.
  - unfold Reduce_call. cbn [mbind result_bind]. rewrite Hgs. exact Hout.
  - split; [exact Hlen|]. split; [exact Hrel|exact Hsum].
Qed.

Lemma copy_columns_fail (row : TRow) (cols : list string) :
  (exists k, k ∈ cols /\ row !! k = None) ->
  forall d0 : TRow,
    foldM (fun (d : TRow) c => v ← getitem row c; Ok (<[c := v]> d)) d0 cols
    = Raise KeyError.
Proof.
  induction cols as [|c cols IH]; intros (k & Hk & Hnone) d0.
  - inversion Hk.
  - cbn [foldM]. destruct (row !! c) as [v|] eqn:Hc.
    2:{ unfold getitem. rewrite Hc. reflexivity. }
    rewrite (getitem_Some _ _ _ Hc). cbn [mbind result_bind]. apply IH. exists k. split; [|exact Hnone].
    apply elem_of_cons in Hk as [->|Hk]; [congruence|exact Hk].
Qed.

(** X18.  The merge of two rows asks the key columns of the left row
    only.  When the left row lacks a key column the merge raises
    [KeyError]; when it has them all the merge returns a row, whether or
    not the right row has them (a set being iterated over its members),
    and the key columns of the merged row hold the values of the left
    row unless the right row has a column of that name outside the common
    columns. *)
Theorem merge_rows_asks_left_keys (sa sb : string) (keys : list string)
    (row_a row_b : TRow) :
  iterates_members ->
  ((exists k, k ∈ keys /\ row_a !! k = None) ->
   merge_rows sa sb keys row_a row_b = Raise KeyError) /\
  ((forall k, k ∈ keys -> is_Some (row_a !! k)) ->
   exists merged : TRow,
     merge_rows sa sb keys row_a row_b = Ok merged /\
     forall k, k ∈ keys -> k ∉ dom row_b -> merged !! k = row_a !! k).
Proof.
  intros Hiter. split.
  - intros Hmiss. unfold merge_rows.
    rewrite (copy_columns_fail row_a keys Hmiss). reflexivity.
  - intros Hkeys.
    destruct (merge_rows_lookup Hiter sa sb keys row_a row_b Hkeys)
      as (merged & m2 & Hm & Hlook & _).
    exists merged. split; [exact Hm|]. intros k Hk Hnb. rewrite Hlook.
    rewrite decide_False.
    2:{ intros H. apply elem_of_difference in H as [H _]. contradiction. }
    rewrite decide_True; [reflexivity|].
    apply elem_of_difference. split.
    + apply elem_of_dom. apply Hkeys, Hk.
    + unfold common_columns. intros H.
      apply elem_of_difference in H as [_ H]. apply H.
      apply elem_of_list_to_set. exact Hk.
Qed.

(** ** [Split] loses nothing but the separators; [Join] reads the right
    input first *)

Lemma substring_nil (n m : nat) : substring n m "" = "".
Proof. destruct n, m; reflexivity. Qed.

Lemma substring_zero (n : nat) (s : string) : substring n 0 s = "".
Proof.
  revert s. induction n as [|n IH]; intros [|c s]; try reflexivity.
  exact (IH s).
Qed.

Lemma substring_app (n m1 m2 : nat) (s : string) :
  substring n (m1 + m2) s = substring n m1 s +:+ substring (n + m1) m2 s.
Proof.
  revert s. induction n as [|n IHn]; intros s.
  - revert s. induction m1 as [|m1 IHm]; intros s.
    + destruct s; reflexivity.
    + destruct s as [|c s]; [rewrite !substring_nil; reflexivity|].
      change (String c (substring 0 (m1 + m2) s)
              = String c (substring 0 m1 s +:+ substring (0 + m1) m2 s)).
      rewrite IHm. reflexivity.
  - destruct s as [|c s]; [rewrite !substring_nil; reflexivity|].
    exact (IHn s).
Qed.

Lemma slice_app (s : string) (a b c : nat) :
  (a <= b)%nat -> (b <= c)%nat ->
  slice s a b +:+ slice s b c = slice s a c.
Proof.
  intros Hab Hbc. unfold slice.
  replace (c - a)%nat with ((b - a) + (c - b))%nat by lia.
  rewrite substring_app. replace (a + (b - a))%nat with b by lia.
  reflexivity.
Qed.

Lemma weave_split_loop (s : string) (matches : list (nat * nat)) :
  forall start,
    spans_ok start matches (String.length s) ->
    weave s (split_loop s start matches) matches
    = slice s start (String.length s).
Proof.
  induction matches as [|[a b] ms IH]; intros start Hok; cbn [split_loop].
  - cbn [spans_ok] in Hok.
    destruct (Nat.ltb_spec start (String.length s)) as [Hlt|Hge].
    + reflexivity.
    + cbn [weave]. unfold slice.
      replace (String.length s - start)%nat with 0%nat by lia.
      rewrite substring_zero. reflexivity.
  - destruct Hok as (H1 & H2 & H3). cbn [weave]. rewrite (IH b H3).
    assert (Hb : (b <= String.length s)%nat).
    { clear -H3. revert b H3. induction ms as [|[a' b'] ms IH']; intros b H.
      - exact H.
      - destruct H as (Ha & Hb & H). specialize (IH' b' H). lia. }
    rewrite (slice_app s a b _ H2 Hb). apply slice_app; lia.
Qed.

Lemma ws_matches_spans (s : string) :
  forall i opened start,
    (start <= default i opened)%nat -> (default i opened <= i)%nat ->
    spans_ok start (ws_matches i opened s) (i + String.length s).
Proof.
  induction s as [|c s IH]; intros i opened start H1 H2.
  - cbn [ws_matches String.length]. destruct opened as [b|]; cbn in *; lia.
  - cbn [ws_matches String.length].
    replace (i + S (String.length s))%nat with (S i + String.length s)%nat
      by lia.
    destruct (is_space c).
    + apply IH; destruct opened; cbn in *; lia.
    + destruct opened as [b|]; cbn in H1, H2.
      * cbn [spans_ok]. split; [exact H1|]. split; [exact H2|].
        apply IH; cbn; lia.
      * apply IH; cbn; lia.
Qed.

(** X19.  [Split] loses nothing but the separators.  When the matches of
    the separator in the value lie one after the other within it, as
    [re.finditer] returns them, the tokens of the rows yielded, each
    followed by the separator matched after it, make up the value again;
    the matches of the default separator do lie so.  (A token that is
    empty is kept when a separator follows it; the rest after the last
    separator is dropped only when it is empty.) *)
Theorem Split_loses_only_separators (column : string) (row : TRow)
    (s : string) :
  row !! column = Some (VStr s) ->
  (forall separator : pattern,
     spans_ok 0 (separator s) (String.length s) ->
     exists tokens,
       Split column (Some separator) row
       = Ok (map (fun token => <[column := VStr token]> row) tokens) /\
       weave s tokens (separator s) = s) /\
  spans_ok 0 (finditer_ws s) (String.length s) /\
  exists tokens,
    Split column None row
    = Ok (map (fun token => <[column := VStr token]> row) tokens) /\
    weave s tokens (finditer_ws s) = s.
Proof.
  intros Hcol.
  assert (Hslice : slice s 0 (String.length s) = s).
  { unfold slice. rewrite Nat.sub_0_r.
    rewrite <- (append_nil_r s) at 2. apply substring_prefix. }
  assert (Hws : spans_ok 0 (finditer_ws s) (String.length s)).
  { apply (ws_matches_spans s 0 None 0); cbn [default]; lia. }
  split; [|split; [exact Hws|]].
  - intros separator Hok. exists (split_loop s 0 (separator s)).
    unfold Split. rewrite Hcol. split; [reflexivity|].
    rewrite (weave_split_loop s _ 0 Hok). exact Hslice.
  - exists (split_loop s 0 (finditer_ws s)).
    unfold Split. rewrite Hcol. split; [reflexivity|].
    rewrite (weave_split_loop s _ 0 Hws). exact Hslice.
Qed.

(** X20.  [Join] reads the right input first.  When the first row of the
    right input lacks a key column, the join raises [KeyError], whatever
    the joiner and the left input.  When the rows of the right input have
    the key columns and the joiner is none of the four strategies, the
    join raises [ValueError] without reading the left input: it does so
    even when the left input would fail. *)
Theorem Join_reads_right_input_first (keys : list string)
    (rows : TRowsGenerator) :
  (forall joiner row_b rows_b k,
     k ∈ keys -> row_b !! k = None ->
     Join_call joiner keys rows (Ok (row_b :: rows_b)) = Raise KeyError) /\
  (forall call rows_b,
     has_keys keys rows_b ->
     Join_call (SomeJoiner call) keys rows (Ok rows_b) = Raise ValueError).
Proof.
  split.
  - intros joiner row_b rows_b k Hk Hnone. unfold Join_call.
    cbn [mbind result_bind groupby].
    assert (Hkey : key_of keys row_b = Raise KeyError).
    { unfold key_of. clear -Hk Hnone. induction keys as [|k0 keys IH].
      - inversion Hk.
      - cbn [mapM]. destruct (row_b !! k0) as [v|] eqn:E.
        + rewrite (getitem_Some _ _ _ E). cbn [mbind result_bind].
          rewrite IH; [reflexivity|].
          apply elem_of_cons in Hk as [->|Hk]; [congruence|exact Hk].
        + unfold getitem. rewrite E. reflexivity. }
    rewrite Hkey. reflexivity.
  - intros call rows_b Hkeys. unfold Join_call. cbn [mbind result_bind].
    destruct (groupby_total keys rows_b Hkeys) as [gs ->]. reflexivity.
Qed.

(** ** Graphs: what the constructors build, and how a chained graph runs *)

Lemma Graph_run_lists (fuel : nat) (h : heap) (inp : inputs) (g : loc)
    (operations : list Operation) (join_graphs : list loc) :
  graph_lists h g = Ok (operations, join_graphs) ->
  Graph_run (S fuel) h inp g
  = run_operations (Graph_run fuel h inp) inp join_graphs operations 0 None.
Proof.
  unfold graph_lists. cbn [Graph_run].
  destruct (get_graph h g) as [[ops_l jgs_l]|]; [|discriminate].
  cbn [mbind result_bind].
  destruct (get_operations h ops_l) as [ops|]; [|discriminate].
  cbn [mbind result_bind].
  destruct (get_graphs h jgs_l) as [jgs|]; [|discriminate].
  cbn [mbind result_bind]. intros [= -> ->]. reflexivity.
Qed.

Lemma run_operations_Ok (run_graph : loc -> result TRowsGenerator)
    (inp : inputs) (join_graphs : list loc) :
  (forall g, g ∈ join_graphs -> exists s, run_graph g = Ok s) ->
  forall operations cnt d,
    (cnt + count_joins operations <= length join_graphs)%nat ->
    exists s,
      run_operations run_graph inp join_graphs operations cnt (Some d) = Ok s.
Proof.
  intros Hrun. induction operations as [|op ops IH]; intros cnt d Hcnt;
    cbn [run_operations].
  - eauto.
  - destruct op as [f p|n|j keys|call]; cbn [count_joins] in Hcnt.
    + apply IH. exact Hcnt.
    + apply IH. exact Hcnt.
    + destruct (lookup_lt_is_Some_2 join_graphs cnt) as [jg Hjg]; [lia|].
      rewrite Hjg. destruct (Hrun jg) as [s Hs].
      { eapply list_elem_of_lookup_2. exact Hjg. }
      rewrite Hs. cbn [mbind result_bind]. apply IH. lia.
    + apply IH. exact Hcnt.
Qed.

Lemma well_formed_mono (h : heap) (depth : nat) :
  forall depth' g, (depth <= depth')%nat ->
    well_formed depth h g -> well_formed depth' h g.
Proof.
  induction depth as [|d IH]; intros depth' g Hle H; [destruct H|].
  destruct depth' as [|d']; [lia|].
  destruct H as (src & ops & jgs & Hl & Hs & Hn & Hall).
  exists src, ops, jgs. split; [exact Hl|]. split; [exact Hs|].
  split; [exact Hn|]. eapply Forall_impl; [exact Hall|].
  intros g' Hg'. apply (IH d'); [lia|exact Hg'].
Qed.

Lemma well_formed_weaken (h h' : heap) (depth : nat) :
  h ⊆ h' -> forall g, well_formed depth h g -> well_formed depth h' g.
Proof.
  intros Hsub. induction depth as [|d IH]; intros g H; [destruct H|].
  destruct H as (src & ops & jgs & Hl & Hs & Hn & Hall).
  exists src, ops, jgs.
  split; [exact (graph_lists_weaken _ _ _ _ _ Hsub Hl)|].
  split; [exact Hs|]. split; [exact Hn|].
  eapply Forall_impl; [exact Hall|]. exact IH.
Qed.

Lemma graph_lists_is_graph (h : heap) (g : loc) (ops : list Operation)
    (jgs : list loc) :
  graph_lists h g = Ok (ops, jgs) -> is_graph h g.
Proof.
  unfold graph_lists, get_graph, is_graph.
  destruct (h !! g) as [[| |ops_l jgs_l]|]; try discriminate. eauto.
Qed.

Lemma well_formed_is_graph (h : heap) (depth : nat) (g : loc) :
  well_formed depth h g -> is_graph h g.
Proof.
  destruct depth as [|d]; [intros []|].
  intros (src & ops & jgs & Hl & _). exact (graph_lists_is_graph _ _ _ _ Hl).
Qed.

Lemma graph_lists_members (h : heap) (g : loc) (ops : list Operation)
    (jgs : list loc) :
  closed h -> graph_lists h g = Ok (ops, jgs) ->
  forall jg, jg ∈ jgs -> is_graph h jg.
Proof.
  intros Hc. unfold graph_lists, get_graph, get_operations, get_graphs.
  destruct (h !! g) as [[| |ops_l jgs_l]|] eqn:Eg; try discriminate.
  cbn [mbind result_bind].
  destruct (h !! ops_l) as [[o1| |]|] eqn:Eo; try discriminate.
  cbn [mbind result_bind].
  destruct (h !! jgs_l) as [[|j1|]|] eqn:Ej; try discriminate.
  cbn [mbind result_bind]. intros [= -> ->] jg Hjg.
  exact (Hc jgs_l _ Ej jg Hjg).
Qed.

Lemma well_formed_runs (depth : nat) (h : heap) (g : loc) :
  well_formed depth h g ->
  forall fuel inp, (depth <= fuel)%nat ->
    exists stream, Graph_run fuel h inp g = Ok stream.
Proof.
  revert g. induction depth as [|d IH]; intros g H fuel inp Hle; [destruct H|].
  destruct fuel as [|fuel]; [lia|].
  destruct H as (src & ops & jgs & Hl & Hs & Hn & Hall).
  rewrite (Graph_run_lists fuel h inp g _ _ Hl).
  assert (Hsub : forall jg, jg ∈ jgs ->
                   exists s, Graph_run fuel h inp jg = Ok s).
  { rewrite Forall_forall in Hall. intros jg Hjg.
    apply (IH jg (Hall jg Hjg)). lia. }
  destruct src as [f p|n|j keys|call]; try discriminate;
    cbn [run_operations]; apply run_operations_Ok; try exact Hsub; lia.
Qed.

(** X21.  A well-formed graph runs: whatever the inputs, [run] fails no
    assertion and returns a stream, and the runs of join graphs nest no
    deeper than the graphs do. *)
Theorem well_formed_graph_runs (depth : nat) (h : heap) (g : loc) :
  well_formed depth h g ->
  forall fuel inp, (depth <= fuel)%nat ->
    exists stream, Graph_run fuel h inp g = Ok stream.
Proof. exact (well_formed_runs depth h g). Qed.

Lemma Graph_init_source (h : heap) (ops_l : loc) (ops : list Operation) :
  closed h ->
  h !! ops_l = Some (OpList ops) -> ops <> [] ->
  exists h' g',
    Graph_init h (Some ops_l) None = Ok (h', g') /\
    (g' ∉ dom h) /\ h ⊆ h' /\ closed h' /\
    graph_lists h' g' = Ok (ops, []).
Proof.
  intros Hc Hops Hne. unfold Graph_init, operations_or_new,
    join_graphs_or_new, get_operations.
  rewrite Hops. cbn [mbind result_bind].
  destruct ops as [|op ops]; [contradiction|]. cbn [mbind result_bind].
  destruct (alloc_spec h (GraphList [])) as (Hf1 & E1 & Hsub1).
  set (h1 := (alloc h (GraphList [])).1) in *.
  set (l1 := (alloc h (GraphList [])).2) in *.
  assert (Hc1 : closed h1).
  { rewrite E1. apply closed_insert; [exact Hc | apply not_elem_of_dom, Hf1|].
    intros g Hg. inversion Hg. }
  destruct (alloc_spec h1 (GraphObj ops_l l1)) as (Hf2 & E2 & Hsub2).
  exists (alloc h1 (GraphObj ops_l l1)).1, (alloc h1 (GraphObj ops_l l1)).2.
  assert (Hl1 : h1 !! l1 = Some (GraphList [])).
  { rewrite E1. apply lookup_insert_eq. }
  split; [reflexivity|]. split.
  { apply (dom_weaken h h1); assumption. }
  split; [transitivity h1; assumption|]. split.
  { rewrite E2. apply closed_insert; [exact Hc1 | apply not_elem_of_dom, Hf2|].
    split; [exists (op :: ops); exact (lookup_weaken _ _ _ _ Hops Hsub1)|].
    exists []. exact Hl1. }
  apply (graph_lists_Ok _ _ ops_l l1).
  - rewrite E2. apply lookup_insert_eq.
  - apply (lookup_weaken h); [exact Hops|]. transitivity h1; assumption.
  - exact (lookup_weaken _ _ _ _ Hl1 Hsub2).
Qed.

Lemma source_graph (h : heap) (source : Operation) :
  closed h -> is_source source = true ->
  exists h' g,
    (let '(h1, ops) := alloc h (OpList [source]) in
     Graph_init h1 (Some ops) None) = Ok (h', g) /\
    (g ∉ dom h) /\ h ⊆ h' /\ closed h' /\
    graph_lists h' g = Ok ([source], []) /\
    well_formed 1 h' g.
Proof.
  intros Hc Hs.
  destruct (alloc_spec h (OpList [source])) as (Hf1 & E1 & Hsub1).
  change (alloc h (OpList [source]))
    with ((alloc h (OpList [source])).1, (alloc h (OpList [source])).2).
  set (h1 := (alloc h (OpList [source])).1) in *.
  set (l1 := (alloc h (OpList [source])).2) in *.
  cbv iota beta.
  assert (Hc1 : closed h1).
  { rewrite E1. apply closed_insert;
      [exact Hc | apply not_elem_of_dom, Hf1 | exact I]. }
  assert (Hl1 : h1 !! l1 = Some (OpList [source])).
  { rewrite E1. apply lookup_insert_eq. }
  destruct (Graph_init_source h1 l1 [source] Hc1 Hl1 ltac:(discriminate))
    as (h' & g & Hinit & Hfg & Hsub & Hc' & Hlists).
  exists h', g. split; [exact Hinit|]. split.
  { apply (dom_weaken h h1); assumption. }
  split; [transitivity h1; assumption|]. split; [exact Hc'|].
  split; [exact Hlists|].
  exists source, [], []. split; [exact Hlists|]. split; [exact Hs|].
  split; [reflexivity|constructor].
Qed.

(** X22.  In a closed heap, [Graph.graph_from_iter(name)] and
    [Graph.graph_from_file(filename, parser)] each return a new graph
    object and change no object of the heap; the graph is well formed and
    holds the source as its only operation.  Running it returns the stream
    of the source without looking at it: when [run] is given no argument
    [name], or when there is no file [filename], the call of [run] still
    returns, and it is the stream that raises [KeyError], or
    [FileNotFoundError], when it is drained. *)
Theorem constructors_build_sources (h : heap) :
  closed h ->
  (forall name,
     exists h' g,
       graph_from_iter h name = Ok (h', g) /\
       (g ∉ dom h) /\ h ⊆ h' /\ closed h' /\
       graph_lists h' g = Ok ([ReadIterFactory name], []) /\
       well_formed 1 h' g /\
       forall fuel inp,
         Graph_run (S fuel) h' inp g
         = Ok (match kwargs inp !! name with
               | Some rows => rows
               | None => Raise KeyError
               end)) /\
  (forall filename parser,
     exists h' g,
       graph_from_file h filename parser = Ok (h', g) /\
       (g ∉ dom h) /\ h ⊆ h' /\ closed h' /\
       graph_lists h' g = Ok ([Read filename parser], []) /\
       well_formed 1 h' g /\
       forall fuel inp,
         Graph_run (S fuel) h' inp g
         = Ok (match files inp !! filename with
               | Some lines => mapM parser lines
               | None => Raise FileNotFoundError
               end)).
Proof.
  intros Hc. split.
  - intros name.
    destruct (source_graph h (ReadIterFactory name) Hc eq_refl)
      as (h' & g & Hg & Hf & Hsub & Hc' & Hl & Hwf).
    exists h', g. split; [exact Hg|]. split; [exact Hf|]. split; [exact Hsub|].
    split; [exact Hc'|]. split; [exact Hl|]. split; [exact Hwf|].
    intros fuel inp. rewrite (Graph_run_lists fuel h' inp g _ _ Hl).
    cbn [run_operations]. unfold ReadIterFactory_call, getitem.
    destruct (kwargs inp !! name); reflexivity.
  - intros filename parser.
    destruct (source_graph h (Read filename parser) Hc eq_refl)
      as (h' & g & Hg & Hf & Hsub & Hc' & Hl & Hwf).
    exists h', g. split; [exact Hg|]. split; [exact Hf|]. split; [exact Hsub|].
    split; [exact Hc'|]. split; [exact Hl|]. split; [exact Hwf|].
    intros fuel inp. rewrite (Graph_run_lists fuel h' inp g _ _ Hl).
    reflexivity.
Qed.

Lemma count_joins_app (ops1 ops2 : list Operation) :
  count_joins (ops1 ++ ops2) = (count_joins ops1 + count_joins ops2)%nat.
Proof.
  induction ops1 as [|op ops1 IH]; [reflexivity|].
  destruct op; cbn [app count_joins]; rewrite IH; reflexivity.
Qed.

Lemma extended_well_formed (h h' : heap) (self g' : loc) (depth : nat)
    (ops : list Operation) (jgs more : list loc) (operation : Operation) :
  h ⊆ h' ->
  well_formed (S depth) h self ->
  graph_lists h self = Ok (ops, jgs) ->
  graph_lists h' g' = Ok (ops ++ [operation], jgs ++ more) ->
  is_source operation = false ->
  length more = count_joins [operation] ->
  Forall (well_formed depth h) more ->
  well_formed (S depth) h' g'.
Proof.
  intros Hsub (src & ops0 & jgs0 & Hl & Hs & Hn & Hall) Hlists Hl' Hop Hmore Hwf.
  rewrite Hlists in Hl. injection Hl as -> ->.
  exists src, (ops0 ++ [operation]), (jgs0 ++ more).
  split; [exact Hl'|]. split; [exact Hs|]. split.
  - rewrite length_app, count_joins_app, Hn, Hmore. reflexivity.
  - apply Forall_app. split.
    + eapply Forall_impl; [exact Hall|]. apply well_formed_weaken, Hsub.
    + eapply Forall_impl; [exact Hwf|]. apply well_formed_weaken, Hsub.
Qed.

(** X23.  The chaining methods keep graphs well formed: in a closed heap,
    [map], [reduce] and [sort] of a well-formed graph, and [join] of a
    well-formed graph with a well-formed graph that nests less deep,
    return a well-formed graph, which therefore runs without failing an
    assertion.  So does every graph made by the two constructors and the
    four chaining methods. *)
Theorem chaining_keeps_well_formed (depth : nat) (h : heap) (self : loc) :
  closed h -> well_formed (S depth) h self ->
  (forall mapper, exists h' g',
     Graph_map h self mapper = Ok (h', g') /\
     closed h' /\ h ⊆ h' /\ well_formed (S depth) h' g' /\
     forall inp, exists stream, Graph_run (S depth) h' inp g' = Ok stream) /\
  (forall reducer keys, exists h' g',
     Graph_reduce h self reducer keys = Ok (h', g') /\
     closed h' /\ h ⊆ h' /\ well_formed (S depth) h' g' /\
     forall inp, exists stream, Graph_run (S depth) h' inp g' = Ok stream) /\
  (forall keys, exists h' g',
     Graph_sort h self keys = Ok (h', g') /\
     closed h' /\ h ⊆ h' /\ well_formed (S depth) h' g' /\
     forall inp, exists stream, Graph_run (S depth) h' inp g' = Ok stream) /\
  (forall joiner join_graph keys,
     well_formed depth h join_graph ->
     exists h' g',
       Graph_join h self joiner join_graph keys = Ok (h', g') /\
       closed h' /\ h ⊆ h' /\ well_formed (S depth) h' g' /\
       forall inp, exists stream, Graph_run (S depth) h' inp g' = Ok stream).
Proof.
  intros Hc Hwf. pose proof (well_formed_is_graph _ _ _ Hwf) as Hg.
  assert (Hruns : forall h' g', well_formed (S depth) h' g' ->
            well_formed (S depth) h' g' /\
            forall inp, exists stream, Graph_run (S depth) h' inp g' = Ok stream).
  { intros h' g' H. split; [exact H|]. intros inp.
    apply (well_formed_runs (S depth) h' g' H). lia. }
  assert (Hunary : forall call, exists h' g',
            Graph_extend h self (Unary call) [] = Ok (h', g') /\
            closed h' /\ h ⊆ h' /\ well_formed (S depth) h' g' /\
            forall inp, exists stream, Graph_run (S depth) h' inp g' = Ok stream).
  { intros call.
    destruct (Graph_extend_frame h self (Unary call) [] Hc Hg)
      as (h' & g' & ops & jgs & ol & jl & Hr & Hl & _ & Hsub & _ & _ & _ &
          Hl' & _ & Hc' & _).
    { intros g Hin. inversion Hin. }
    exists h', g'. split; [exact Hr|]. split; [exact Hc'|].
    split; [exact Hsub|]. apply Hruns.
    apply (extended_well_formed h h' self g' depth ops jgs [] (Unary call));
      try assumption; try reflexivity. constructor. }
  split; [intros mapper; apply Hunary|].
  split; [intros reducer keys; apply Hunary|].
  split; [intros keys; apply Hunary|].
  intros joiner join_graph keys Hjg.
  destruct (Graph_extend_frame h self (Join joiner keys) [join_graph] Hc Hg)
    as (h' & g' & ops & jgs & ol & jl & Hr & Hl & _ & Hsub & _ & _ & _ &
        Hl' & _ & Hc' & _).
  { intros g Hin. apply list_elem_of_singleton in Hin. subst.
    exact (well_formed_is_graph _ _ _ Hjg). }
  exists h', g'. split; [exact Hr|]. split; [exact Hc'|].
  split; [exact Hsub|]. apply Hruns.
  apply (extended_well_formed h h' self g' depth ops jgs [join_graph]
           (Join joiner keys)); try assumption; try reflexivity.
  constructor; [exact Hjg|constructor].
Qed.

(** ** The constructor [Graph] and the lists it is given *)

Lemma operations_or_new_spec (h : heap) (operations : option loc)
    (ops : list Operation) :
  closed h ->
  match operations with
  | Some l => h !! l = Some (OpList ops)
  | None => ops = []
  end ->
  exists h1 ops_l,
    operations_or_new h operations = Ok (h1, ops_l) /\
    h ⊆ h1 /\ closed h1 /\
    h1 !! ops_l = Some (OpList ops) /\
    match ops with
    | [] => ops_l ∉ dom h
    | _ :: _ => operations = Some ops_l
    end.
Proof.
  intros Hc Hops.
  assert (Hnew : ops = [] -> exists h1 ops_l,
            Ok (alloc h (OpList [])) = Ok (h1, ops_l) /\
            h ⊆ h1 /\ closed h1 /\ h1 !! ops_l = Some (OpList ops) /\
            (ops_l ∉ dom h)).
  { intros ->. destruct (alloc_spec h (OpList [])) as (Hf & E & Hsub).
    exists (alloc h (OpList [])).1, (alloc h (OpList [])).2.
    split; [reflexivity|]. split; [exact Hsub|]. split.
    - rewrite E. apply closed_insert;
        [exact Hc|apply not_elem_of_dom, Hf|exact I].
    - split; [rewrite E; apply lookup_insert_eq|exact Hf]. }
  unfold operations_or_new. destruct operations as [l|].
  - unfold get_operations. rewrite Hops. cbn [mbind result_bind].
    destruct ops as [|op ops].
    + destruct (Hnew eq_refl) as (h1 & ops_l & H1 & H2 & H3 & H4 & H5).
      exists h1, ops_l. repeat split; assumption.
    + exists h, l. split; [reflexivity|]. split; [reflexivity|].
      split; [exact Hc|]. split; [exact Hops|reflexivity].
  - subst ops. destruct (Hnew eq_refl) as (h1 & ops_l & H1 & H2 & H3 & H4 & H5).
    exists h1, ops_l. repeat split; assumption.
Qed.

Lemma join_graphs_or_new_spec (h : heap) (join_graphs : option loc)
    (jgs : list loc) :
  closed h ->
  match join_graphs with
  | Some l => h !! l = Some (GraphList jgs)
  | None => jgs = []
  end ->
  exists h1 jgs_l,
    join_graphs_or_new h join_graphs = Ok (h1, jgs_l) /\
    h ⊆ h1 /\ closed h1 /\
    h1 !! jgs_l = Some (GraphList jgs) /\
    match jgs with
    | [] => jgs_l ∉ dom h
    | _ :: _ => join_graphs = Some jgs_l
    end.
Proof.
  intros Hc Hjgs.
  assert (Hnew : jgs = [] -> exists h1 jgs_l,
            Ok (alloc h (GraphList [])) = Ok (h1, jgs_l) /\
            h ⊆ h1 /\ closed h1 /\ h1 !! jgs_l = Some (GraphList jgs) /\
            (jgs_l ∉ dom h)).
  { intros ->. destruct (alloc_spec h (GraphList [])) as (Hf & E & Hsub).
    exists (alloc h (GraphList [])).1, (alloc h (GraphList [])).2.
    split; [reflexivity|]. split; [exact Hsub|]. split.
    - rewrite E. apply closed_insert;
        [exact Hc|apply not_elem_of_dom, Hf|].
      intros g Hg. inversion Hg.
    - split; [rewrite E; apply lookup_insert_eq|exact Hf]. }
  unfold join_graphs_or_new. destruct join_graphs as [l|].
  - unfold get_graphs. rewrite Hjgs. cbn [mbind result_bind].
    destruct jgs as [|jg jgs].
    + destruct (Hnew eq_refl) as (h1 & jgs_l & H1 & H2 & H3 & H4 & H5).
      exists h1, jgs_l. repeat split; assumption.
    + exists h, l. split; [reflexivity|]. split; [reflexivity|].
      split; [exact Hc|]. split; [exact Hjgs|reflexivity].
  - subst jgs. destruct (Hnew eq_refl) as (h1 & jgs_l & H1 & H2 & H3 & H4 & H5).
    exists h1, jgs_l. repeat split; assumption.
Qed.

(** X24.  [Graph(operations, join_graphs)] in a closed heap returns a new
    graph object that holds the operations and the join graphs given.  A
    list that is given and not empty is held as it is: the graph and the
    caller share the list object.  For a list that is empty or not given,
    the graph holds a new empty list.  A graph without operations fails
    the last assertion of [run]. *)
Theorem Graph_init_shares_lists (h : heap) (operations join_graphs : option loc)
    (ops : list Operation) (jgs : list loc) :
  closed h ->
  match operations with
  | Some l => h !! l = Some (OpList ops)
  | None => ops = []
  end ->
  match join_graphs with
  | Some l => h !! l = Some (GraphList jgs)
  | None => jgs = []
  end ->
  exists h' g ops_l jgs_l,
    Graph_init h operations join_graphs = Ok (h', g) /\
    (g ∉ dom h) /\ h ⊆ h' /\ closed h' /\
    h' !! g = Some (GraphObj ops_l jgs_l) /\
    graph_lists h' g = Ok (ops, jgs) /\
    match ops with
    | [] => ops_l ∉ dom h
    | _ :: _ => operations = Some ops_l
    end /\
    match jgs with
    | [] => jgs_l ∉ dom h
    | _ :: _ => join_graphs = Some jgs_l
    end /\
    (ops = [] ->
     forall fuel inp, Graph_run (S fuel) h' inp g = Raise AssertionError).
Proof.
  intros Hc Hops Hjgs.
  destruct (operations_or_new_spec h operations ops Hc Hops)
    as (h1 & ops_l & E1 & Hsub1 & Hc1 & Hl1 & Hcase1).
  assert (Hjgs1 : match join_graphs with
                  | Some l => h1 !! l = Some (GraphList jgs)
                  | None => jgs = []
                  end).
  { destruct join_graphs as [l|]; [|exact Hjgs].
    exact (lookup_weaken _ _ _ _ Hjgs Hsub1). }
  destruct (join_graphs_or_new_spec h1 join_graphs jgs Hc1 Hjgs1)
    as (h2 & jgs_l & E2 & Hsub2 & Hc2 & Hl2 & Hcase2).
  destruct (alloc_spec h2 (GraphObj ops_l jgs_l)) as (Hf & E & Hsub).
  set (h' := (alloc h2 (GraphObj ops_l jgs_l)).1) in *.
  set (g := (alloc h2 (GraphObj ops_l jgs_l)).2) in *.
  assert (Hsub12 : h ⊆ h2) by (transitivity h1; assumption).
  assert (Hg : h' !! g = Some (GraphObj ops_l jgs_l)).
  { rewrite E. apply lookup_insert_eq. }
  assert (Hlists : graph_lists h' g = Ok (ops, jgs)).
  { apply (graph_lists_Ok h' g ops_l jgs_l); [exact Hg| |].
    - apply (lookup_weaken h1); [exact Hl1|]. transitivity h2; assumption.
    - exact (lookup_weaken _ _ _ _ Hl2 Hsub). }
  exists h', g, ops_l, jgs_l.
  split.
  { unfold Graph_init. rewrite E1. cbn [mbind result_bind]. rewrite E2.
    reflexivity. }
  split; [apply (dom_weaken h h2); assumption|].
  split; [transitivity h2; assumption|].
  split.
  { rewrite E. apply closed_insert; [exact Hc2|apply not_elem_of_dom, Hf|].
    split; [exists ops; exact (lookup_weaken _ _ _ _ Hl1 Hsub2)|].
    exists jgs. exact Hl2. }
  split; [exact Hg|]. split; [exact Hlists|]. split; [exact Hcase1|].
  split.
  { destruct jgs; [|exact Hcase2]. apply (dom_weaken h h1); assumption. }
  intros -> fuel inp. rewrite (Graph_run_lists fuel h' inp g _ _ Hlists).
  reflexivity.
Qed.

(** ** Running a chained graph *)

Lemma run_operations_snoc_unary (run_graph : loc -> result TRowsGenerator)
    (inp : inputs) (join_graphs : list loc)
    (call : TRowsGenerator -> TRowsGenerator) (operations : list Operation) :
  forall cnt data,
    run_operations run_graph inp join_graphs (operations ++ [Unary call])
                   cnt data
    = d ← run_operations run_graph inp join_graphs operations cnt data;
      Ok (call d).
Proof.
  induction operations as [|op ops IH]; intros cnt data;
    cbn [app run_operations].
  - destruct data; reflexivity.
  - destruct op as [f p|n|j keys|c].
    + apply IH.
    + apply IH.
    + destruct (join_graphs !! cnt) as [jg|]; [|reflexivity].
      destruct data as [d|]; [|reflexivity].
      destruct (run_graph jg); cbn [mbind result_bind]; [apply IH|reflexivity].
    + destruct data; [apply IH|reflexivity].
Qed.

Lemma run_operations_snoc_join (run_graph : loc -> result TRowsGenerator)
    (inp : inputs) (join_graphs : list loc) (join_graph : loc)
    (joiner : Joiner) (keys : list string) (operations : list Operation) :
  forall cnt data,
    length join_graphs = (cnt + count_joins operations)%nat ->
    run_operations run_graph inp (join_graphs ++ [join_graph])
                   (operations ++ [Join joiner keys]) cnt data
    = d ← run_operations run_graph inp join_graphs operations cnt data;
      right ← run_graph join_graph;
      Ok (Join_call joiner keys d right).
Proof.
  induction operations as [|op ops IH]; intros cnt data Hlen;
    cbn [app run_operations].
  - cbn [count_joins] in Hlen. rewrite Nat.add_0_r in Hlen.
    rewrite lookup_app_r by lia. rewrite Hlen, Nat.sub_diag. cbn [lookup].
    destruct data as [d|]; [|reflexivity].
    cbn [list_lookup mbind result_bind].
    destruct (run_graph join_graph); reflexivity.
  - destruct op as [f p|n|j ks|c]; cbn [count_joins] in Hlen.
    + apply IH. exact Hlen.
    + apply IH. exact Hlen.
    + rewrite lookup_app_l by lia.
      destruct (join_graphs !! cnt) as [jg|]; [|reflexivity].
      destruct data as [d|]; [|reflexivity].
      destruct (run_graph jg); cbn [mbind result_bind]; [|reflexivity].
      apply IH. lia.
    + destruct data; [apply IH; exact Hlen|reflexivity].
Qed.

Lemma run_operations_frame (h h' : heap) (fuel : nat) (inp : inputs)
    (self : loc) (ops ops' : list Operation) (jgs : list loc) :
  closed h -> h ⊆ h' -> graph_lists h self = Ok (ops, jgs) ->
  forall cnt data,
    run_operations (Graph_run fuel h' inp) inp jgs ops' cnt data
    = run_operations (Graph_run fuel h inp) inp jgs ops' cnt data.
Proof.
  intros Hc Hsub Hl cnt data. apply run_operations_ext. intros g Hg.
  apply (Graph_run_weaken h h' Hc Hsub).
  exact (graph_lists_members h self ops jgs Hc Hl g Hg).
Qed.

Lemma run_extended_unary (h : heap) (self : loc)
    (call : TRowsGenerator -> TRowsGenerator) :
  closed h -> is_graph h self ->
  exists h' g',
    Graph_extend h self (Unary call) [] = Ok (h', g') /\
    forall fuel inp,
      Graph_run fuel h' inp g'
      = d ← Graph_run fuel h inp self; Ok (call d).
Proof.
  intros Hc Hg.
  destruct (Graph_extend_frame h self (Unary call) [] Hc Hg)
    as (h' & g' & ops & jgs & ol & jl & Hr & Hl & _ & Hsub & _ & _ & _ &
        Hl' & _ & Hc' & _).
  { intros g Hin. inversion Hin. }
  exists h', g'. split; [exact Hr|]. intros [|fuel] inp; [reflexivity|].
  rewrite (Graph_run_lists fuel h' inp g' _ _ Hl').
  rewrite (Graph_run_lists fuel h inp self _ _ Hl).
  rewrite app_nil_r.
  rewrite (run_operations_frame h h' fuel inp self ops _ jgs Hc Hsub Hl).
  apply run_operations_snoc_unary.
Qed.

(** X25.  Running a graph made by [map], [reduce] or [sort] is running
    the graph it was made from and applying the new operation to the
    stream: [G.map(m).run(...)] is the [Map] of [m] over [G.run(...)],
    and so for [Reduce] and the sort; when the run of [G] fails, so does
    the run of the new graph, in the same way. *)
Theorem run_after_map_reduce_sort (h : heap) (self : loc) :
  closed h -> is_graph h self ->
  (forall mapper, exists h' g',
     Graph_map h self mapper = Ok (h', g') /\
     forall fuel inp,
       Graph_run fuel h' inp g'
       = d ← Graph_run fuel h inp self; Ok (Map_call mapper d)) /\
  (forall reducer keys, exists h' g',
     Graph_reduce h self reducer keys = Ok (h', g') /\
     forall fuel inp,
       Graph_run fuel h' inp g'
       = d ← Graph_run fuel h inp self; Ok (Reduce_call reducer keys d)) /\
  (forall keys, exists h' g',
     Graph_sort h self keys = Ok (h', g') /\
     forall fuel inp,
       Graph_run fuel h' inp g'
       = d ← Graph_run fuel h inp self; Ok (ExternalSort_call keys d)).
Proof.
  intros Hc Hg. split; [|split].
  - intros mapper. exact (run_extended_unary h self _ Hc Hg).
  - intros reducer keys. exact (run_extended_unary h self _ Hc Hg).
  - intros keys. exact (run_extended_unary h self _ Hc Hg).
Qed.

(** X26.  Running a graph made by [join]: for a well-formed graph [G], in
    a closed heap, [G.join(joiner, H, keys).run(...)] runs [G], then runs
    [H] with the same arguments, and is the [Join] of the two streams,
    that of [G] on the left.  The graph joined is the one handed to
    [join], whatever the number of joins that [G] has already. *)
Theorem run_after_join (depth : nat) (h : heap) (self join_graph : loc)
    (joiner : Joiner) (keys : list string) :
  closed h -> well_formed depth h self -> is_graph h join_graph ->
  exists h' g',
    Graph_join h self joiner join_graph keys = Ok (h', g') /\
    forall fuel inp,
      Graph_run (S fuel) h' inp g'
      = d ← Graph_run (S fuel) h inp self;
        right ← Graph_run fuel h inp join_graph;
        Ok (Join_call joiner keys d right).
Proof.
  intros Hc Hwf Hjg. pose proof (well_formed_is_graph _ _ _ Hwf) as Hg.
  destruct (Graph_extend_frame h self (Join joiner keys) [join_graph] Hc Hg)
    as (h' & g' & ops & jgs & ol & jl & Hr & Hl & _ & Hsub & _ & _ & _ &
        Hl' & _ & Hc' & _).
  { intros g Hin. apply list_elem_of_singleton in Hin. subst. exact Hjg. }
  exists h', g'. split; [exact Hr|]. intros fuel inp.
  rewrite (Graph_run_lists fuel h' inp g' _ _ Hl').
  rewrite (Graph_run_lists fuel h inp self _ _ Hl).
  rewrite <- (Graph_run_weaken h h' Hc Hsub fuel inp join_graph Hjg).
  destruct depth as [|d]; [destruct Hwf|].
  destruct Hwf as (src & ops0 & jgs0 & Hl0 & Hs & Hn & _).
  rewrite Hl in Hl0. injection Hl0 as -> ->.
  rewrite (run_operations_snoc_join (Graph_run fuel h' inp) inp jgs0 join_graph
             joiner keys (src :: ops0) 0 None).
  2:{ destruct src; try discriminate; cbn [count_joins]; exact Hn. }
  rewrite (run_operations_frame h h' fuel inp self (src :: ops0) _ jgs0
             Hc Hsub Hl).
  reflexivity.
Qed.

End Engine.

(** * Examples: the theorems at work, and where the specification fails *)

Lemma elements_order_iterates : iterates_members elements_order.
Proof. intros X. reflexivity. Qed.

(** ** C1 *)



(** ** C2 and C3 *)

Lemma left_group_keys :
  forall (row_a : TRow) (k : string),
    row_a ∈ left_group -> k ∈ ["k"] -> is_Some (row_a !! k).
Proof.
  intros row_a k Ha Hk. apply list_elem_of_singleton in Hk. subst k.
  unfold left_group in Ha.
  repeat (apply elem_of_cons in Ha as [->|Ha]; [eexists; reflexivity|]).
  inversion Ha.
Qed.

Lemma joiners_cartesian_witness :
  exists out pairs,
    Joiner_call elements_order (RightJoiner "_1" "_2") ["k"]
                left_group right_group = Ok out /\
    mapM (fun p : TRow * TRow =>
            Joiner_merge_rows elements_order (RightJoiner "_1" "_2") ["k"]
                              p.1 p.2)
         (list_prod left_group right_group) = Ok pairs /\
    out ≡ₚ pairs /\
    length out = (length left_group * length right_group)%nat.
Proof.
  apply (joiners_cartesian elements_order (RightJoiner "_1" "_2") ["k"]
           left_group right_group).
  - exact elements_order_iterates.
  - exact I.
  - discriminate.
  - discriminate.
  - exact left_group_keys.
Defined.

Lemma joiners_loop_order_witness :
  Joiner_call elements_order (RightJoiner "_1" "_2") ["k"]
              left_group right_group
  = mapM (fun p : TRow * TRow =>
            Joiner_merge_rows elements_order (RightJoiner "_1" "_2") ["k"]
                              p.2 p.1)
         (list_prod right_group left_group).
Proof.
  apply (joiners_loop_order elements_order (RightJoiner "_1" "_2") ["k"]
           left_group right_group).
  - exact I.
  - discriminate.
  - discriminate.
Defined.

(** The right joiner does not yield the merges of the first left row
    before those of the second. *)
Lemma right_joiner_order_counterexample :
  known_joiner (RightJoiner "_1" "_2") /\
  Joiner_call elements_order (RightJoiner "_1" "_2") ["k"]
              left_group right_group
  <> mapM (fun p : TRow * TRow =>
             Joiner_merge_rows elements_order (RightJoiner "_1" "_2") ["k"]
                               p.1 p.2)
          (list_prod left_group right_group).
Proof.
  split; [exact I|]. intros H.
  apply (f_equal (cell_of 1 "x")) in H. vm_compute in H. discriminate.
Qed.

(** ** C4, C5 and C6 *)

Lemma doc_group_is_group : is_group ["doc"] doc_group.
Proof.
  exists [VInt 1]. split; [reflexivity|].
  repeat constructor; exists [VInt 1]; split; reflexivity.
Qed.

Lemma Count_yields_group_size_witness :
  exists reduced_row : TRow,
    Count "count" ["doc"] doc_group = Ok [reduced_row] /\
    dom reduced_row = list_to_set ["doc"] ∪ {["count"]} /\
    reduced_row !! "count" = Some (VInt (Z.of_nat (length doc_group))) /\
    forall k, k ∈ ["doc"] -> k <> "count" ->
      reduced_row !! k = word_row "a" 1 !! k /\
      forall row', row' ∈ tail doc_group ->
        exists v w, reduced_row !! k = Some v /\ row' !! k = Some w /\
                    py_eqb v w = true.
Proof.
  apply (Count_yields_group_size "count" ["doc"] (word_row "a" 1)
           (tail doc_group)).
  exact doc_group_is_group.
Defined.




(** ** C7 *)



(** ** C8 *)

Lemma run_needs_source_first_witness :
  Graph_run no_float_repr elements_order 1
    (<[2%nat := GraphObj 0%nat 1%nat]>
       (<[1%nat := GraphList []]>
          (<[0%nat := OpList [Map DummyMapper; ReadIterFactory "a"]]> ∅)))
    inputs_a_b 2%nat
  = Raise AssertionError /\
  forall source rest run_graph cnt data,
    is_source source = true ->
    run_operations no_float_repr elements_order run_graph inputs_a_b []
      (source :: rest) cnt data
    = run_operations no_float_repr elements_order run_graph inputs_a_b []
        (source :: rest) cnt None.
Proof.
  apply (run_needs_source_first no_float_repr elements_order 0
           (<[2%nat := GraphObj 0%nat 1%nat]>
              (<[1%nat := GraphList []]>
                 (<[0%nat := OpList [Map DummyMapper; ReadIterFactory "a"]]> ∅)))
           inputs_a_b 2%nat (Map DummyMapper) [ReadIterFactory "a"] []).
  - reflexivity.
  - reflexivity.
Defined.

(** A graph whose second operation is a source runs, and yields the rows
    of that source. *)
Lemma run_second_source_counterexample :
  graph_lists heap_two_sources 2%nat
  = Ok ([ReadIterFactory "a"; ReadIterFactory "b"], []) /\
  Graph_run no_float_repr elements_order 1 heap_two_sources inputs_a_b 2%nat
  = Ok (Ok [ ({[ "y" := VInt 2 ]} : TRow) ]) /\
  Graph_run no_float_repr elements_order 1 heap_two_sources inputs_a_b 2%nat
  <> Raise AssertionError.
Proof.
  split; [reflexivity|]. split; [reflexivity|]. discriminate.
Qed.

(** ** C9 *)

Lemma heap_docs_closed : closed heap_docs.
Proof.
  unfold heap_docs.
  apply closed_insert; [apply closed_insert; [apply closed_insert|..]|..].
  - intros l o H. rewrite lookup_empty in H. discriminate.
  - reflexivity.
  - exact I.
  - reflexivity.
  - intros g Hg. inversion Hg.
  - reflexivity.
  - split; eexists; reflexivity.
Qed.

Lemma chaining_leaves_graph_unchanged_witness :
  (forall mapper,
     extends_graph no_float_repr elements_order heap_docs 2%nat (Map mapper) []
       (Graph_map heap_docs 2%nat mapper)) /\
  (forall reducer keys,
     extends_graph no_float_repr elements_order heap_docs 2%nat
       (Reduce reducer keys) [] (Graph_reduce heap_docs 2%nat reducer keys)) /\
  (forall keys,
     extends_graph no_float_repr elements_order heap_docs 2%nat
       (ExternalSort no_sort keys) [] (Graph_sort no_sort heap_docs 2%nat keys)) /\
  (forall joiner join_graph keys,
     is_graph heap_docs join_graph ->
     extends_graph no_float_repr elements_order heap_docs 2%nat
       (Join joiner keys) [join_graph]
       (Graph_join heap_docs 2%nat joiner join_graph keys)).
Proof.
  apply (chaining_leaves_graph_unchanged no_float_repr elements_order no_sort
           heap_docs 2%nat).
  - exact heap_docs_closed.
  - exists 0%nat, 1%nat. reflexivity.
Defined.

(** ** C10 *)

Lemma Join_is_less_string_order_witness :
  (exists lt,
     Join_is_less no_float_repr [VInt 1; VStr "b"] [VInt 1; VStr "c"] = Ok lt /\
     (lt = true <->
      lex_lt (map (py_str no_float_repr) [VInt 1; VStr "b"])
             (map (py_str no_float_repr) [VInt 1; VStr "c"]))) /\
  Join_is_less no_float_repr [VInt 10] [VInt 2] = Ok true /\
  Join_is_less no_float_repr [VInt 2] [VInt 10] = Ok false /\
  Join_call no_float_repr elements_order
            (InnerJoiner default_suffix_a default_suffix_b) ["id"]
            (Ok rows_2_10) (Ok rows_10) = Ok [].
Proof.
  apply (Join_is_less_string_order no_float_repr elements_order
           [VInt 1; VStr "b"] [VInt 1; VStr "c"]).
  reflexivity.
Defined.

(** * Examples of the further properties *)

(** ** The mappers *)

Lemma Rename_round_trip_witness :
  exists renamed : TRow,
    Rename "a" "c" row_a_b = Ok [renamed] /\
    renamed !! "a" = None /\
    renamed !! "c" = row_a_b !! "a" /\
    (forall c, c <> "a" -> c <> "c" -> renamed !! c = row_a_b !! c) /\
    Rename "c" "a" renamed = Ok [row_a_b].
Proof.
  apply (Rename_round_trip "a" "c" row_a_b).
  - exists (VInt 1). reflexivity.
  - reflexivity.
Defined.

Lemma Division_outcomes_witness :
  Division "num" "den" "quotient" row_one_over_zero = Raise ZeroDivisionError.
Proof.
  apply (proj2 (Division_outcomes "num" "den" "quotient" row_one_over_zero)
           (VInt 1) (VInt 0)).
  - reflexivity.
  - reflexivity.
  - reflexivity.
  - right. reflexivity.
  - exact I.
Defined.

Lemma Split_loses_only_separators_witness :
  (forall separator : pattern,
     spans_ok 0 (separator " a") (String.length " a") ->
     exists tokens,
       Split "text" (Some separator) row_leading_space
       = Ok (map (fun token => <["text" := VStr token]> row_leading_space)
                 tokens) /\
       weave " a" tokens (separator " a") = " a") /\
  spans_ok 0 (finditer_ws " a") (String.length " a") /\
  exists tokens,
    Split "text" None row_leading_space
    = Ok (map (fun token => <["text" := VStr token]> row_leading_space) tokens) /\
    weave " a" tokens (finditer_ws " a") = " a".
Proof.
  apply (Split_loses_only_separators "text" row_leading_space " a").
  reflexivity.
Defined.

(** ** [Reduce] *)

Lemma doc_group_has_keys : has_keys ["doc"] doc_group.
Proof.
  intros row k Hr Hk. apply list_elem_of_singleton in Hk. subst k.
  unfold doc_group in Hr.
  repeat (apply elem_of_cons in Hr as [->|Hr]; [eexists; reflexivity|]).
  inversion Hr.
Qed.

Lemma Reduce_groups_witness :
  exists groups : list (list value * list TRow),
    groupby ["doc"] doc_group = Ok groups /\
    Reduce_call (Count "count") ["doc"] (Ok doc_group)
    = concatM (fun g : list value * list TRow => Count "count" ["doc"] g.2)
              groups /\
    concat (map snd groups) = doc_group /\
    Forall (keyed_group ["doc"]) groups /\
    keys_change groups.
Proof.
  apply (Reduce_groups (Count "count") ["doc"] doc_group).
  exact doc_group_has_keys.
Defined.

Lemma Reduce_Count_adds_up_witness :
  exists (groups : list (list value * list TRow)) (out : list TRow),
    groupby ["doc"] doc_group = Ok groups /\
    Reduce_call (Count "count") ["doc"] (Ok doc_group) = Ok out /\
    Forall2 (fun (g : list value * list TRow) (r : TRow) =>
               r !! "count" = Some (VInt (Z.of_nat (length g.2))) /\
               g.2 <> [] /\
               forall k, k ∈ ["doc"] -> k <> "count" ->
                 r !! k = head g.2 ≫= fun row : TRow => row !! k)
            groups out /\
    foldr Z.add 0 (map (fun g : list value * list TRow =>
                          Z.of_nat (length g.2)) groups)
    = Z.of_nat (length doc_group).
Proof.
  apply (Reduce_Count_adds_up "count" ["doc"] doc_group).
  exact doc_group_has_keys.
Defined.

Lemma Reduce_FirstReducer_firsts_witness :
  exists (groups : list (list value * list TRow)) (out : list TRow),
    groupby ["doc"] doc_group = Ok groups /\
    Reduce_call FirstReducer ["doc"] (Ok doc_group) = Ok out /\
    Forall2 (fun (g : list value * list TRow) (r : TRow) => head g.2 = Some r)
            groups out /\
    sublist out doc_group /\
    head out = head doc_group /\
    forall i r r',
      out !! i = Some r -> out !! S i = Some r' ->
      exists k k', key_of ["doc"] r = Ok k /\ key_of ["doc"] r' = Ok k' /\
                   tuple_eqb k k' = false.
Proof.
  apply (Reduce_FirstReducer_firsts ["doc"] doc_group).
  exact doc_group_has_keys.
Defined.

Lemma Sum_of_strings_raises_witness :
  Sum "word" ["doc"] doc_group = Raise TypeError.
Proof.
  apply (Sum_of_strings_raises "word" ["doc"] (word_row "a" 1) (tail doc_group)).
  - exact doc_group_is_group.
  - repeat constructor; eexists; reflexivity.
Defined.

Lemma Reduce_Sum_keeps_the_total_witness :
  exists (groups : list (list value * list TRow)) (out : list TRow)
         (totals : list Z),
    groupby ["doc"] doc_group = Ok groups /\
    Reduce_call (Sum "n") ["doc"] (Ok doc_group) = Ok out /\
    length out = length groups /\
    Forall2 (fun (r : TRow) n => r !! "n" = Some (VInt n)) out totals /\
    foldr Z.add 0 totals = foldr Z.add 0 [1; 2; 3; 4; 5].
Proof.
  apply (Reduce_Sum_keeps_the_total "n" ["doc"] doc_group [1; 2; 3; 4; 5]).
  - exact doc_group_has_keys.
  - repeat constructor.
Defined.

(** ** [Join] and the merge *)

Lemma merge_rows_asks_left_keys_witness :
  ((exists k, k ∈ ["id"] /\ row_x !! k = None) ->
   merge_rows elements_order "_1" "_2" ["id"] row_x person = Raise KeyError) /\
  ((forall k, k ∈ ["id"] -> is_Some (row_x !! k)) ->
   exists merged : TRow,
     merge_rows elements_order "_1" "_2" ["id"] row_x person = Ok merged /\
     forall k, k ∈ ["id"] -> k ∉ dom person -> merged !! k = row_x !! k).
Proof.
  apply (merge_rows_asks_left_keys elements_order "_1" "_2" ["id"] row_x person).
  exact elements_order_iterates.
Defined.

Lemma Join_reads_right_input_first_witness :
  Join_call no_float_repr elements_order (InnerJoiner "_1" "_2") ["id"]
            (Raise TypeError) (Ok [row_x])
  = Raise KeyError.
Proof.
  apply (proj1 (Join_reads_right_input_first no_float_repr elements_order
                  ["id"] (Raise TypeError))
           (InnerJoiner "_1" "_2") row_x [] "id").
  - left.
  - reflexivity.
Defined.

Lemma Join_with_an_empty_input_witness :
  Join_call no_float_repr elements_order (LeftJoiner "_1" "_2") ["k"]
            (Ok left_group) (Ok [])
  = Ok left_group /\
  Join_call no_float_repr elements_order (LeftJoiner "_1" "_2") ["k"]
            (Ok []) (Ok left_group)
  = Ok [].
Proof.
  apply (Join_with_an_empty_input no_float_repr elements_order
           (LeftJoiner "_1" "_2") ["k"] left_group).
  - exact I.
  - exact left_group_keys.
Defined.

Lemma Join_without_keys_witness :
  Join_call no_float_repr elements_order (InnerJoiner "_1" "_2") []
            (Ok left_group) (Ok right_group)
  = Joiner_call elements_order (InnerJoiner "_1" "_2") [] left_group right_group.
Proof.
  apply (Join_without_keys no_float_repr elements_order (InnerJoiner "_1" "_2")
           left_group right_group).
  - exact I.
  - discriminate.
  - discriminate.
Defined.

Lemma Join_is_less_strict_order_witness :
  Join_is_less no_float_repr [VInt 1] [VInt 1] = Ok false /\
  (Join_is_less no_float_repr [VInt 1] [VInt 2] = Ok true ->
   Join_is_less no_float_repr [VInt 2] [VInt 1] = Ok false) /\
  (Join_is_less no_float_repr [VInt 1] [VInt 2] = Ok true ->
   Join_is_less no_float_repr [VInt 2] [VInt 3] = Ok true ->
   Join_is_less no_float_repr [VInt 1] [VInt 3] = Ok true) /\
  (Join_is_less no_float_repr [VInt 1] [VInt 2] = Ok false ->
   Join_is_less no_float_repr [VInt 2] [VInt 1] = Ok false ->
   map (py_str no_float_repr) [VInt 1] = map (py_str no_float_repr) [VInt 2]) /\
  (forall d, length d <> length [VInt 1] ->
     Join_is_less no_float_repr [VInt 1] d = Raise AssertionError).
Proof.
  apply (Join_is_less_strict_order no_float_repr [VInt 1] [VInt 2] [VInt 3]).
  - reflexivity.
  - reflexivity.
Defined.

Lemma sorted_groups_exact :
  exact_keys sorted_left_groups /\ exact_keys sorted_right_groups.
Proof. split; repeat constructor. Qed.

Lemma sorted_groups_sorted :
  key_sorted no_float_repr sorted_left_groups /\
  key_sorted no_float_repr sorted_right_groups.
Proof. split; cbn; repeat split; repeat constructor. Qed.

Lemma Join_inner_on_sorted_inputs_witness :
  Join_call no_float_repr elements_order (InnerJoiner "_1" "_2") ["id"]
            (Ok sorted_left) (Ok sorted_right)
  = inner_join_of elements_order (InnerJoiner "_1" "_2") ["id"]
                  sorted_left_groups sorted_right_groups.
Proof.
  apply (Join_inner_on_sorted_inputs no_float_repr elements_order "_1" "_2"
           ["id"] sorted_left sorted_right).
  - reflexivity.
  - reflexivity.
  - exact (proj1 sorted_groups_exact).
  - exact (proj2 sorted_groups_exact).
  - exact (proj1 sorted_groups_sorted).
  - exact (proj2 sorted_groups_sorted).
Defined.

Lemma Join_left_on_sorted_inputs_witness :
  Join_call no_float_repr elements_order (LeftJoiner "_1" "_2") ["id"]
            (Ok sorted_left) (Ok sorted_right)
  = left_join_of elements_order (LeftJoiner "_1" "_2") ["id"]
                 sorted_left_groups sorted_right_groups.
Proof.
  apply (Join_left_on_sorted_inputs no_float_repr elements_order "_1" "_2"
           ["id"] sorted_left sorted_right).
  - reflexivity.
  - reflexivity.
  - exact (proj1 sorted_groups_exact).
  - exact (proj2 sorted_groups_exact).
  - exact (proj1 sorted_groups_sorted).
  - exact (proj2 sorted_groups_sorted).
Defined.

Lemma Join_right_on_sorted_inputs_witness :
  Join_call no_float_repr elements_order (RightJoiner "_1" "_2") ["id"]
            (Ok sorted_left) (Ok sorted_right)
  = right_join_of elements_order (RightJoiner "_1" "_2") ["id"]
                  sorted_left_groups sorted_right_groups.
Proof.
  apply (Join_right_on_sorted_inputs no_float_repr elements_order "_1" "_2"
           ["id"] sorted_left sorted_right).
  - reflexivity.
  - reflexivity.
  - exact (proj1 sorted_groups_exact).
  - exact (proj2 sorted_groups_exact).
  - exact (proj1 sorted_groups_sorted).
  - exact (proj2 sorted_groups_sorted).
Defined.

Lemma Join_outer_on_sorted_inputs_witness :
  exists ks,
    keys_ordered no_float_repr ks /\
    (forall k, k ∈ ks <->
               k ∈ map fst sorted_left_groups \/
               k ∈ map fst sorted_right_groups) /\
    Join_call no_float_repr elements_order (OuterJoiner "_1" "_2") ["id"]
              (Ok sorted_left) (Ok sorted_right)
    = outer_join_of elements_order (OuterJoiner "_1" "_2") ["id"]
                    sorted_left_groups sorted_right_groups ks.
Proof.
  apply (Join_outer_on_sorted_inputs no_float_repr elements_order "_1" "_2"
           ["id"] sorted_left sorted_right).
  - reflexivity.
  - reflexivity.
  - exact (proj1 sorted_groups_exact).
  - exact (proj2 sorted_groups_exact).
  - exact (proj1 sorted_groups_sorted).
  - exact (proj2 sorted_groups_sorted).
Defined.

(** ** Graphs *)

Lemma heap_docs_well_formed (depth : nat) :
  well_formed (S depth) heap_docs 2%nat.
Proof.
  exists (ReadIterFactory "docs"), [], [].
  split; [reflexivity|]. split; [reflexivity|]. split; [reflexivity|constructor].
Qed.

Lemma well_formed_graph_runs_witness :
  exists stream,
    Graph_run no_float_repr elements_order 1 heap_docs inputs_a_b 2%nat
    = Ok stream.
Proof.
  apply (well_formed_graph_runs no_float_repr elements_order 1 heap_docs 2%nat).
  - exact (heap_docs_well_formed 0).
  - lia.
Defined.

Lemma constructors_build_sources_witness :
  (forall name,
     exists h' g,
       graph_from_iter heap_docs name = Ok (h', g) /\
       (g ∉ dom heap_docs) /\ heap_docs ⊆ h' /\ closed h' /\
       graph_lists h' g = Ok ([ReadIterFactory name], []) /\
       well_formed 1 h' g /\
       forall fuel inp,
         Graph_run no_float_repr elements_order (S fuel) h' inp g
         = Ok (match kwargs inp !! name with
               | Some rows => rows
               | None => Raise KeyError
               end)) /\
  (forall filename parser,
     exists h' g,
       graph_from_file heap_docs filename parser = Ok (h', g) /\
       (g ∉ dom heap_docs) /\ heap_docs ⊆ h' /\ closed h' /\
       graph_lists h' g = Ok ([Read filename parser], []) /\
       well_formed 1 h' g /\
       forall fuel inp,
         Graph_run no_float_repr elements_order (S fuel) h' inp g
         = Ok (match files inp !! filename with
               | Some lines => mapM parser lines
               | None => Raise FileNotFoundError
               end)).
Proof.
  apply (constructors_build_sources no_float_repr elements_order heap_docs).
  exact heap_docs_closed.
Defined.

Lemma chaining_keeps_well_formed_witness :
  (forall mapper, exists h' g',
     Graph_map heap_docs 2%nat mapper = Ok (h', g') /\
     closed h' /\ heap_docs ⊆ h' /\ well_formed 2 h' g' /\
     forall inp, exists stream,
       Graph_run no_float_repr elements_order 2 h' inp g' = Ok stream) /\
  (forall reducer keys, exists h' g',
     Graph_reduce heap_docs 2%nat reducer keys = Ok (h', g') /\
     closed h' /\ heap_docs ⊆ h' /\ well_formed 2 h' g' /\
     forall inp, exists stream,
       Graph_run no_float_repr elements_order 2 h' inp g' = Ok stream) /\
  (forall keys, exists h' g',
     Graph_sort no_sort heap_docs 2%nat keys = Ok (h', g') /\
     closed h' /\ heap_docs ⊆ h' /\ well_formed 2 h' g' /\
     forall inp, exists stream,
       Graph_run no_float_repr elements_order 2 h' inp g' = Ok stream) /\
  (forall joiner join_graph keys,
     well_formed 1 heap_docs join_graph ->
     exists h' g',
       Graph_join heap_docs 2%nat joiner join_graph keys = Ok (h', g') /\
       closed h' /\ heap_docs ⊆ h' /\ well_formed 2 h' g' /\
       forall inp, exists stream,
         Graph_run no_float_repr elements_order 2 h' inp g' = Ok stream).
Proof.
  apply (chaining_keeps_well_formed no_float_repr elements_order no_sort 1
           heap_docs 2%nat).
  - exact heap_docs_closed.
  - exact (heap_docs_well_formed 1).
Defined.

Lemma run_after_map_reduce_sort_witness :
  (forall mapper, exists h' g',
     Graph_map heap_docs 2%nat mapper = Ok (h', g') /\
     forall fuel inp,
       Graph_run no_float_repr elements_order fuel h' inp g'
       = d ← Graph_run no_float_repr elements_order fuel heap_docs inp 2%nat;
         Ok (Map_call mapper d)) /\
  (forall reducer keys, exists h' g',
     Graph_reduce heap_docs 2%nat reducer keys = Ok (h', g') /\
     forall fuel inp,
       Graph_run no_float_repr elements_order fuel h' inp g'
       = d ← Graph_run no_float_repr elements_order fuel heap_docs inp 2%nat;
         Ok (Reduce_call reducer keys d)) /\
  (forall keys, exists h' g',
     Graph_sort no_sort heap_docs 2%nat keys = Ok (h', g') /\
     forall fuel inp,
       Graph_run no_float_repr elements_order fuel h' inp g'
       = d ← Graph_run no_float_repr elements_order fuel heap_docs inp 2%nat;
         Ok (no_sort keys d)).
Proof.
  apply (run_after_map_reduce_sort no_float_repr elements_order no_sort
           heap_docs 2%nat).
  - exact heap_docs_closed.
  - exists 0%nat, 1%nat. reflexivity.
Defined.

Lemma run_after_join_witness :
  exists h' g',
    Graph_join heap_docs 2%nat (InnerJoiner "_1" "_2") 2%nat ["doc"]
    = Ok (h', g') /\
    forall fuel inp,
      Graph_run no_float_repr elements_order (S fuel) h' inp g'
      = d ← Graph_run no_float_repr elements_order (S fuel) heap_docs inp 2%nat;
        right ← Graph_run no_float_repr elements_order fuel heap_docs inp 2%nat;
        Ok (Join_call no_float_repr elements_order (InnerJoiner "_1" "_2")
                      ["doc"] d right).
Proof.
  apply (run_after_join no_float_repr elements_order 1 heap_docs 2%nat 2%nat
           (InnerJoiner "_1" "_2") ["doc"]).
  - exact heap_docs_closed.
  - exact (heap_docs_well_formed 0).
  - exists 0%nat, 1%nat. reflexivity.
Defined.

Lemma Graph_init_shares_lists_witness :
  exists h' g ops_l jgs_l,
    Graph_init heap_docs (Some 0%nat) (Some 1%nat) = Ok (h', g) /\
    (g ∉ dom heap_docs) /\ heap_docs ⊆ h' /\ closed h' /\
    h' !! g = Some (GraphObj ops_l jgs_l) /\
    graph_lists h' g = Ok ([ReadIterFactory "docs"], []) /\
    Some 0%nat = Some ops_l /\
    (jgs_l ∉ dom heap_docs) /\
    (([ReadIterFactory "docs"] : list Operation) = [] ->
     forall fuel inp,
       Graph_run no_float_repr elements_order (S fuel) h' inp g
       = Raise AssertionError).
Proof.
  apply (Graph_init_shares_lists no_float_repr elements_order heap_docs
           (Some 0%nat) (Some 1%nat) [ReadIterFactory "docs"] []).
  - exact heap_docs_closed.
  - reflexivity.
  - reflexivity.
Defined.
